(** * The transition engine of the navigation history polyfill

    A shallow embedding of [src/app-history.ts] (the [AppHistory] class: the
    Navigator) and of [src/navigation-transition.ts] (the
    [NavigationTransition] class), with the properties the specification
    states about them.

    JavaScript objects that the code shares by reference (the [#entries]
    array, the [#known] set, abort controllers, the [promises] array of a
    running transition) live in an explicit store, and a private field holds a
    location.  An [async] function is a tree of synchronous steps separated
    by [Await] nodes: what comes back from an awaited promise is chosen by
    the environment. *)

From Stdlib Require Import ZArith Lia Bool.
From stdpp Require Import base option list strings.

Local Open Scope Z_scope.

(** ** Errors *)

(** [InvalidStateError] is the class of [./app-history-errors]; [AbortError]
    the one [navigation-transition.ts] imports beside it; every other thrown
    value is an [OtherError]. *)
Inductive Error : Type :=
| InvalidStateError (message : string)
| AbortError
| OtherError (message : string).

(** [error instanceof InvalidStateError] / [isInvalidStateError(error)] *)
Definition isInvalidStateError (e : Error) : bool :=
  match e with InvalidStateError _ => true | _ => false end.

(** [isAbortError(error)] *)
Definition isAbortError (e : Error) : bool :=
  match e with AbortError => true | _ => false end.

(** The state of a promise (or of a deferred's promise). *)
Inductive Settled (A : Type) : Type :=
| Pending
| Fulfilled (value : A)
| Rejected (reason : Error).
Arguments Pending {A}.
Arguments Fulfilled {A} value.
Arguments Rejected {A} reason.

(** ** Asynchronous functions *)

Section Async.
(** [S]: the mutable state the code works on; [W]: what can be awaited;
    [Ans w]: the type of the value a fulfilled [w] gives. *)
Context {S : Type} {W : Type} {Ans : W -> Type}.

Inductive Async (A : Type) : Type :=
| Done (a : A)                                   (* return a *)
| Throw (e : Error)                              (* throw e *)
| Get (k : S -> Async A)                         (* read the state *)
| Modify (f : S -> S) (p : Async A)              (* write the state *)
| Await (w : W) (k : Error + Ans w -> Async A).  (* await w: rejected with e, or fulfilled *)

Arguments Done {A} a.
Arguments Throw {A} e.
Arguments Get {A} k.
Arguments Modify {A} f p.
Arguments Await {A} w k.

Fixpoint bind {A B : Type} (p : Async A) (f : A -> Async B) : Async B :=
  match p with
  | Done a => f a
  | Throw e => Throw e
  | Get k => Get (fun s => bind (k s) f)
  | Modify g p' => Modify g (bind p' f)
  | Await w k => Await w (fun r => bind (k r) f)
  end.

(** [try { p } catch (error) { h error }] *)
Fixpoint try_catch {A : Type} (p : Async A) (h : Error -> Async A) : Async A :=
  match p with
  | Done a => Done a
  | Throw e => h e
  | Get k => Get (fun s => try_catch (k s) h)
  | Modify g p' => Modify g (try_catch p' h)
  | Await w k => Await w (fun r => try_catch (k r) h)
  end.

(** [try { p } finally { f }]: [f] runs on both exits of [p]; when [f]
    itself throws, its error replaces the outcome of [p]. *)
Fixpoint try_finally {A : Type} (p : Async A) (f : Async unit) : Async A :=
  match p with
  | Done a => bind f (fun _ => Done a)
  | Throw e => bind f (fun _ => Throw e)
  | Get k => Get (fun s => try_finally (k s) f)
  | Modify g p' => Modify g (try_finally p' f)
  | Await w k => Await w (fun r => try_finally (k r) f)
  end.

(** Calling an [async] function without awaiting it: the callee runs to its
    first [await], and the caller goes on with the promise.  The promise
    is [Pending] when the callee suspended; what the callee does after that
    point belongs to a later turn of the event loop and is not part of the
    caller's tree. *)
Fixpoint spawn {A : Type} (p : Async A) : Async (Settled A) :=
  match p with
  | Done a => Done (Fulfilled a)
  | Throw e => Done (Rejected e)
  | Get k => Get (fun s => spawn (k s))
  | Modify g p' => Modify g (spawn p')
  | Await _ _ => Done Pending
  end.

(** A synchronous run: the steps up to the first [await].  [None] when the
    code suspends. *)
Fixpoint run_sync {A : Type} (p : Async A) (s : S) : option (S * (Error + A)) :=
  match p with
  | Done a => Some (s, inr a)
  | Throw e => Some (s, inl e)
  | Get k => run_sync (k s) s
  | Modify g p' => run_sync p' (g s)
  | Await _ _ => None
  end.

(** What the environment does while the code is suspended at its [n]-th
    [await]: other code runs ([acts], each interpreted by [perform]) and
    the awaited promise settles. *)
Context {Act : Type}.

Record Reaction (w : W) : Type := mkReaction {
  acts : list Act;
  answer : Error + Ans w
}.
Arguments acts {w} r.
Arguments answer {w} r.

Definition Oracle : Type := nat -> forall w : W, Reaction w.

Variable perform : Act -> S -> S.

Definition during {w : W} (r : Reaction w) (s : S) : S :=
  fold_left (fun s a => perform a s) (acts r) s.

(** A run to completion against an oracle, from the [n]-th await on. *)
Fixpoint exec {A : Type} (p : Async A) (o : Oracle) (n : nat) (s : S)
  : S * (Error + A) :=
  match p with
  | Done a => (s, inr a)
  | Throw e => (s, inl e)
  | Get k => exec (k s) o n s
  | Modify g p' => exec p' o n (g s)
  | Await w k => exec (k (answer (o n w))) o (Datatypes.S n) (during (o n w) s)
  end.

(** The number of awaits a run goes through. *)
Fixpoint awaits {A : Type} (p : Async A) (o : Oracle) (n : nat) (s : S) : nat :=
  match p with
  | Done _ | Throw _ => n
  | Get k => awaits (k s) o n s
  | Modify g p' => awaits p' o n (g s)
  | Await w k => awaits (k (answer (o n w))) o (Datatypes.S n) (during (o n w) s)
  end.

Lemma exec_bind {A B : Type} (p : Async A) (f : A -> Async B) o n s :
  exec (bind p f) o n s =
  match exec p o n s with
  | (s', inr a) => exec (f a) o (awaits p o n s) s'
  | (s', inl e) => (s', inl e)
  end.
Proof.
  revert n s; induction p as [a|e|k IH|g p IH|w k IH]; intros n s; simpl; auto.
Qed.

Lemma awaits_bind {A B : Type} (p : Async A) (f : A -> Async B) o n s :
  awaits (bind p f) o n s =
  match exec p o n s with
  | (s', inr a) => awaits (f a) o (awaits p o n s) s'
  | (_, inl _) => awaits p o n s
  end.
Proof.
  revert n s; induction p as [a|e|k IH|g p IH|w k IH]; intros n s; simpl; auto.
Qed.

Lemma exec_try_catch {A : Type} (p : Async A) (h : Error -> Async A) o n s :
  exec (try_catch p h) o n s =
  match exec p o n s with
  | (s', inr a) => (s', inr a)
  | (s', inl e) => exec (h e) o (awaits p o n s) s'
  end.
Proof.
  revert n s; induction p as [a|e|k IH|g p IH|w k IH]; intros n s; simpl; auto.
Qed.

Lemma exec_try_finally {A : Type} (p : Async A) (f : Async unit) o n s :
  exec (try_finally p f) o n s =
  match exec p o n s with
  | (s', r) =>
      match exec f o (awaits p o n s) s' with
      | (s'', inr _) => (s'', r)
      | (s'', inl e) => (s'', inl e)
      end
  end.
Proof.
  revert n s; induction p as [a|e|k IH|g p IH|w k IH]; intros n s; simpl; auto.
  - rewrite exec_bind. destruct (exec f o n s) as [s' [e|[]]]; reflexivity.
  - rewrite exec_bind. destruct (exec f o n s) as [s' [e'|[]]]; reflexivity.
Qed.

Lemma run_sync_exec {A : Type} (p : Async A) s r o n :
  run_sync p s = Some r -> exec p o n s = r.
Proof.
  revert s n; induction p as [a|e|k IH|g p IH|w k IH]; intros s n; simpl;
    try congruence; auto.
Qed.
(** *** Frame conditions

    [Keeps R p]: every write of [p] takes a state to one related to it by
    [R]. *)
Inductive Keeps (R : S -> S -> Prop) {A : Type} : Async A -> Prop :=
| keeps_done a : Keeps R (Done a)
| keeps_throw e : Keeps R (Throw e)
| keeps_get k : (forall s, Keeps R (k s)) -> Keeps R (Get k)
| keeps_modify g p : (forall s, R s (g s)) -> Keeps R p -> Keeps R (Modify g p)
| keeps_await w k : (forall r, Keeps R (k r)) -> Keeps R (Await w k).

Lemma keeps_bind R {A B : Type} (p : Async A) (f : A -> Async B) :
  Keeps R p -> (forall a, Keeps R (f a)) -> Keeps R (bind p f).
Proof. intros Hp Hf. induction Hp; simpl; try constructor; auto. Qed.

Lemma keeps_try_catch R {A : Type} (p : Async A) (h : Error -> Async A) :
  Keeps R p -> (forall e, Keeps R (h e)) -> Keeps R (try_catch p h).
Proof. intros Hp Hh. induction Hp; simpl; try constructor; auto. Qed.

Lemma keeps_try_finally R {A : Type} (p : Async A) (f : Async unit) :
  Keeps R p -> Keeps R f -> Keeps R (try_finally p f).
Proof.
  intros Hp Hf. induction Hp; simpl; try constructor; auto;
    apply keeps_bind; auto; intros; constructor.
Qed.

Lemma keeps_spawn R {A : Type} (p : Async A) :
  Keeps R p -> Keeps R (spawn p).
Proof. intros Hp. induction Hp; simpl; try constructor; auto. Qed.

Lemma keeps_run_sync R {A : Type} (p : Async A) s s' r :
  Reflexive R -> Transitive R ->
  Keeps R p -> run_sync p s = Some (s', r) -> R s s'.
Proof.
  intros Hrefl Htrans Hp. revert s.
  induction Hp as [a|e|k Hk IH|g p Hg Hp IH|w k Hk IH]; intros s; simpl.
  - intros [= -> _]. apply Hrefl.
  - intros [= -> _]. apply Hrefl.
  - apply IH.
  - intros H. eapply Htrans; [apply Hg|]. apply IH, H.
  - discriminate.
Qed.

(** *** Weakest preconditions

    [wp allowed p Q s]: every run of [p] from [s], against an environment
    whose reactions are all [allowed], ends in an outcome and a state that
    satisfy [Q]. *)
Variable allowed : forall w : W, Reaction w -> Prop.

Fixpoint wp {A : Type} (p : Async A) (Q : Error + A -> S -> Prop) (s : S) : Prop :=
  match p with
  | Done a => Q (inr a) s
  | Throw e => Q (inl e) s
  | Get k => wp (k s) Q s
  | Modify g p' => wp p' Q (g s)
  | Await w k => forall rc : Reaction w, allowed w rc -> wp (k (answer rc)) Q (during rc s)
  end.

Lemma wp_mono {A : Type} (p : Async A) (Q Q' : Error + A -> S -> Prop) s :
  (forall r s', Q r s' -> Q' r s') -> wp p Q s -> wp p Q' s.
Proof.
  intros HQ. revert s; induction p as [a|e|k IH|g p IH|w k IH]; intros s; simpl; auto.
Qed.

Lemma wp_bind {A B : Type} (p : Async A) (f : A -> Async B) (Q : Error + B -> S -> Prop) s :
  wp (bind p f) Q s <->
  wp p (fun r s' => match r with
                    | inr a => wp (f a) Q s'
                    | inl e => Q (inl e) s'
                    end) s.
Proof.
  revert s; induction p as [a|e|k IH|g p IH|w k IH]; intros s; simpl;
    try tauto; auto.
  split; intros H rc Hrc; apply IH, H, Hrc.
Qed.

Lemma wp_try_catch {A : Type} (p : Async A) (h : Error -> Async A)
    (Q : Error + A -> S -> Prop) s :
  wp (try_catch p h) Q s <->
  wp p (fun r s' => match r with
                    | inr a => Q (inr a) s'
                    | inl e => wp (h e) Q s'
                    end) s.
Proof.
  revert s; induction p as [a|e|k IH|g p IH|w k IH]; intros s; simpl;
    try tauto; auto.
  split; intros H rc Hrc; apply IH, H, Hrc.
Qed.

Lemma wp_try_finally {A : Type} (p : Async A) (f : Async unit)
    (Q : Error + A -> S -> Prop) s :
  wp (try_finally p f) Q s <->
  wp p (fun r s' => wp f (fun r' s'' => match r' with
                                        | inr _ => Q r s''
                                        | inl e => Q (inl e) s''
                                        end) s') s.
Proof.
  revert s; induction p as [a|e|k IH|g p IH|w k IH]; intros s; simpl; auto.
  - rewrite wp_bind. split; apply wp_mono; intros [e|[]] s'; auto.
  - rewrite wp_bind. split; apply wp_mono; intros [e'|[]] s'; auto.
  - split; intros H rc Hrc; apply IH, H, Hrc.
Qed.

Lemma wp_sound {A : Type} (p : Async A) (Q : Error + A -> S -> Prop) (o : Oracle) n s :
  (forall m w, allowed w (o m w)) ->
  wp p Q s -> Q (snd (exec p o n s)) (fst (exec p o n s)).
Proof.
  intros Ho. revert n s; induction p as [a|e|k IH|g p IH|w k IH]; intros n s; simpl; auto.
Qed.

(** [Steps R p]: [p] keeps [R] and has no [throw]. *)
Inductive Steps (R : S -> S -> Prop) {A : Type} : Async A -> Prop :=
| steps_done a : Steps R (Done a)
| steps_get k : (forall s, Steps R (k s)) -> Steps R (Get k)
| steps_modify g p : (forall s, R s (g s)) -> Steps R p -> Steps R (Modify g p)
| steps_await w k : (forall r, Steps R (k r)) -> Steps R (Await w k).

Lemma steps_bind R {A B : Type} (p : Async A) (f : A -> Async B) :
  Steps R p -> (forall a, Steps R (f a)) -> Steps R (bind p f).
Proof. intros Hp Hf. induction Hp; simpl; try constructor; auto. Qed.

Lemma steps_keeps R {A : Type} (p : Async A) : Steps R p -> Keeps R p.
Proof. intros Hp. induction Hp; constructor; auto. Qed.

Lemma during_keeps R (w : W) (rc : Reaction w) s :
  Reflexive R -> Transitive R ->
  (forall a s0, R s0 (perform a s0)) -> R s (during rc s).
Proof.
  intros Hrefl Htrans Hperform. unfold during. revert s.
  induction (acts rc) as [|a l IH]; intros s; simpl.
  - apply Hrefl.
  - eapply Htrans; [apply Hperform|apply IH].
Qed.

Lemma wp_true {A : Type} (p : Async A) s : wp p (fun _ _ => True) s.
Proof. revert s; induction p; intros s; simpl; auto. Qed.

(** A first part that cannot throw: what follows starts in a related
    state. *)
Lemma wp_steps R {A B : Type} (p : Async A) (k : A -> Async B)
    (Q : Error + B -> S -> Prop) s :
  Reflexive R -> Transitive R ->
  (forall a s0, R s0 (perform a s0)) ->
  Steps R p ->
  (forall a s', R s s' -> wp (k a) Q s') ->
  wp (bind p k) Q s.
Proof.
  intros Hrefl Htrans Hperform Hp Hk.
  cut (forall s0, R s s0 -> wp (bind p k) Q s0).
  { intros H. apply H, Hrefl. }
  induction Hp as [a|k0 Hk0 IH|g p Hg Hp IH|w k0 Hk0 IH]; intros s0 Hs0; simpl; auto.
  - apply IH. eapply Htrans; [exact Hs0|apply Hg].
  - intros rc _. apply IH. eapply Htrans; [exact Hs0|]. apply during_keeps; assumption.
Qed.

Lemma keeps_wp R {A : Type} (p : Async A) s :
  Reflexive R -> Transitive R ->
  (forall a s0, R s0 (perform a s0)) ->
  Keeps R p -> wp p (fun _ s' => R s s') s.
Proof.
  intros Hrefl Htrans Hperform Hp.
  assert (Hduring : forall w (rc : Reaction w) s0, R s0 (during rc s0)).
  { intros w rc. unfold during. induction (acts rc) as [|a l IH]; intros s0; simpl.
    - apply Hrefl.
    - eapply Htrans; [apply Hperform|apply IH]. }
  cut (forall s0, R s s0 -> wp p (fun _ s' => R s s') s0).
  { intros H. apply H, Hrefl. }
  induction Hp as [a|e|k Hk IH|g p Hg Hp IH|w k Hk IH]; intros s0 Hs0; simpl; auto.
  - apply IH. eapply Htrans; [exact Hs0|apply Hg].
  - intros rc _. apply IH. eapply Htrans; [exact Hs0|apply Hduring].
Qed.

End Async.

Arguments Async S {W} Ans A.
Arguments Done {S W Ans A} a.
Arguments Throw {S W Ans A} e.
Arguments Get {S W Ans A} k.
Arguments Modify {S W Ans A} f p.
Arguments Await {S W Ans A} w k.
Arguments Oracle {W} Ans Act.
Arguments Reaction {W} Ans Act w.
Arguments mkReaction {W Ans Act w} acts answer.
Arguments acts {W Ans Act w} r.
Arguments answer {W Ans Act w} r.

(** The sequencing notations [x ← p; q] and [p;; q] are those of stdpp. *)
#[global] Instance async_bind {S W : Type} {Ans : W -> Type} : MBind (@Async S W Ans) :=
  fun A B f p => bind p f.
#[global] Instance async_ret {S W : Type} {Ans : W -> Type} : MRet (@Async S W Ans) :=
  fun A a => Done a.
#[global] Instance async_fmap {S W : Type} {Ans : W -> Type} : FMap (@Async S W Ans) :=
  fun A B f p => bind p (fun a => Done (f a)).

Section AsyncLemmas.
Context {S W : Type} {Ans : W -> Type} {Act : Type} (perform : Act -> S -> S).
Context (allowed : forall w : W, Reaction Ans Act w -> Prop).

Lemma wp_mbind {A B : Type} (p : Async S Ans A) (f : A -> Async S Ans B)
    (Q : Error + B -> S -> Prop) s :
  wp perform allowed (p ≫= f) Q s <->
  wp perform allowed p (fun r s' => match r with
                                    | inr a => wp perform allowed (f a) Q s'
                                    | inl e => Q (inl e) s'
                                    end) s.
Proof. apply wp_bind. Qed.

Lemma keeps_mbind R {A B : Type} (p : Async S Ans A) (f : A -> Async S Ans B) :
  Keeps R p -> (forall a, Keeps R (f a)) -> Keeps R (p ≫= f).
Proof. apply keeps_bind. Qed.

Lemma steps_mbind R {A B : Type} (p : Async S Ans A) (f : A -> Async S Ans B) :
  Steps R p -> (forall a, Steps R (f a)) -> Steps R (p ≫= f).
Proof. apply steps_bind. Qed.

Lemma wp_steps_mbind R {A B : Type} (p : Async S Ans A) (k : A -> Async S Ans B)
    (Q : Error + B -> S -> Prop) s :
  Reflexive R -> Transitive R ->
  (forall a s0, R s0 (perform a s0)) ->
  Steps R p ->
  (forall a s', R s s' -> wp perform allowed (k a) Q s') ->
  wp perform allowed (p ≫= k) Q s.
Proof. apply wp_steps. Qed.

Lemma keeps_fmap R {A B : Type} (p : Async S Ans A) (f : A -> B) :
  Keeps R p -> Keeps R (f <$> p).
Proof. intros Hp. apply keeps_bind; [exact Hp|]. intros; constructor. Qed.

Lemma wp_fmap {A B : Type} (p : Async S Ans A) (f : A -> B)
    (Q : Error + B -> S -> Prop) s :
  wp perform allowed (f <$> p) Q s <->
  wp perform allowed p (fun r s' => match r with
                                    | inr a => Q (inr (f a)) s'
                                    | inl e => Q (inl e) s'
                                    end) s.
Proof. unfold fmap, async_fmap. rewrite wp_bind. reflexivity. Qed.

Lemma run_sync_mbind {A B : Type} (p : Async S Ans A) (f : A -> Async S Ans B) s :
  run_sync (p ≫= f) s =
  match run_sync p s with
  | Some (s', inr a) => run_sync (f a) s'
  | Some (s', inl e) => Some (s', inl e)
  | None => None
  end.
Proof.
  unfold mbind, async_bind.
  revert s; induction p as [a|e|k IH|g p IH|w k IH]; intros s; simpl; auto.
Qed.

Lemma run_sync_fmap {A B : Type} (p : Async S Ans A) (f : A -> B) s :
  run_sync (f <$> p) s =
  match run_sync p s with
  | Some (s', inr a) => Some (s', inr (f a))
  | Some (s', inl e) => Some (s', inl e)
  | None => None
  end.
Proof.
  unfold fmap, async_fmap.
  revert s; induction p as [a|e|k IH|g p IH|w k IH]; intros s; simpl; auto.
Qed.

Lemma exec_mbind {A B : Type} (p : Async S Ans A) (f : A -> Async S Ans B) o n s :
  exec perform (p ≫= f) o n s =
  match exec perform p o n s with
  | (s', inr a) => exec perform (f a) o (awaits perform p o n s) s'
  | (s', inl e) => (s', inl e)
  end.
Proof. apply exec_bind. Qed.

Lemma awaits_mbind {A B : Type} (p : Async S Ans A) (f : A -> Async S Ans B) o n s :
  awaits perform (p ≫= f) o n s =
  match exec perform p o n s with
  | (s', inr a) => awaits perform (f a) o (awaits perform p o n s) s'
  | (_, inl _) => awaits perform p o n s
  end.
Proof. apply awaits_bind. Qed.
End AsyncLemmas.

(** * The Navigator: [src/app-history.ts] *)

Module AppHistory.

(** ** Data *)

(** A location in one of the object stores. *)
Definition loc : Type := nat.

(** A promise handed to [transitionWhile], by identity. *)
Definition SubOp : Type := nat.

(** [AppHistoryNavigationType]: the navigation kinds that are strings. *)
Inductive AppHistoryNavigationType : Type :=
| KPush | KReplace | KTraverse | KReload.

(** [InternalAppHistoryNavigationType]: a string kind, or one of the symbols
    [Rollback], [UpdateCurrent] and [Unset] of
    [./create-app-history-transition]. *)
Inductive InternalAppHistoryNavigationType : Type :=
| Str (kind : AppHistoryNavigationType)
| Rollback
| UpdateCurrent
| Unset.

(** [typeof navigationType === "string"] *)
Definition is_string (t : InternalAppHistoryNavigationType) : bool :=
  match t with Str _ => true | _ => false end.

Definition is_Rollback (t : InternalAppHistoryNavigationType) : bool :=
  match t with Rollback => true | _ => false end.

Definition is_UpdateCurrent (t : InternalAppHistoryNavigationType) : bool :=
  match t with UpdateCurrent => true | _ => false end.

Definition is_Unset (t : InternalAppHistoryNavigationType) : bool :=
  match t with Unset => true | _ => false end.

(** Modelled from the spec: the [AppHistoryEntry] class of
    [./app-history-entry] is not among the sources.  An entry has an [id]
    (unique among all the entries one Navigator creates; it stands for the
    identity of the object as well), a [key] (shared by an entry and its
    clones), a [url], [sameDocument] and an opaque [state]. *)
Record AppHistoryEntry : Type := mkEntry {
  entry_id : nat;
  entry_key : nat;
  entry_url : option string;
  entry_sameDocument : bool;
  entry_state : option string
}.

(** The options of the public operations, with the fields
    [InternalAppHistoryNavigateOptions] adds for a rollback. *)
Record Options : Type := mkOptions {
  opt_state : option string;
  opt_replace : bool;
  opt_index : option Z;      (* index *)
  opt_known : option loc;    (* known: a [Set] *)
  opt_entries : option loc   (* entries: an array *)
}.

Definition no_options : Options :=
  {| opt_state := None; opt_replace := false; opt_index := None;
     opt_known := None; opt_entries := None |}.

(** The function a rollback closure was made with: [createRollback] is
    called with [this.#pushEntry] and with [this.#transition]. *)
Inductive RollbackFn : Type := ViaPushEntry | ViaTransition.

(** What the closure returned by [#createRollback] captures. *)
Record RollbackClosure : Type := mkRollback {
  rb_fn : RollbackFn;
  rb_transition : option nat;            (* transition *)
  rb_current : option AppHistoryEntry;   (* current *)
  rb_previousEntries : loc;              (* previousEntries, a copy *)
  rb_previousIndex : Z;                  (* previousIndex *)
  rb_known : loc                         (* known: the very set [#known] was *)
}.

(** Modelled from the spec: the [AppHistoryTransition] class of
    [./app-history-transition] is not among the sources.  A transition
    carries its [from] entry, its navigation kind and its rollback
    callback. *)
Record Transition : Type := mkTransition {
  t_from : AppHistoryEntry;
  t_navigationType : AppHistoryNavigationType;
  t_rollback : RollbackClosure
}.

(** The state of a [finished] promise of [#commitTransition]: its callback
    has not run, is running, or has returned. *)
Inductive LinkState : Type :=
| Queued
| Started
| Returned (result : Error + AppHistoryEntry).

(** A [finished] promise with what its [then] callback closes over. *)
Record Link : Type := mkLink {
  l_source : option nat;     (* the promise it is chained on; [None]: [Promise.resolve(entry)] *)
  l_navigationType : InternalAppHistoryNavigationType;
  l_entry : AppHistoryEntry;
  l_nextTransition : option nat;
  l_options : option Options;
  l_state : LinkState
}.

Definition set_l_state (v : LinkState) (l : Link) : Link :=
  {| l_source := l_source l; l_navigationType := l_navigationType l;
     l_entry := l_entry l; l_nextTransition := l_nextTransition l;
     l_options := l_options l; l_state := v |}.

Definition set_l_nextTransition (v : option nat) (l : Link) : Link :=
  {| l_source := l_source l; l_navigationType := l_navigationType l;
     l_entry := l_entry l; l_nextTransition := v;
     l_options := l_options l; l_state := l_state l |}.

(** Who an event is dispatched on. *)
Inductive Target : Type :=
| OnNavigator
| OnEntry (entry : AppHistoryEntry).

Inductive Event : Type :=
| navigatefrom
| navigate_event
| currentchange
| navigateto
| finish
| navigatesuccess
| navigateerror (error : Error)
| dispose_event (entry : AppHistoryEntry).

(** The log is ghost state: it records each [dispatchEvent] call, the
    assignment of the three fields at the commit point ([Mutated]) and in
    the branch of the kind [Unset] ([Restored]), each call of
    [rollbackImmediately], the branch of [#immediateTransition] that finds
    the counter above 1 ([MultipleTransitions]), each promise
    [transitionWhile] takes (with the controller of the run), and each
    [Promise.all] that was fulfilled. *)
Inductive LogItem : Type :=
| Dispatched (target : Target) (event : Event)
| Mutated
| Restored
| RollbackInvoked
| MultipleTransitions
| Registered (abortController : nat) (p : SubOp)
| AwaitedAll (ps : list SubOp).

Record Store : Type := mkStore {
  arrays : list (list AppHistoryEntry)  (* the arrays of entries; [#entries] and the snapshots point here *);
  sets : list (list AppHistoryEntry)  (* the [Set]s of entries, in insertion order; [#known] points here *);
  controllers : list bool  (* the [AbortController]s: [signal.aborted] *);
  subops : list (list SubOp)  (* the [promises] array of the run that made the controller of the same index *);
  transitions : list Transition  (* the [AppHistoryTransition]s made so far *)
}.

Definition set_arrays (v : list (list AppHistoryEntry)) (h : Store) : Store :=
  {| arrays := v; sets := sets h; controllers := controllers h; subops := subops h; transitions := transitions h |}.
Definition set_sets (v : list (list AppHistoryEntry)) (h : Store) : Store :=
  {| arrays := arrays h; sets := v; controllers := controllers h; subops := subops h; transitions := transitions h |}.
Definition set_controllers (v : list bool) (h : Store) : Store :=
  {| arrays := arrays h; sets := sets h; controllers := v; subops := subops h; transitions := transitions h |}.
Definition set_subops (v : list (list SubOp)) (h : Store) : Store :=
  {| arrays := arrays h; sets := sets h; controllers := controllers h; subops := v; transitions := transitions h |}.
Definition set_transitions (v : list Transition) (h : Store) : Store :=
  {| arrays := arrays h; sets := sets h; controllers := controllers h; subops := subops h; transitions := v |}.

Record World : Type := mkWorld {
  transitionInProgressCount : Z  (* #transitionInProgressCount *);
  entries_ : loc  (* #entries *);
  known_ : loc  (* #known *);
  currentIndex : Z  (* #currentIndex *);
  activePromise : option nat  (* #activePromise: a promise of [chain] *);
  activeTransition : option nat  (* #activeTransition *);
  inProgressAbortController : option nat  (* #inProgressAbortController *);
  knownTransitions : list nat  (* #knownTransitions *);
  store : Store  (* the objects the fields above point to *);
  chain : list Link  (* the [finished] promises made by [#commitTransition], oldest first *);
  nextId : nat  (* the supply of fresh entry ids and keys *);
  log : list LogItem  (* what the Navigator has done so far, oldest first *)
}.

Definition set_transitionInProgressCount (v : Z) (w : World) : World :=
  {| transitionInProgressCount := v; entries_ := entries_ w; known_ := known_ w; currentIndex := currentIndex w; activePromise := activePromise w; activeTransition := activeTransition w; inProgressAbortController := inProgressAbortController w; knownTransitions := knownTransitions w; store := store w; chain := chain w; nextId := nextId w; log := log w |}.
Definition set_entries_ (v : loc) (w : World) : World :=
  {| transitionInProgressCount := transitionInProgressCount w; entries_ := v; known_ := known_ w; currentIndex := currentIndex w; activePromise := activePromise w; activeTransition := activeTransition w; inProgressAbortController := inProgressAbortController w; knownTransitions := knownTransitions w; store := store w; chain := chain w; nextId := nextId w; log := log w |}.
Definition set_known_ (v : loc) (w : World) : World :=
  {| transitionInProgressCount := transitionInProgressCount w; entries_ := entries_ w; known_ := v; currentIndex := currentIndex w; activePromise := activePromise w; activeTransition := activeTransition w; inProgressAbortController := inProgressAbortController w; knownTransitions := knownTransitions w; store := store w; chain := chain w; nextId := nextId w; log := log w |}.
Definition set_currentIndex (v : Z) (w : World) : World :=
  {| transitionInProgressCount := transitionInProgressCount w; entries_ := entries_ w; known_ := known_ w; currentIndex := v; activePromise := activePromise w; activeTransition := activeTransition w; inProgressAbortController := inProgressAbortController w; knownTransitions := knownTransitions w; store := store w; chain := chain w; nextId := nextId w; log := log w |}.
Definition set_activePromise (v : option nat) (w : World) : World :=
  {| transitionInProgressCount := transitionInProgressCount w; entries_ := entries_ w; known_ := known_ w; currentIndex := currentIndex w; activePromise := v; activeTransition := activeTransition w; inProgressAbortController := inProgressAbortController w; knownTransitions := knownTransitions w; store := store w; chain := chain w; nextId := nextId w; log := log w |}.
Definition set_activeTransition (v : option nat) (w : World) : World :=
  {| transitionInProgressCount := transitionInProgressCount w; entries_ := entries_ w; known_ := known_ w; currentIndex := currentIndex w; activePromise := activePromise w; activeTransition := v; inProgressAbortController := inProgressAbortController w; knownTransitions := knownTransitions w; store := store w; chain := chain w; nextId := nextId w; log := log w |}.
Definition set_inProgressAbortController (v : option nat) (w : World) : World :=
  {| transitionInProgressCount := transitionInProgressCount w; entries_ := entries_ w; known_ := known_ w; currentIndex := currentIndex w; activePromise := activePromise w; activeTransition := activeTransition w; inProgressAbortController := v; knownTransitions := knownTransitions w; store := store w; chain := chain w; nextId := nextId w; log := log w |}.
Definition set_knownTransitions (v : list nat) (w : World) : World :=
  {| transitionInProgressCount := transitionInProgressCount w; entries_ := entries_ w; known_ := known_ w; currentIndex := currentIndex w; activePromise := activePromise w; activeTransition := activeTransition w; inProgressAbortController := inProgressAbortController w; knownTransitions := v; store := store w; chain := chain w; nextId := nextId w; log := log w |}.
Definition set_store (v : Store) (w : World) : World :=
  {| transitionInProgressCount := transitionInProgressCount w; entries_ := entries_ w; known_ := known_ w; currentIndex := currentIndex w; activePromise := activePromise w; activeTransition := activeTransition w; inProgressAbortController := inProgressAbortController w; knownTransitions := knownTransitions w; store := v; chain := chain w; nextId := nextId w; log := log w |}.
Definition set_chain (v : list Link) (w : World) : World :=
  {| transitionInProgressCount := transitionInProgressCount w; entries_ := entries_ w; known_ := known_ w; currentIndex := currentIndex w; activePromise := activePromise w; activeTransition := activeTransition w; inProgressAbortController := inProgressAbortController w; knownTransitions := knownTransitions w; store := store w; chain := v; nextId := nextId w; log := log w |}.
Definition set_nextId (v : nat) (w : World) : World :=
  {| transitionInProgressCount := transitionInProgressCount w; entries_ := entries_ w; known_ := known_ w; currentIndex := currentIndex w; activePromise := activePromise w; activeTransition := activeTransition w; inProgressAbortController := inProgressAbortController w; knownTransitions := knownTransitions w; store := store w; chain := chain w; nextId := v; log := log w |}.
Definition set_log (v : list LogItem) (w : World) : World :=
  {| transitionInProgressCount := transitionInProgressCount w; entries_ := entries_ w; known_ := known_ w; currentIndex := currentIndex w; activePromise := activePromise w; activeTransition := activeTransition w; inProgressAbortController := inProgressAbortController w; knownTransitions := knownTransitions w; store := store w; chain := chain w; nextId := nextId w; log := v |}.

(** ** What the Navigator awaits *)

(** The argument of [createAppHistoryTransition]. *)
Record CreateInput : Type := mkCreateInput {
  ci_current : option AppHistoryEntry;
  ci_currentIndex : Z;
  ci_abortController : nat;
  ci_entries : list AppHistoryEntry;
  ci_entry : AppHistoryEntry;
  ci_options : option Options;
  ci_navigationType : InternalAppHistoryNavigationType;
  ci_transition : nat;
  ci_known : list AppHistoryEntry
}.

(** The fields of its result that [#transition] stores.  The function is in
    [./create-app-history-transition], which is not among the sources: its
    result is chosen by the environment, like the outcome of any other
    awaited promise. *)
Record TransitionResult : Type := mkResult {
  r_known : list AppHistoryEntry;
  r_entries : list AppHistoryEntry;
  r_index : Z
}.

Inductive Wait : Type :=
| WPerformance                                (* await getPerformance() *)
| WCreate (input : CreateInput)               (* await createAppHistoryTransition({...}) *)
| WDispatch (target : Target) (event : Event) (* await target.dispatchEvent(event) *)
| WMicrotask                                  (* await microtask *)
| WAll (ps : list SubOp)                      (* await Promise.all(capturedPromises) *)
| WValue.                                     (* await of a value that is no promise *)

Definition Ans (w : Wait) : Type :=
  match w with
  | WCreate _ => TransitionResult
  | _ => unit
  end.

Abbreviation NavM := (Async World Ans).

Definition ret {A : Type} (a : A) : NavM A := Done a.
Definition get {A : Type} (f : World -> A) : NavM A := Get (fun w => Done (f w)).
Definition modify (f : World -> World) : NavM unit := Modify f (Done tt).
Definition when (b : bool) (p : NavM unit) : NavM unit := if b then p else ret tt.

(** An await that can be fulfilled only. *)
Definition await_tick (w : Wait) : NavM unit := Await w (fun _ => Done tt).

(** ** The object stores *)

Definition the_array (l : loc) (w : World) : list AppHistoryEntry :=
  default [] (arrays (store w) !! l).

Definition the_set (l : loc) (w : World) : list AppHistoryEntry :=
  default [] (sets (store w) !! l).

(** [this.#entries] and [this.#known], read through the store. *)
Definition the_entries (w : World) : list AppHistoryEntry := the_array (entries_ w) w.
Definition the_known (w : World) : list AppHistoryEntry := the_set (known_ w) w.

(** [new Array(...)], [new Set(...)], [new AbortController()]: the new object
    gets the next free location. *)
Definition new_array (contents : list AppHistoryEntry) : NavM loc :=
  Get (fun w =>
    let l := length (arrays (store w)) in
    Modify (fun w => set_store (set_arrays (arrays (store w) ++ [contents]) (store w)) w)
      (Done l)).

(** [this.#known = new Set(...)] and [this.#entries = array] for an array
    that is new: the object is stored and the field points to it. *)
Definition assign_known (contents : World -> list AppHistoryEntry) : NavM unit :=
  modify (fun w =>
    set_known_ (length (sets (store w)))
      (set_store (set_sets (sets (store w) ++ [contents w]) (store w)) w)).

Definition assign_entries (contents : list AppHistoryEntry) : NavM unit :=
  modify (fun w =>
    set_entries_ (length (arrays (store w)))
      (set_store (set_arrays (arrays (store w) ++ [contents]) (store w)) w)).

(** A controller comes with the (empty) [promises] array of the run that
    makes it. *)
Definition new_AbortController : NavM nat :=
  Get (fun w =>
    let c := length (controllers (store w)) in
    Modify (fun w => set_store (set_subops (subops (store w) ++ [[]])
                                (set_controllers (controllers (store w) ++ [false]) (store w))) w)
      (Done c)).

Definition new_AppHistoryTransition (init : Transition) : NavM nat :=
  Get (fun w =>
    let t := length (transitions (store w)) in
    Modify (fun w => set_store (set_transitions (transitions (store w) ++ [init]) (store w)) w)
      (Done t)).

(** [abortController.signal.aborted] *)
Definition aborted (c : nat) (w : World) : bool :=
  default false (controllers (store w) !! c).

(** [abortController.abort()] *)
Definition abort (c : nat) (w : World) : World :=
  set_store (set_controllers (<[c := true]> (controllers (store w))) (store w)) w.

(** The [promises] variable of the run whose controller is [c]. *)
Definition promises (c : nat) (w : World) : list SubOp :=
  default [] (subops (store w) !! c).

Definition set_promises (c : nat) (ps : list SubOp) (w : World) : World :=
  set_store (set_subops (<[c := ps]> (subops (store w))) (store w)) w.

Definition add_log (i : LogItem) (w : World) : World := set_log (log w ++ [i]) w.

(** JavaScript's [array[i]] for a number [i]: [undefined] outside the array. *)
Definition at_index {A : Type} (l : list A) (i : Z) : option A :=
  if i <? 0 then None else l !! Z.to_nat i.

(** [Set.prototype.add]: membership is the identity of the object. *)
Definition has_id (i : nat) (l : list AppHistoryEntry) : bool :=
  existsb (fun e => Nat.eqb (entry_id e) i) l.

Definition set_add (s : list AppHistoryEntry) (e : AppHistoryEntry) : list AppHistoryEntry :=
  if has_id (entry_id e) s then s else s ++ [e].

(** [new Set([...a, ...b])] *)
Definition set_union (a b : list AppHistoryEntry) : list AppHistoryEntry :=
  fold_left set_add (a ++ b) [].

(** [array.findIndex(entry => entry.key === key) !== -1] *)
Definition has_key (k : nat) (l : list AppHistoryEntry) : bool :=
  existsb (fun e => Nat.eqb (entry_key e) k) l.

(** ** Entries *)

Record AppHistoryEntryInit : Type := mkInit {
  init_key : option nat;
  init_url : option string;
  init_sameDocument : option bool;
  init_state : option string
}.

(** [#createAppHistoryEntry].  Modelled from the spec: the constructor of
    [AppHistoryEntry] gives the entry a fresh [id], keeps the [key] of the
    init when there is one and makes a fresh one otherwise. *)
Definition createAppHistoryEntry (init : AppHistoryEntryInit) : NavM AppHistoryEntry :=
  Get (fun w =>
    let n := nextId w in
    Modify (set_nextId (Datatypes.S n))
      (Done {| entry_id := n;
               entry_key := default n (init_key init);
               entry_url := init_url init;
               entry_sameDocument := default true (init_sameDocument init);
               entry_state := init_state init |})).

(** [#cloneAppHistoryEntry]: the init spreads the entry, and takes the state
    of the options when they have one. *)
Definition cloneAppHistoryEntry (entry : option AppHistoryEntry) (options : option Options)
  : NavM AppHistoryEntry :=
  createAppHistoryEntry
    {| init_key := entry_key <$> entry;
       init_url := entry ≫= entry_url;
       init_sameDocument := entry_sameDocument <$> entry;
       init_state := match options ≫= opt_state with
                     | Some st => Some st
                     | None => entry ≫= entry_state
                     end |}.

(** ** The getters *)

Definition canGoBack (w : World) : bool :=
  if currentIndex w =? 0 then false
  else bool_decide (is_Some (at_index (the_entries w) (currentIndex w - 1))).

Definition canGoForward (w : World) : bool :=
  if currentIndex w =? -1 then false
  else if currentIndex w =? Z.of_nat (length (the_entries w)) - 1 then false
  else bool_decide (is_Some (at_index (the_entries w) (currentIndex w + 1))).

Definition current (w : World) : option AppHistoryEntry :=
  if currentIndex w =? -1 then None
  else at_index (the_entries w) (currentIndex w).

(** [get transition()] *)
Definition get_transition (w : World) : option nat := activeTransition w.

(** ** Accepting a request *)

(** The [finished] of an [AppHistoryResult]: one of the promises of the
    chain, or the promise of a direct call of [#transition]. *)
Inductive FinishedPromise : Type :=
| ChainPromise (p : nat)
| CallPromise (state : Settled AppHistoryEntry).

Record AppHistoryResult : Type := mkAppHistoryResult {
  committed : Settled AppHistoryEntry;
  finished : FinishedPromise
}.

(** [#createRollback]: the closure keeps the current entry, a copy of the
    entries, the index, and the set [#known] itself. *)
Definition createRollback (fn : RollbackFn) (transition : option nat) : NavM RollbackClosure :=
  current ← get current;
  entries ← get the_entries;
  previousEntries ← new_array entries;
  previousIndex ← get currentIndex;
  known ← get known_;
  ret {| rb_fn := fn; rb_transition := transition; rb_current := current;
         rb_previousEntries := previousEntries; rb_previousIndex := previousIndex;
         rb_known := known |}.

(** [#queueTransition] *)
Definition queueTransition (transition : nat) : NavM unit :=
  modify (fun w => set_knownTransitions (knownTransitions w ++ [transition]) w).

(** The string a transition shows as its kind:
    [typeof givenNavigationType === "string" ? givenNavigationType : "replace"] *)
Definition shown_kind (t : InternalAppHistoryNavigationType) : AppHistoryNavigationType :=
  match t with Str k => k | _ => KReplace end.

(** [#commitTransition]: chains a new [finished] promise on
    [this.#activePromise ?? Promise.resolve(entry)], makes the transition,
    aborts the controller in progress unless the kind is [UpdateCurrent], and
    returns [{ committed: Promise.resolve(entry), finished }]. *)
Definition commitTransition (givenNavigationType : InternalAppHistoryNavigationType)
    (entry : AppHistoryEntry) (transition : option nat) (options : option Options)
  : NavM AppHistoryResult :=
  source ← get activePromise;
  finished ← get (fun w => length (chain w));
  modify (fun w => set_chain (chain w ++
            [{| l_source := source; l_navigationType := givenNavigationType;
                l_entry := entry; l_nextTransition := transition;
                l_options := options; l_state := Queued |}]) w);;
  modify (set_activePromise (Some finished));;
  rollback ← createRollback ViaPushEntry None;
  nextTransition ← new_AppHistoryTransition
    {| t_from := entry; t_navigationType := shown_kind givenNavigationType;
       t_rollback := rollback |};
  modify (fun w => set_chain (alter (set_l_nextTransition (Some nextTransition)) finished (chain w)) w);;
  queueTransition nextTransition;;
  when (negb (is_UpdateCurrent givenNavigationType))
    (controller ← get inProgressAbortController;
     match controller with
     | Some c => modify (abort c)
     | None => ret tt
     end);;
  ret {| committed := Fulfilled entry; finished := ChainPromise finished |}.

(** [#pushEntry] *)
Definition pushEntry (navigationType : InternalAppHistoryNavigationType)
    (entry : AppHistoryEntry) (transition : option nat) (options : option Options)
  : NavM AppHistoryResult :=
  current ← get current;
  if bool_decide (entry_id <$> current = Some (entry_id entry))
  then Throw (InvalidStateError EmptyString)
  else
    entries ← get the_entries;
    if has_id (entry_id entry) entries
    then Throw (InvalidStateError EmptyString)
    else commitTransition navigationType entry transition options.

(** ** The public operations *)

Definition back (options : option Options) : NavM AppHistoryResult :=
  can ← get canGoBack;
  if negb can then Throw (InvalidStateError "Cannot go back")
  else
    entry ← get (fun w => at_index (the_entries w) (currentIndex w - 1));
    clone ← cloneAppHistoryEntry entry options;
    pushEntry (Str KTraverse) clone None None.

(** [entries()]: [return [...this.#entries]] *)
Definition entries : NavM loc :=
  contents ← get the_entries;
  new_array contents.

Definition forward (options : option Options) : NavM AppHistoryResult :=
  can ← get canGoForward;
  if negb can then Throw (InvalidStateError EmptyString)
  else
    entry ← get (fun w => at_index (the_entries w) (currentIndex w + 1));
    clone ← cloneAppHistoryEntry entry options;
    pushEntry (Str KTraverse) clone None None.

Definition goTo (key : nat) (options : option Options) : NavM AppHistoryResult :=
  found ← get (fun w => List.find (fun entry => Nat.eqb (entry_key entry) key) (the_entries w));
  match found with
  | Some found =>
      clone ← cloneAppHistoryEntry (Some found) options;
      pushEntry (Str KTraverse) clone None None
  | None => Throw (InvalidStateError EmptyString)
  end.

Definition navigate (url : string) (options : option Options) : NavM AppHistoryResult :=
  let navigationType :=
    if default false (opt_replace <$> options) then KReplace else KPush in
  entry ← createAppHistoryEntry
    {| init_key := None; init_url := Some url; init_sameDocument := None;
       init_state := options ≫= opt_state |};
  pushEntry (Str navigationType) entry None options.

Definition reload (options : option Options) : NavM AppHistoryResult :=
  current ← get current;
  match current with
  | None => Throw (InvalidStateError EmptyString)
  | Some current =>
      entry ← cloneAppHistoryEntry (Some current) options;
      pushEntry (Str KReload) entry None options
  end.

Definition updateCurrent (options : Options) : NavM AppHistoryResult :=
  current ← get current;
  entry ← cloneAppHistoryEntry current (Some options);
  pushEntry UpdateCurrent entry None (Some options).

(** ** The rollback closure *)

(** What [fn] returns: an [AppHistoryResult] ([#pushEntry]) or a promise
    ([#transition]). *)
Definition FnResult : Type := (AppHistoryResult + Settled AppHistoryEntry)%type.

(** The function [#createRollback] returns, called with [options].  [fn] is
    the function the closure was made with. *)
Definition call_rollback
    (fn : InternalAppHistoryNavigationType -> AppHistoryEntry -> option nat ->
          option Options -> NavM FnResult)
    (rb : RollbackClosure) (options : option Options) : NavM AppHistoryResult :=
  entry ← match rb_current rb with
          | Some current => Some <$> cloneAppHistoryEntry (Some current) options
          | None => ret None
          end;
  let nextOptions :=
    {| opt_state := options ≫= opt_state;
       opt_replace := default false (opt_replace <$> options);
       opt_index := Some (rb_previousIndex rb);
       opt_known := Some (rb_known rb);
       opt_entries := Some (rb_previousEntries rb) |} in
  let resolvedNavigationType :=
    match entry with Some _ => Rollback | None => Unset end in
  resolvedEntry ← match entry with
                  | Some entry => ret entry
                  | None => createAppHistoryEntry
                              {| init_key := None; init_url := None;
                                 init_sameDocument := Some true;
                                 init_state := options ≫= opt_state |}
                  end;
  result ← fn resolvedNavigationType resolvedEntry (rb_transition rb) (Some nextOptions);
  match result with
  | inr promise =>   (* "then" in result *)
      ret {| committed := Fulfilled resolvedEntry; finished := CallPromise promise |}
  | inl result => ret result
  end.

(** The [transitionWhile] of the run whose abort controller is
    [abortController]. *)
Definition transitionWhile (abortController : nat) (newNavigationAction : SubOp) : NavM unit :=
  isAborted ← get (aborted abortController);
  if (isAborted : bool) then Throw (InvalidStateError "Event has already finished processing")
  else
    modify (fun w => set_promises abortController
                       (promises abortController w ++ [newNavigationAction]) w);;
    modify (add_log (Registered abortController newNavigationAction)).

(** ** The transition protocol *)

(** [await target.dispatchEvent(event)]: the call is logged; the awaited
    promise is rejected when a listener fails. *)
Definition dispatchEvent (target : Target) (event : Event) : NavM unit :=
  Modify (add_log (Dispatched target event))
    (Await (WDispatch target event)
       (fun r => match r with inl e => Throw e | inr _ => Done tt end)).

(** [for (const x of xs) { body }] *)
Definition for_of {A : Type} (xs : list A) (body : A -> NavM unit) : NavM unit :=
  fold_right (fun x rest => body x;; rest) (ret tt) xs.

(** [this.#known.delete(known)]: the set object is changed in place. *)
Definition known_delete (known : AppHistoryEntry) (w : World) : World :=
  set_store
    (set_sets (<[known_ w :=
                 List.filter (fun e => negb (Nat.eqb (entry_id e) (entry_id known))) (the_known w)]>
               (sets (store w))) (store w)) w.

(** The body of the loop of [#dispose]. *)
Definition dispose_body (known : AppHistoryEntry) : NavM unit :=
  entries ← get the_entries;
  if has_key (entry_key known) entries
  then ret tt                               (* Still in use *)
  else
    modify (known_delete known);;
    dispatchEvent (OnEntry known) (dispose_event known);;
    dispatchEvent OnNavigator (dispose_event known).

(** [#dispose].  The loop visits the members the set has when it starts:
    nothing adds to a [Set] object of the Navigator after it was built. *)
Definition dispose : NavM unit :=
  members ← get the_known;
  for_of members dispose_body.

(** [if (abortController.signal.aborted) throw new InvalidStateError("Aborted")] *)
Definition check_aborted (abortController : nat) : NavM unit :=
  isAborted ← get (aborted abortController);
  if (isAborted : bool) then Throw (InvalidStateError "Aborted") else ret tt.

(** [if (promises.length) { const capturedPromises = promises; promises = [];
    await Promise.all(capturedPromises) }] *)
Definition await_captured (abortController : nat) : NavM unit :=
  capturedPromises ← get (promises abortController);
  match capturedPromises with
  | [] => ret tt
  | _ :: _ =>
      modify (set_promises abortController []);;
      Await (WAll capturedPromises)
        (fun r => match r with
                  | inl e => Throw e
                  | inr _ => modify (add_log (AwaitedAll capturedPromises))
                  end)
  end.

(** The first branch of [completeTransition]: the kind is [Unset] and the
    options carry an index and entries. *)
Definition restore_path (entry : AppHistoryEntry) (options : option Options)
    (index : Z) (entries : loc) : NavM AppHistoryEntry :=
  modify (set_entries_ entries);;
  modify (set_currentIndex index);;
  match options ≫= opt_known with
  | Some known => assign_known (fun w => set_union (the_known w) (the_set known w))
  | None => ret tt
  end;;
  modify (add_log Restored);;
  ret entry.

(** The rest of [completeTransition]. *)
Definition commit_path (navigationType : InternalAppHistoryNavigationType)
    (entry : AppHistoryEntry) (options : option Options)
    (current : option AppHistoryEntry) (abortController currentTransition : nat)
  : NavM AppHistoryEntry :=
  input ← get (fun w =>
    {| ci_current := current; ci_currentIndex := currentIndex w;
       ci_abortController := abortController; ci_entries := the_entries w;
       ci_entry := entry; ci_options := options;
       ci_navigationType := navigationType; ci_transition := currentTransition;
       ci_known := the_known w |});
  transitionResult ← Await (WCreate input)
    (fun r => match r with inl e => Throw e | inr result => Done result end);
  check_aborted abortController;;
  when (is_string navigationType) (modify (set_activeTransition (Some currentTransition)));;
  when (is_string navigationType || is_Rollback navigationType)
    match current with
    | Some current => dispatchEvent (OnEntry current) navigatefrom
    | None => await_tick WValue
    end;;
  when (is_string navigationType) (dispatchEvent OnNavigator navigate_event);;
  check_aborted abortController;;
  assign_known (fun w => set_union (the_known w) (r_known transitionResult));;
  assign_entries (r_entries transitionResult);;
  modify (set_currentIndex (r_index transitionResult));;
  modify (add_log Mutated);;
  when (entry_sameDocument entry) (dispatchEvent OnNavigator currentchange);;
  when (is_string navigationType) (dispatchEvent (OnEntry entry) navigateto);;
  dispose;;
  registered ← get (promises abortController);
  when (bool_decide (registered = [])) (await_tick WMicrotask);;
  await_captured abortController;;
  when (is_string navigationType) (dispatchEvent (OnEntry entry) finish);;
  when (is_string navigationType) (dispatchEvent OnNavigator navigatesuccess);;
  (* If we have more length here, we have added more transition *)
  await_captured abortController;;
  ret entry.

(** [completeTransition], the closure of [#transition]. *)
Definition completeTransition (givenNavigationType : InternalAppHistoryNavigationType)
    (entry : AppHistoryEntry) (options : option Options)
    (current : option AppHistoryEntry) (abortController currentTransition : nat)
  : NavM AppHistoryEntry :=
  match is_Unset givenNavigationType, options ≫= opt_index, options ≫= opt_entries with
  | true, Some index, Some entries => restore_path entry options index entries
  | _, _, _ =>
      commit_path givenNavigationType entry options current abortController currentTransition
  end.

(** The [catch] block of [#transition]; [rollbackImmediately] is the call
    [rollbackImmediately()]. *)
Definition catch_block (navigationType : InternalAppHistoryNavigationType)
    (rollbackImmediately : NavM AppHistoryResult) (error : Error) : NavM AppHistoryEntry :=
  when (negb (isInvalidStateError error)
        && (is_string navigationType || is_Rollback navigationType))
    (when (negb (is_Rollback navigationType))
       (modify (add_log RollbackInvoked);;
        rollbackImmediately;; await_tick WValue);;
     dispatchEvent OnNavigator (navigateerror error));;
  Throw error.

(** The [finally] block of [#transition]. *)
Definition finally_block (currentTransition : nat) : NavM unit :=
  dispose;;
  active ← get activeTransition;
  when (bool_decide (active = Some currentTransition))
    (modify (set_activeTransition None)).

(** [#transition].  [depth] bounds the calls of [#transition] from inside
    [#transition]: the closure [rollbackImmediately] is made with
    [this.#transition] itself. *)
Fixpoint transition_ (depth : nat) (givenNavigationType : InternalAppHistoryNavigationType)
    (entry : AppHistoryEntry) (transition : option nat) (options : option Options)
  : NavM AppHistoryEntry :=
  match transition with
  | None => Throw (InvalidStateError "Expected transition")
  | Some transition =>
      match depth with
      | O => Throw (OtherError "out of fuel")
      | Datatypes.S depth =>
          let navigationType := givenNavigationType in
          await_tick WPerformance;;
          current ← get current;
          abortController ← new_AbortController;
          modify (set_inProgressAbortController (Some abortController));;
          rollbackImmediately ← createRollback ViaTransition None;
          rollback ← createRollback ViaPushEntry None;
          given ← get (fun w => transitions (store w) !! transition);
          currentTransition ← new_AppHistoryTransition
            {| t_from := default entry (t_from <$> given);
               t_navigationType := default (shown_kind navigationType) (t_navigationType <$> given);
               t_rollback := rollback |};
          try_finally
            (try_catch
               (completeTransition givenNavigationType entry options current
                  abortController currentTransition)
               (catch_block navigationType
                  (call_rollback
                     (fun ty e tr o => inr <$> spawn (transition_ depth ty e tr o))
                     rollbackImmediately None)))
            (finally_block currentTransition)
      end
  end.

(** One level of nesting is all a run uses. *)
Definition transition (givenNavigationType : InternalAppHistoryNavigationType)
    (entry : AppHistoryEntry) (transition : option nat) (options : option Options)
  : NavM AppHistoryEntry :=
  transition_ 1 givenNavigationType entry transition options.

(** The closure [rb], called: [fn] is [#pushEntry] or [#transition]. *)
Definition call_closure (rb : RollbackClosure) (options : option Options)
  : NavM AppHistoryResult :=
  match rb_fn rb with
  | ViaPushEntry => call_rollback (fun ty e tr o => inl <$> pushEntry ty e tr o) rb options
  | ViaTransition =>
      call_rollback (fun ty e tr o => inr <$> spawn (AppHistory.transition ty e tr o)) rb options
  end.

(** [transition.rollback(options)] on the transition [t].  Modelled from the
    spec: the method of [AppHistoryTransition] calls the rollback callback
    the transition carries. *)
Definition transition_rollback (t : nat) (options : option Options) : NavM AppHistoryResult :=
  found ← get (fun w => transitions (store w) !! t);
  match found with
  | Some tr => call_closure (t_rollback tr) options
  | None => Throw (OtherError "no such transition")
  end.

(** [#immediateTransition] *)
Definition immediateTransition (givenNavigationType : InternalAppHistoryNavigationType)
    (entry : AppHistoryEntry) (transition : nat) (options : option Options)
  : NavM AppHistoryEntry :=
  try_finally
    (modify (fun w => set_transitionInProgressCount (transitionInProgressCount w + 1) w);;
     count ← get transitionInProgressCount;
     if 1 <? count
     then modify (add_log MultipleTransitions);;
          Throw (InvalidStateError "Unexpected multiple transitions")
     else AppHistory.transition givenNavigationType entry (Some transition) options)
    (modify (fun w => set_transitionInProgressCount (transitionInProgressCount w - 1) w)).

(** The callback [#commitTransition] chains: the [then] callback of the
    promise [finished]. *)
Definition finished_callback (l : Link) : NavM AppHistoryEntry :=
  match l_nextTransition l with
  | None => Throw (InvalidStateError "Expected transition to be available")
  | Some nextTransition =>
      immediateTransition (l_navigationType l) (l_entry l) nextTransition (l_options l)
  end.

(** ** The environment *)

(** What other code can do to the Navigator while a transition is suspended
    (a listener that runs during a [dispatchEvent], a task that runs during
    any other [await]): call a public operation, call the [rollback] of a
    transition, or call the [transitionWhile] of a run. *)
Inductive Call : Type :=
| call_navigate (url : string) (options : option Options)
| call_back (options : option Options)
| call_forward (options : option Options)
| call_goTo (key : nat) (options : option Options)
| call_reload (options : option Options)
| call_updateCurrent (options : Options)
| call_entries
| call_transition_rollback (t : nat) (options : option Options)
| call_transitionWhile (abortController : nat) (newNavigationAction : SubOp).

(** The state after a synchronous call, whether it returned or threw. *)
Definition after {A : Type} (p : NavM A) (w : World) : World :=
  match run_sync p w with
  | Some (w', _) => w'
  | None => w
  end.

Definition perform (c : Call) (w : World) : World :=
  match c with
  | call_navigate url options => after (navigate url options) w
  | call_back options => after (back options) w
  | call_forward options => after (forward options) w
  | call_goTo key options => after (goTo key options) w
  | call_reload options => after (reload options) w
  | call_updateCurrent options => after (updateCurrent options) w
  | call_entries => after entries w
  | call_transition_rollback t options => after (transition_rollback t options) w
  | call_transitionWhile c p =>
      (* the closure exists once its run has made the controller *)
      if bool_decide (c < length (controllers (store w)))%nat
      then after (transitionWhile c p) w
      else w
  end.

Abbreviation NavOracle := (Oracle Ans Call).

(** A run of a Navigator function to completion. *)
Definition run {A : Type} (p : NavM A) (o : NavOracle) (w : World) : World * (Error + A) :=
  exec perform p o 0 w.

(** The Navigator as constructed: no entry, index [-1], an empty array and
    an empty set. *)
Definition initial : World :=
  {| transitionInProgressCount := 0;
     entries_ := 0%nat;
     known_ := 0%nat;
     currentIndex := -1;
     activePromise := None;
     activeTransition := None;
     inProgressAbortController := None;
     knownTransitions := [];
     store := {| arrays := [[]]; sets := [[]]; controllers := []; subops := [];
                 transitions := [] |};
     chain := [];
     nextId := 0;
     log := [] |}.

(** An environment that does nothing and fulfils every promise;
    [createAppHistoryTransition] answers with [result]. *)
Definition fulfil (w : Wait) (result : CreateInput -> TransitionResult) : Error + Ans w :=
  match w as w0 return Error + Ans w0 with
  | WCreate input => inr (result input)
  | WPerformance | WDispatch _ _ | WMicrotask | WAll _ | WValue => inr tt
  end.

Definition quiet_reaction (result : CreateInput -> TransitionResult) (w : Wait)
  : Reaction Ans Call w :=
  {| acts := []; answer := fulfil w result |}.

(** A [createAppHistoryTransition] for the examples: a push appends the
    entry after the current one, any other kind puts it at the current
    index; the entry becomes known. *)
Definition sample_create (input : CreateInput) : TransitionResult :=
  match ci_navigationType input with
  | Str KPush =>
      {| r_known := [ci_entry input];
         r_entries := take (Z.to_nat (ci_currentIndex input + 1)) (ci_entries input)
                      ++ [ci_entry input];
         r_index := ci_currentIndex input + 1 |}
  | _ =>
      {| r_known := [ci_entry input];
         r_entries := <[Z.to_nat (ci_currentIndex input) := ci_entry input]> (ci_entries input);
         r_index := ci_currentIndex input |}
  end.

(** ** Facts about the synchronous operations *)

Lemma sync_bind {A B : Type} (p : NavM A) (f : A -> NavM B) (w : World) :
  run_sync (p ≫= f) w =
  match run_sync p w with
  | Some (w', inr a) => run_sync (f a) w'
  | Some (w', inl e) => Some (w', inl e)
  | None => None
  end.
Proof. apply run_sync_mbind. Qed.

Lemma sync_fmap {A B : Type} (p : NavM A) (f : A -> B) (w : World) :
  run_sync (f <$> p) w =
  match run_sync p w with
  | Some (w', inr a) => Some (w', inr (f a))
  | Some (w', inl e) => Some (w', inl e)
  | None => None
  end.
Proof. apply run_sync_fmap. Qed.

Lemma at_index_elem {A : Type} (l : list A) (i : Z) (x : A) :
  at_index l i = Some x -> x ∈ l.
Proof.
  unfold at_index. destruct (i <? 0); [discriminate|].
  intros H. eapply list_elem_of_lookup_2, H.
Qed.

Lemma has_id_elem (e : AppHistoryEntry) (l : list AppHistoryEntry) :
  e ∈ l -> has_id (entry_id e) l = true.
Proof.
  intros H. unfold has_id. apply existsb_exists. exists e. split.
  - by apply list_elem_of_In.
  - apply Nat.eqb_refl.
Qed.

(** No entry of [l] has an id from [n] on. *)
Definition ids_below (n : nat) (l : list AppHistoryEntry) : Prop :=
  Forall (fun e => (entry_id e < n)%nat) l.

Lemma ids_below_fresh (n : nat) (l : list AppHistoryEntry) :
  ids_below n l -> has_id n l = false.
Proof.
  intros H. unfold has_id. apply not_true_is_false. intros Hex.
  apply existsb_exists in Hex as (e & Hin & Heq).
  apply Nat.eqb_eq in Heq. unfold ids_below in H. rewrite Forall_forall in H.
  apply list_elem_of_In in Hin. specialize (H e Hin). lia.
Qed.

(** The pointers of the Navigator are locations of the store. *)
Definition store_ok (w : World) : Prop :=
  (entries_ w < length (arrays (store w)))%nat /\
  (known_ w < length (sets (store w)))%nat.

(** The link [#commitTransition] appends to the chain. *)
Definition committed_link (ty : InternalAppHistoryNavigationType) (e : AppHistoryEntry)
    (tr : option nat) (o : option Options) (w : World) : Link :=
  {| l_source := activePromise w; l_navigationType := ty; l_entry := e;
     l_nextTransition := tr; l_options := o; l_state := Queued |}.

(** The state [#commitTransition] leaves, field by field. *)
Definition committed_state (ty : InternalAppHistoryNavigationType) (e : AppHistoryEntry)
    (tr : option nat) (o : option Options) (w : World) : World :=
  {| transitionInProgressCount := transitionInProgressCount w;
     entries_ := entries_ w;
     known_ := known_ w;
     currentIndex := currentIndex w;
     activePromise := Some (length (chain w));
     activeTransition := activeTransition w;
     inProgressAbortController := inProgressAbortController w;
     knownTransitions := knownTransitions w ++ [length (transitions (store w))];
     store :=
       {| arrays := arrays (store w) ++ [the_entries w];
          sets := sets (store w);
          controllers :=
            match is_UpdateCurrent ty, inProgressAbortController w with
            | false, Some c => <[c := true]> (controllers (store w))
            | _, _ => controllers (store w)
            end;
          subops := subops (store w);
          transitions := transitions (store w) ++
            [{| t_from := e; t_navigationType := shown_kind ty;
                t_rollback :=
                  {| rb_fn := ViaPushEntry; rb_transition := None;
                     rb_current := current w;
                     rb_previousEntries := length (arrays (store w));
                     rb_previousIndex := currentIndex w;
                     rb_known := known_ w |} |}] |};
     chain := alter (set_l_nextTransition (Some (length (transitions (store w)))))
                (length (chain w)) (chain w ++ [committed_link ty e tr o w]);
     nextId := nextId w;
     log := log w |}.

(** [#commitTransition] returns: it never throws, and the promise
    [committed] it returns is fulfilled with the entry. *)
Lemma commitTransition_returns ty e tr o w :
  run_sync (commitTransition ty e tr o) w =
  Some (committed_state ty e tr o w,
        inr {| committed := Fulfilled e; finished := ChainPromise (length (chain w)) |}).
Proof.
  destruct w as [count es ks index ap at_ [c|] kt [ar se co su trs] ch next lg];
    destruct ty; vm_compute; reflexivity.
Qed.

Lemma pushEntry_throws ty e tr o w :
  has_id (entry_id e) (the_entries w) = true ->
  run_sync (pushEntry ty e tr o) w = Some (w, inl (InvalidStateError EmptyString)).
Proof.
  intros H. unfold pushEntry.
  rewrite sync_bind. cbn -[commitTransition].
  destruct (bool_decide _); [reflexivity|].
  cbn -[commitTransition]. rewrite H. reflexivity.
Qed.

Lemma pushEntry_accepts ty e tr o w :
  has_id (entry_id e) (the_entries w) = false ->
  run_sync (pushEntry ty e tr o) w = run_sync (commitTransition ty e tr o) w.
Proof.
  intros H. unfold pushEntry.
  rewrite sync_bind. cbn -[commitTransition].
  destruct (bool_decide _) eqn:Hc.
  - apply bool_decide_eq_true in Hc.
    destruct (current w) as [c|] eqn:Ec; [|discriminate].
    injection Hc as Hc. unfold current in Ec.
    destruct (currentIndex w =? -1); [discriminate|].
    apply at_index_elem, has_id_elem in Ec. congruence.
  - cbn -[commitTransition]. rewrite H. reflexivity.
Qed.

Lemma createAppHistoryEntry_sync init w :
  run_sync (createAppHistoryEntry init) w =
  Some (set_nextId (S (nextId w)) w,
        inr {| entry_id := nextId w;
               entry_key := default (nextId w) (init_key init);
               entry_url := init_url init;
               entry_sameDocument := default true (init_sameDocument init);
               entry_state := init_state init |}).
Proof. reflexivity. Qed.



(** ** Synchronous validation *)

(** The index is [-1] on an empty sequence and a position of the sequence
    otherwise (section 3 of the specification). *)
Definition index_ok (w : World) : Prop :=
  (currentIndex w = -1 /\ the_entries w = []) \/
  (0 <= currentIndex w < Z.of_nat (length (the_entries w))).

(** The call throws an [InvalidStateError] at once and leaves the Navigator
    as it was: no promise was made, nothing was queued. *)
Definition threw {A : Type} (p : NavM A) (w : World) : Prop :=
  exists message, run_sync p w = Some (w, inl (InvalidStateError message)).

(** The call returns its pair of promises. *)
Definition accepted (p : NavM AppHistoryResult) (w : World) : Prop :=
  exists w' r, run_sync p w = Some (w', inr r).

Lemma canGoBack_spec w :
  canGoBack w = bool_decide (is_Some (at_index (the_entries w) (currentIndex w - 1))).
Proof.
  unfold canGoBack. destruct (currentIndex w =? 0) eqn:E; [|reflexivity].
  apply Z.eqb_eq in E. rewrite E. symmetry. apply bool_decide_eq_false.
  unfold at_index. simpl. intros [x Hx]. discriminate.
Qed.

Lemma at_index_ge {A : Type} (l : list A) (i : Z) :
  Z.of_nat (length l) <= i -> at_index l i = None.
Proof.
  intros H. unfold at_index. destruct (i <? 0) eqn:E; [reflexivity|].
  apply lookup_ge_None. lia.
Qed.

Lemma canGoForward_spec w :
  index_ok w ->
  canGoForward w = bool_decide (is_Some (at_index (the_entries w) (currentIndex w + 1))).
Proof.
  intros Hok. unfold canGoForward.
  destruct (currentIndex w =? -1) eqn:E.
  - apply Z.eqb_eq in E. destruct Hok as [[_ Hnil]|Hr]; [|lia].
    rewrite Hnil, E. reflexivity.
  - destruct (currentIndex w =? Z.of_nat (length (the_entries w)) - 1) eqn:E2; [|reflexivity].
    apply Z.eqb_eq in E2. symmetry. apply bool_decide_eq_false.
    rewrite at_index_ge by lia. intros [x Hx]. discriminate.
Qed.

Lemma accepted_push ty e tr o w :
  has_id (entry_id e) (the_entries w) = false -> accepted (pushEntry ty e tr o) w.
Proof.
  intros H. unfold accepted. rewrite pushEntry_accepts by exact H.
  rewrite commitTransition_returns. eauto.
Qed.

(** A clone is a new entry: [#pushEntry] accepts it. *)
Lemma accepted_clone ty entry options tr o w :
  ids_below (nextId w) (the_entries w) ->
  accepted (clone ← cloneAppHistoryEntry entry options; pushEntry ty clone tr o) w.
Proof.
  intros Hids. unfold accepted. rewrite sync_bind.
  unfold cloneAppHistoryEntry. rewrite createAppHistoryEntry_sync.
  apply accepted_push. simpl. apply ids_below_fresh. exact Hids.
Qed.

Lemma find_key_none key l :
  has_key key l = false -> List.find (fun entry => Nat.eqb (entry_key entry) key) l = None.
Proof.
  induction l as [|e l IH]; simpl; [reflexivity|].
  destruct (Nat.eqb (entry_key e) key); simpl; [discriminate|]. exact IH.
Qed.

Lemma find_key_some key l :
  has_key key l = true ->
  exists e, List.find (fun entry => Nat.eqb (entry_key entry) key) l = Some e.
Proof.
  induction l as [|e l IH]; simpl; [discriminate|].
  destruct (Nat.eqb (entry_key e) key); simpl; eauto.
Qed.

(** C8.  [back], [forward], [goTo] and [reload] throw an [InvalidStateError]
    synchronously, with the Navigator unchanged (no promise has been made),
    when their precondition fails: no entry before the current index, no
    entry after it, no entry with the key, no current entry; they return
    their pair of promises when it holds.  [#pushEntry] throws an
    [InvalidStateError] synchronously for an entry whose id is already in the
    sequence, whatever the kind. *)
Theorem C8_synchronous_validation (w : World) (options : option Options) (key : nat) :
  ids_below (nextId w) (the_entries w) ->
  index_ok w ->
  ((at_index (the_entries w) (currentIndex w - 1) = None -> threw (back options) w) /\
   (is_Some (at_index (the_entries w) (currentIndex w - 1)) -> accepted (back options) w)) /\
  ((at_index (the_entries w) (currentIndex w + 1) = None -> threw (forward options) w) /\
   (is_Some (at_index (the_entries w) (currentIndex w + 1)) -> accepted (forward options) w)) /\
  ((has_key key (the_entries w) = false -> threw (goTo key options) w) /\
   (has_key key (the_entries w) = true -> accepted (goTo key options) w)) /\
  ((current w = None -> threw (reload options) w) /\
   (is_Some (current w) -> accepted (reload options) w)) /\
  (forall navigationType entry transition options',
     has_id (entry_id entry) (the_entries w) = true ->
     threw (pushEntry navigationType entry transition options') w).
Proof.
  intros Hids Hok. repeat split.
  - intros Hnone. exists "Cannot go back"%string. unfold back.
    rewrite sync_bind. cbn. rewrite canGoBack_spec, Hnone. reflexivity.
  - intros Hsome. unfold accepted, back. rewrite sync_bind.
    cbn -[cloneAppHistoryEntry pushEntry].
    rewrite canGoBack_spec, bool_decide_eq_true_2 by exact Hsome.
    cbn -[cloneAppHistoryEntry pushEntry].
    apply (accepted_clone _ _ _ _ _ _ Hids).
  - intros Hnone. exists EmptyString. unfold forward.
    rewrite sync_bind. cbn. rewrite canGoForward_spec, Hnone by exact Hok. reflexivity.
  - intros Hsome. unfold accepted, forward. rewrite sync_bind.
    cbn -[cloneAppHistoryEntry pushEntry].
    rewrite canGoForward_spec, bool_decide_eq_true_2 by assumption.
    cbn -[cloneAppHistoryEntry pushEntry].
    apply (accepted_clone _ _ _ _ _ _ Hids).
  - intros Hnone. exists EmptyString. unfold goTo.
    rewrite sync_bind. cbn. rewrite find_key_none by exact Hnone. reflexivity.
  - intros Hsome. apply find_key_some in Hsome as [e He].
    unfold accepted, goTo. rewrite sync_bind.
    cbn -[cloneAppHistoryEntry pushEntry]. rewrite He.
    apply (accepted_clone _ _ _ _ _ _ Hids).
  - intros Hnone. exists EmptyString. unfold reload.
    rewrite sync_bind. cbn. rewrite Hnone. reflexivity.
  - intros [c Hc]. unfold accepted, reload. rewrite sync_bind.
    cbn -[cloneAppHistoryEntry pushEntry]. rewrite Hc.
    apply (accepted_clone _ _ _ _ _ _ Hids).
  - intros ty e tr o' Hid. exists EmptyString. apply pushEntry_throws, Hid.
Qed.

(** ** What the environment can change

    [Registered] is the one log item calls from outside leave. *)
Definition by_environment (i : LogItem) : bool :=
  match i with Registered _ _ => true | _ => false end.

Definition engine_log (l : list LogItem) : list LogItem :=
  List.filter (fun i => negb (by_environment i)) l.

(** [Extends w w']: what calls of the public operations, of a rollback or
    of [transitionWhile] may have changed between [w] and [w']. *)
Record Extends (w w' : World) : Prop := mkExtends {
  ext_entries_ : entries_ w' = entries_ w;
  ext_known_ : known_ w' = known_ w;
  ext_currentIndex : currentIndex w' = currentIndex w;
  ext_count : transitionInProgressCount w' = transitionInProgressCount w;
  ext_controller : inProgressAbortController w' = inProgressAbortController w;
  ext_activeTransition : activeTransition w' = activeTransition w;
  ext_sets : sets (store w') = sets (store w);
  ext_arrays : arrays (store w) `prefix_of` arrays (store w');
  ext_controllers : length (controllers (store w')) = length (controllers (store w));
  ext_aborted : forall c, aborted c w = true -> aborted c w' = true;
  ext_subops : length (subops (store w')) = length (subops (store w));
  ext_promises : forall c, promises c w `prefix_of` promises c w';
  ext_engine_log : engine_log (log w') = engine_log (log w);
  ext_log : log w `prefix_of` log w'
}.

#[global] Instance Extends_refl : Reflexive Extends.
Proof. intros w. constructor; auto. Qed.

#[global] Instance Extends_trans : Transitive Extends.
Proof.
  intros a b c [] []. constructor; try congruence; auto.
  - etransitivity; eassumption.
  - intros c0. etransitivity; eauto.
  - etransitivity; eassumption.
Qed.

(** [Quiet w w']: the same, for calls other than [transitionWhile]: the log
    and the [promises] arrays are what they were. *)
Record Quiet (w w' : World) : Prop := mkQuiet {
  q_extends : Extends w w';
  q_subops : subops (store w') = subops (store w);
  q_log : log w' = log w
}.

#[global] Instance Quiet_refl : Reflexive Quiet.
Proof. intros w. constructor; auto. reflexivity. Qed.

#[global] Instance Quiet_trans : Transitive Quiet.
Proof.
  intros a b c [] []. constructor; try congruence. etransitivity; eassumption.
Qed.

Lemma aborted_abort c c' w : aborted c w = true -> aborted c (abort c' w) = true.
Proof.
  unfold aborted, abort. cbn. intros H.
  destruct (decide (c' = c)) as [->|Hne].
  - destruct (controllers (store w) !! c) eqn:E; [|discriminate].
    rewrite list_lookup_insert_eq; [reflexivity|]. eapply lookup_lt_Some, E.
  - rewrite list_lookup_insert_ne by exact Hne. exact H.
Qed.

Lemma promises_push c c0 p w :
  promises c0 w `prefix_of` promises c0 (set_promises c (promises c w ++ [p]) w).
Proof.
  unfold promises, set_promises. cbn.
  destruct (decide (c = c0)) as [->|Hne].
  - destruct (subops (store w) !! c0) eqn:E.
    + rewrite list_lookup_insert_eq by (eapply lookup_lt_Some, E).
      cbn. apply prefix_app_r. reflexivity.
    + rewrite list_insert_ge by (apply lookup_ge_None, E). rewrite E. reflexivity.
  - rewrite list_lookup_insert_ne by exact Hne. reflexivity.
Qed.

Lemma engine_log_app l1 l2 : engine_log (l1 ++ l2) = engine_log l1 ++ engine_log l2.
Proof. unfold engine_log. apply List.filter_app. Qed.

Ltac ext_step :=
  let s := fresh "s" in
  intros s; constructor; cbn;
  rewrite ?length_insert, ?length_app, ?engine_log_app, ?app_nil_r;
  first [ reflexivity
        | apply prefix_app_r; reflexivity
        | intros ?; apply aborted_abort
        | intros ?; apply promises_push
        | auto ].

Ltac quiet_step :=
  let s := fresh "s" in
  intros s; constructor; [revert s; ext_step|reflexivity|reflexivity].

Create HintDb keeps discriminated.

Ltac keeps_with step :=
  repeat first
    [ solve [auto with keeps nocore]
    | apply keeps_mbind; [|intros ?]
    | apply keeps_fmap
    | apply keeps_done | apply keeps_throw
    | apply keeps_get; intros ?
    | apply keeps_modify; [step|]
    | apply keeps_await; intros ?
    | match goal with |- Keeps _ (match ?x with _ => _ end) => destruct x end
    | progress unfold when, get, modify, ret, await_tick
    | progress cbn ].

Ltac keeps := keeps_with ltac:(idtac; quiet_step).

Lemma keeps_new_array c : Keeps Quiet (new_array c).
Proof. unfold new_array. keeps. Qed.
Lemma keeps_new_AppHistoryTransition c : Keeps Quiet (new_AppHistoryTransition c).
Proof. unfold new_AppHistoryTransition. keeps. Qed.
Lemma keeps_createAppHistoryEntry i : Keeps Quiet (createAppHistoryEntry i).
Proof. unfold createAppHistoryEntry. keeps. Qed.
#[local] Hint Resolve keeps_new_array keeps_new_AppHistoryTransition keeps_createAppHistoryEntry : keeps.
Lemma keeps_clone e o : Keeps Quiet (cloneAppHistoryEntry e o).
Proof. unfold cloneAppHistoryEntry. keeps. Qed.
Lemma keeps_createRollback f t : Keeps Quiet (createRollback f t).
Proof. unfold createRollback. keeps. Qed.
#[local] Hint Resolve keeps_clone keeps_createRollback : keeps.
Lemma keeps_commitTransition ty e tr o : Keeps Quiet (commitTransition ty e tr o).
Proof. unfold commitTransition, queueTransition. keeps. Qed.
#[local] Hint Resolve keeps_commitTransition : keeps.
Lemma keeps_pushEntry ty e tr o : Keeps Quiet (pushEntry ty e tr o).
Proof. unfold pushEntry. keeps. Qed.
#[local] Hint Resolve keeps_pushEntry : keeps.
Lemma keeps_back o : Keeps Quiet (back o).
Proof. unfold back. keeps. Qed.

Lemma spawn_transition d ty e tr o :
  spawn (transition_ d ty e tr o) =
  match tr, d with
  | None, _ => Done (Rejected (InvalidStateError "Expected transition"))
  | Some _, O => Done (Rejected (OtherError "out of fuel"))
  | Some _, Datatypes.S _ => Done Pending
  end.
Proof. destruct tr, d; reflexivity. Qed.

Lemma keeps_call_closure rb o : Keeps Quiet (call_closure rb o).
Proof.
  unfold call_closure, call_rollback, AppHistory.transition.
  destruct (rb_fn rb); [keeps|].
  apply keeps_mbind; [keeps|intros entry].
  apply keeps_mbind; [keeps|intros resolved].
  rewrite spawn_transition. keeps.
Qed.
#[local] Hint Resolve keeps_call_closure : keeps.
Lemma keeps_transition_rollback t o : Keeps Quiet (transition_rollback t o).
Proof. unfold transition_rollback. keeps. Qed.
Lemma keeps_forward o : Keeps Quiet (forward o).
Proof. unfold forward. keeps. Qed.
Lemma keeps_goTo k o : Keeps Quiet (goTo k o).
Proof. unfold goTo. keeps. Qed.
Lemma keeps_navigate u o : Keeps Quiet (navigate u o).
Proof. unfold navigate. keeps. Qed.
Lemma keeps_reload o : Keeps Quiet (reload o).
Proof. unfold reload. keeps. Qed.
Lemma keeps_updateCurrent o : Keeps Quiet (updateCurrent o).
Proof. unfold updateCurrent. keeps. Qed.
Lemma keeps_entries : Keeps Quiet entries.
Proof. unfold entries. keeps. Qed.

Lemma after_quiet {A : Type} (p : NavM A) w : Keeps Quiet p -> Quiet w (after p w).
Proof.
  intros Hp. unfold after. destruct (run_sync p w) as [[w' r]|] eqn:E; [|reflexivity].
  eapply keeps_run_sync; [apply _|apply _|exact Hp|exact E].
Qed.

(** The state after an accepted [transitionWhile]. *)
Definition registered (c : nat) (p : SubOp) (w : World) : World :=
  add_log (Registered c p) (set_promises c (promises c w ++ [p]) w).

Lemma after_transitionWhile c p w :
  after (transitionWhile c p) w = if aborted c w then w else registered c p w.
Proof.
  unfold after, transitionWhile. rewrite sync_bind. cbn.
  destruct (aborted c w); reflexivity.
Qed.

Lemma registered_extends c p w : Extends w (registered c p w).
Proof.
  unfold registered. constructor; cbn;
    rewrite ?length_insert, ?engine_log_app, ?app_nil_r; auto.
  - intros c0. apply promises_push.
  - apply prefix_app_r. reflexivity.
Qed.

(** A call from outside is quiet, or it is a [transitionWhile] that took a
    promise for an existing controller that is not aborted. *)
Lemma perform_cases a w :
  Quiet w (perform a w) \/
  exists c p, (c < length (controllers (store w)))%nat /\ aborted c w = false /\
              perform a w = registered c p w.
Proof.
  destruct a; unfold perform;
    try (left; apply after_quiet;
         auto using keeps_navigate, keeps_back, keeps_forward, keeps_goTo, keeps_reload,
           keeps_updateCurrent, keeps_entries, keeps_transition_rollback; fail).
  case_bool_decide; [|left; reflexivity].
  rewrite after_transitionWhile.
  destruct (aborted abortController w) eqn:E; [left; reflexivity|].
  right. eauto.
Qed.

Lemma perform_extends a w : Extends w (perform a w).
Proof.
  destruct (perform_cases a w) as [H|(c & p & _ & _ & ->)].
  - apply H.
  - apply registered_extends.
Qed.

Lemma during_extends (x : Wait) (rc : Reaction Ans Call x) (w : World) :
  Extends w (during perform rc w).
Proof.
  unfold during. revert w. induction (acts rc) as [|a l IH]; intros w; simpl.
  - reflexivity.
  - etransitivity; [apply perform_extends|apply IH].
Qed.

Lemma the_array_prefix (l : loc) (w w' : World) :
  (l < length (arrays (store w)))%nat ->
  arrays (store w) `prefix_of` arrays (store w') ->
  the_array l w' = the_array l w.
Proof.
  intros Hl [k Hk]. unfold the_array. rewrite Hk, lookup_app_l by exact Hl. reflexivity.
Qed.

Lemma extends_the_entries (w w' : World) :
  store_ok w -> Extends w w' -> the_entries w' = the_entries w.
Proof.
  intros [Hl _] H. unfold the_entries. rewrite (ext_entries_ _ _ H).
  apply the_array_prefix; [exact Hl|apply H].
Qed.

Lemma extends_the_known (w w' : World) :
  Extends w w' -> the_known w' = the_known w.
Proof.
  intros H. unfold the_known, the_set. rewrite (ext_known_ _ _ H), (ext_sets _ _ H). reflexivity.
Qed.

Lemma extends_store_ok (w w' : World) :
  store_ok w -> Extends w w' -> store_ok w'.
Proof.
  intros [Ha Hs] H. split.
  - rewrite (ext_entries_ _ _ H). destruct (ext_arrays _ _ H) as [k ->].
    rewrite length_app. lia.
  - rewrite (ext_known_ _ _ H), (ext_sets _ _ H). exact Hs.
Qed.

(** ** [entries()] *)

(** Any change made to the array at [l] by who holds it. *)
Definition write_array (l : loc) (contents : list AppHistoryEntry) (w : World) : World :=
  set_store (set_arrays (<[l := contents]> (arrays (store w))) (store w)) w.

(** C10.  [entries()] returns a new array with the entries of the sequence:
    the call changes no field of the Navigator (the store gains the new
    array and nothing else), and whatever is written to the returned array
    afterwards, the sequence, the index and the known set stay what they
    were. *)
Theorem C10_entries_returns_a_copy (w : World) (contents : list AppHistoryEntry) :
  store_ok w ->
  exists l w',
    run_sync entries w = Some (w', inr l) /\
    the_array l w' = the_entries w /\
    l <> entries_ w /\
    w' = set_store (set_arrays (arrays (store w) ++ [the_entries w]) (store w)) w /\
    (the_entries w' = the_entries w /\ the_known w' = the_known w /\
     currentIndex w' = currentIndex w) /\
    (let w'' := write_array l contents w' in
     the_entries w'' = the_entries w /\ the_known w'' = the_known w /\
     currentIndex w'' = currentIndex w /\ entries_ w'' = entries_ w /\
     known_ w'' = known_ w).
Proof.
  intros [Ha Hs].
  exists (length (arrays (store w))),
         (set_store (set_arrays (arrays (store w) ++ [the_entries w]) (store w)) w).
  assert (Hcopy : forall v : list AppHistoryEntry,
            default [] ((arrays (store w) ++ [v]) !! entries_ w) = the_entries w).
  { intros v. rewrite lookup_app_l by exact Ha. reflexivity. }
  repeat split.
  - unfold the_array. cbn. rewrite lookup_app_r by lia.
    rewrite Nat.sub_diag. reflexivity.
  - lia.
  - unfold the_entries, the_array. cbn. apply Hcopy.
  - unfold the_entries, the_array. cbn.
    rewrite list_lookup_insert_ne by lia. apply Hcopy.
Qed.

(** ** Cancellation of the transition in progress *)





(** ** The disposal sweep *)

Definition is_fulfilled {A : Type} (r : Error + A) : Prop :=
  match r with inr _ => True | inl _ => False end.

(** The environment delivers every [dispose] notification: no listener of
    [dispose] throws. *)
Definition quiet_dispose (x : Wait) (rc : Reaction Ans Call x) : Prop :=
  match x with
  | WDispatch _ (dispose_event _) => is_fulfilled (answer rc)
  | _ => True
  end.

(** The entry is still in use: its key is in the sequence. *)
Definition keep (w : World) (e : AppHistoryEntry) : bool :=
  has_key (entry_key e) (the_entries w).

(** What the sweep dispatches for an entry it removes. *)
Definition notifications (e : AppHistoryEntry) : list LogItem :=
  [Dispatched (OnEntry e) (dispose_event e); Dispatched OnNavigator (dispose_event e)].

(** A [Set] has each object once. *)
Definition unique_ids (l : list AppHistoryEntry) : Prop := NoDup (entry_id <$> l).

Lemma filter_other_id K e rest :
  unique_ids (K ++ e :: rest) ->
  List.filter (fun x => negb (Nat.eqb (entry_id x) (entry_id e))) (K ++ e :: rest) = K ++ rest.
Proof.
  unfold unique_ids. rewrite fmap_app, fmap_cons. intros H.
  apply NoDup_app in H as (HK & Hdisj & Hr).
  apply NoDup_cons in Hr as [Hnotin Hr].
  assert (Hkeep : forall l, entry_id e ∉ entry_id <$> l ->
            List.filter (fun x => negb (Nat.eqb (entry_id x) (entry_id e))) l = l).
  { induction l as [|x l IH]; intros Hl; simpl; [reflexivity|].
    rewrite fmap_cons in Hl. apply not_elem_of_cons in Hl as [Hne Hl].
    destruct (Nat.eqb_spec (entry_id x) (entry_id e)) as [Heq|_]; [congruence|].
    simpl. f_equal. apply IH, Hl. }
  rewrite List.filter_app. simpl. rewrite Nat.eqb_refl. simpl.
  rewrite !Hkeep; [reflexivity|exact Hnotin|].
  intros Hin. apply (Hdisj _ Hin). left.
Qed.

Lemma known_delete_spec e w :
  store_ok w ->
  the_known (known_delete e w) =
    List.filter (fun x => negb (Nat.eqb (entry_id x) (entry_id e))) (the_known w) /\
  the_entries (known_delete e w) = the_entries w /\
  store_ok (known_delete e w) /\ log (known_delete e w) = log w /\
  currentIndex (known_delete e w) = currentIndex w.
Proof.
  intros [Ha Hs]. unfold known_delete, the_known, the_set, the_entries, the_array, store_ok. cbn.
  rewrite list_lookup_insert_eq by exact Hs. cbn. rewrite length_insert. auto.
Qed.

Lemma add_log_spec i w :
  the_known (add_log i w) = the_known w /\ the_entries (add_log i w) = the_entries w /\
  (store_ok w -> store_ok (add_log i w)) /\ log (add_log i w) = log w ++ [i] /\
  currentIndex (add_log i w) = currentIndex w.
Proof. unfold store_ok. repeat split; try reflexivity; tauto. Qed.

Lemma wp_dispatch_dispose tgt e (Q : Error + unit -> World -> Prop) w :
  (forall w', Extends (add_log (Dispatched tgt (dispose_event e)) w) w' -> Q (inr tt) w') ->
  wp perform quiet_dispose (dispatchEvent tgt (dispose_event e)) Q w.
Proof.
  intros H. unfold dispatchEvent. cbn. intros rc Hq.
  destruct (answer rc) as [err|[]]; [destruct Hq|]. cbn.
  apply H, during_extends.
Qed.

Lemma extends_keep w w' : store_ok w -> Extends w w' -> forall e, keep w' e = keep w e.
Proof. intros Hok H e. unfold keep. rewrite (extends_the_entries _ _ Hok H). reflexivity. Qed.

Lemma sweep_spec rest : forall K w,
  store_ok w -> the_known w = K ++ rest -> unique_ids (K ++ rest) ->
  wp perform quiet_dispose (for_of rest dispose_body)
    (fun r w' =>
       r = inr tt /\ store_ok w' /\ the_entries w' = the_entries w /\
       currentIndex w' = currentIndex w /\
       the_known w' = K ++ List.filter (keep w) rest /\
       engine_log (log w') =
         engine_log (log w) ++ flat_map notifications (List.filter (fun e => negb (keep w e)) rest))
    w.
Proof.
  induction rest as [|e rest IH]; intros K w Hok Hknown Huniq.
  - cbn. rewrite !app_nil_r in *. destruct Hok. repeat split; auto.
  - unfold for_of. cbn [fold_right]. fold (for_of rest dispose_body).
    apply wp_mbind. unfold dispose_body at 1. cbn -[dispatchEvent].
    fold (keep w e). destruct (keep w e) eqn:Hkeep; cbn -[dispatchEvent].
    + eapply wp_mono; [|apply (IH (K ++ [e]) w Hok)].
      * intros r w' (-> & Hok' & He & Hi & Hk & Hl). rewrite <- app_assoc in Hk.
        cbn [app] in Hk. repeat split; try apply Hok'; auto.
      * rewrite <- app_assoc. exact Hknown.
      * rewrite <- app_assoc. exact Huniq.
    + destruct (known_delete_spec e w Hok) as (Hk1 & He1 & Hok1 & Hl1 & Hi1).
      rewrite Hknown, filter_other_id in Hk1 by exact Huniq.
      apply wp_mbind, wp_dispatch_dispose. intros w2 H2.
      apply wp_dispatch_dispose. intros w3 H3.
      set (w1 := known_delete e w) in *.
      set (w1' := add_log (Dispatched (OnEntry e) (dispose_event e)) w1) in *.
      set (w2' := add_log (Dispatched OnNavigator (dispose_event e)) w2) in *.
      assert (Hok2 : store_ok w2) by (eapply extends_store_ok; [|exact H2]; apply add_log_spec, Hok1).
      assert (Hok3 : store_ok w3) by (eapply extends_store_ok; [|exact H3]; apply add_log_spec, Hok2).
      assert (He2 : the_entries w2 = the_entries w).
      { rewrite (extends_the_entries w1' w2); [exact He1| apply add_log_spec, Hok1 | exact H2]. }
      assert (He3 : the_entries w3 = the_entries w).
      { rewrite (extends_the_entries w2' w3); [exact He2| apply add_log_spec, Hok2 | exact H3]. }
      assert (Hk3 : the_known w3 = K ++ rest).
      { rewrite (extends_the_known w2' w3 H3). change (the_known w2') with (the_known w2).
        rewrite (extends_the_known w1' w2 H2). exact Hk1. }
      assert (Hi3 : currentIndex w3 = currentIndex w).
      { rewrite (ext_currentIndex _ _ H3). change (currentIndex w2') with (currentIndex w2).
        rewrite (ext_currentIndex _ _ H2). exact Hi1. }
      assert (Hl3 : engine_log (log w3) = engine_log (log w) ++ notifications e).
      { rewrite (ext_engine_log _ _ H3). unfold w2'. cbn [log add_log set_log].
        rewrite engine_log_app, (ext_engine_log _ _ H2). unfold w1'. cbn [log add_log set_log].
        rewrite engine_log_app, Hl1, <- app_assoc. reflexivity. }
      assert (Hkeep3 : forall x, keep w3 x = keep w x).
      { intros x. unfold keep. rewrite He3. reflexivity. }
      eapply wp_mono; [|apply (IH K w3 Hok3 Hk3)].
      * intros r w' (-> & Hok' & He & Hi & Hk & Hl).
        rewrite (List.filter_ext _ _ Hkeep3) in Hk.
        rewrite (List.filter_ext (fun e0 => negb (keep w3 e0)) (fun e0 => negb (keep w e0))) in Hl
          by (intros x; rewrite Hkeep3; reflexivity).
        repeat split; try congruence; try apply Hok'.
        rewrite Hl, Hl3, <- app_assoc. reflexivity.
      * unfold unique_ids in *. rewrite fmap_app in *. rewrite fmap_cons in Huniq.
        apply NoDup_app in Huniq as (H1 & Hd & Hr). apply NoDup_cons in Hr as [Hn Hr].
        apply NoDup_app. repeat split; auto.
        intros x Hx Hx'. apply (Hd x Hx). right. exact Hx'.
Qed.

Lemma dispose_spec w :
  store_ok w -> unique_ids (the_known w) ->
  wp perform quiet_dispose dispose
    (fun r w' =>
       r = inr tt /\ store_ok w' /\ the_entries w' = the_entries w /\
       currentIndex w' = currentIndex w /\
       the_known w' = List.filter (keep w) (the_known w) /\
       engine_log (log w') =
         engine_log (log w) ++
         flat_map notifications (List.filter (fun e => negb (keep w e)) (the_known w)))
    w.
Proof.
  intros Hok Hu. unfold dispose. apply wp_mbind. cbn -[for_of].
  apply (sweep_spec (the_known w) [] w Hok); [reflexivity|exact Hu].
Qed.

(** The array the options point to exists. *)
Definition opts_ok (o : option Options) (w : World) : Prop :=
  forall l, o ≫= opt_entries = Some l -> (l < length (arrays (store w)))%nat.

(** The invariant the protocol keeps. *)
Definition Good (o : option Options) (w : World) : Prop :=
  store_ok w /\ unique_ids (the_known w) /\ opts_ok o w.

Definition Eng (o : option Options) (w w' : World) : Prop := Good o w -> Good o w'.

#[global] Instance Eng_refl o : Reflexive (Eng o).
Proof. intros w H. exact H. Qed.
#[global] Instance Eng_trans o : Transitive (Eng o).
Proof. intros a b c H1 H2 H. auto. Qed.

Lemma extends_good o w w' : Extends w w' -> Eng o w w'.
Proof.
  intros H (Hs & Hu & Ho). repeat split.
  - apply (extends_store_ok _ _ Hs H).
  - apply (extends_store_ok _ _ Hs H).
  - rewrite (extends_the_known _ _ H). exact Hu.
  - intros l Hl. specialize (Ho l Hl). destruct (ext_arrays _ _ H) as [k ->].
    rewrite length_app. lia.
Qed.

Lemma perform_good o a w : Eng o w (perform a w).
Proof. apply extends_good, perform_extends. Qed.

Lemma set_add_ids s e : entry_id <$> set_add s e =
  if has_id (entry_id e) s then entry_id <$> s else (entry_id <$> s) ++ [entry_id e].
Proof. unfold set_add. destruct (has_id _ _); [reflexivity|]. rewrite fmap_app. reflexivity. Qed.

Lemma has_id_false i s : has_id i s = false -> i ∉ entry_id <$> s.
Proof.
  intros H Hin. apply list_elem_of_fmap in Hin as (x & -> & Hx).
  apply has_id_elem in Hx. congruence.
Qed.

Lemma set_add_unique s e : unique_ids s -> unique_ids (set_add s e).
Proof.
  unfold unique_ids. rewrite set_add_ids. destruct (has_id _ _) eqn:E; [auto|].
  intros H. apply NoDup_app. repeat split; auto.
  - intros x Hx Hx'. apply list_elem_of_singleton in Hx' as ->.
    apply (has_id_false _ _ E Hx).
  - apply NoDup_singleton.
Qed.

Lemma set_union_unique a b : unique_ids (set_union a b).
Proof.
  unfold set_union.
  cut (forall l acc, unique_ids acc -> unique_ids (fold_left set_add l acc)).
  { intros H. apply H. constructor. }
  induction l as [|x l IH]; intros acc Hacc; simpl; [exact Hacc|].
  apply IH, set_add_unique, Hacc.
Qed.

Lemma filter_unique f l : unique_ids l -> unique_ids (List.filter f l).
Proof.
  unfold unique_ids. induction l as [|x l IH]; simpl; [auto|].
  intros H. apply NoDup_cons in H as [Hx Hl].
  destruct (f x); simpl; [|auto]. apply NoDup_cons. split; [|auto].
  intros Hin. apply Hx. apply list_elem_of_fmap in Hin as (y & -> & Hy).
  apply list_elem_of_fmap. exists y. split; [reflexivity|].
  apply list_elem_of_In. apply list_elem_of_In in Hy. apply List.filter_In in Hy. tauto.
Qed.

Ltac good_step :=
  let s := fresh "s" in
  let Hs := fresh "Hs" in let Hu := fresh "Hu" in let Ho := fresh "Ho" in
  let Ha := fresh "Ha" in let Hk := fresh "Hk" in
  intros s (Hs & Hu & Ho); pose proof Hs as [Ha Hk];
  split; [|split];
  [ unfold store_ok; cbn; rewrite ?length_app, ?length_insert; cbn; lia
  | unfold the_known, the_set in *; cbn;
    rewrite ?lookup_app_l by exact Hk;
    first [ exact Hu
          | rewrite lookup_app_r by lia; rewrite Nat.sub_diag; cbn; apply set_union_unique
          | rewrite list_lookup_insert_eq by exact Hk; cbn; apply filter_unique, Hu ]
  | let l := fresh "l" in let Hl := fresh "Hl" in
    intros l Hl; specialize (Ho l Hl); cbn; rewrite ?length_app; lia ].

Create HintDb steps discriminated.

Ltac steps_with step :=
  repeat first
    [ solve [auto with steps nocore]
    | apply steps_mbind; [|intros ?]
    | apply steps_done
    | apply steps_get; intros ?
    | apply steps_modify; [step|]
    | apply steps_await; intros ?
    | match goal with |- Steps _ (match ?x with _ => _ end) => destruct x end
    | progress unfold when, get, modify, ret, await_tick
    | progress cbn ].


Ltac good_keeps := keeps_with ltac:(idtac; good_step).

Lemma keeps_dispatchEvent o tgt ev : Keeps (Eng o) (dispatchEvent tgt ev).
Proof. unfold dispatchEvent. good_keeps. Qed.

Lemma keeps_for_of R {A : Type} (l : list A) (body : A -> NavM unit) :
  (forall a, Keeps R (body a)) -> Keeps R (for_of l body).
Proof.
  intros H. induction l as [|a l IH]; cbn.
  - constructor.
  - apply keeps_mbind; auto.
Qed.

Lemma keeps_dispose o : Keeps (Eng o) dispose.
Proof.
  unfold dispose. apply keeps_mbind; [good_keeps|intros members].
  apply keeps_for_of. intros e. unfold dispose_body, dispatchEvent. good_keeps.
Qed.

Lemma keeps_await_captured o c : Keeps (Eng o) (await_captured c).
Proof. unfold await_captured. good_keeps. Qed.

Lemma keeps_check_aborted o c : Keeps (Eng o) (check_aborted c).
Proof. unfold check_aborted. good_keeps. Qed.

#[local] Hint Resolve keeps_dispatchEvent keeps_dispose keeps_await_captured keeps_check_aborted : keeps.

Lemma keeps_commit_path o ty e cur c ct :
  Keeps (Eng o) (commit_path ty e o cur c ct).
Proof. unfold commit_path, assign_known, assign_entries. good_keeps. Qed.

Lemma keeps_completeTransition o ty e cur c ct :
  Keeps (Eng o) (completeTransition ty e o cur c ct).
Proof.
  unfold completeTransition.
  destruct (is_Unset ty); [destruct (o ≫= opt_index)|];
    [destruct (o ≫= opt_entries) as [l|] eqn:E| |];
    try apply keeps_commit_path.
  unfold restore_path. apply keeps_mbind; [|intros _].
  { unfold modify. apply keeps_modify; [|constructor].
    intros s (Hs & Hu & Ho). pose proof Hs as [Ha Hk]. specialize (Ho l E) as Hl.
    repeat split; auto. }
  unfold assign_known. good_keeps.
Qed.

Lemma keeps_rollbackImmediately o d rb :
  Keeps (Eng o)
    (call_rollback (fun ty e tr o' => inr <$> spawn (transition_ d ty e tr o')) rb None).
Proof.
  unfold call_rollback.
  apply keeps_mbind; [unfold cloneAppHistoryEntry, createAppHistoryEntry; good_keeps|intros entry].
  apply keeps_mbind; [unfold createAppHistoryEntry; good_keeps|intros resolved].
  rewrite spawn_transition. good_keeps.
Qed.

Lemma keeps_catch_block o ty p error :
  Keeps (Eng o) p -> Keeps (Eng o) (catch_block ty p error).
Proof. intros Hp. unfold catch_block. good_keeps. Qed.





(** ** The run of a transition: what was logged, which promises were awaited *)


(** Every promise [transitionWhile] took for the controller [c] is still
    in [promises], is one of [ps], or was awaited. *)
Definition accounted (c : nat) (ps : list SubOp) (w : World) : Prop :=
  forall p, Registered c p ∈ log w ->
    p ∈ promises c w \/ p ∈ ps \/ exists qs, AwaitedAll qs ∈ log w /\ p ∈ qs.

(** [transitionWhile] was called for controllers that exist only. *)
Definition log_ok (w : World) : Prop :=
  forall c p, Registered c p ∈ log w -> (c < length (controllers (store w)))%nat.

Definition Running (c : nat) (ps : list SubOp) (w : World) : Prop :=
  (c < length (controllers (store w)))%nat /\
  length (subops (store w)) = length (controllers (store w)) /\
  log_ok w /\ accounted c ps w.

Definition Run (c : nat) (w w' : World) : Prop :=
  (forall ps, Running c ps w -> Running c ps w') /\ log w `prefix_of` log w'.

#[local] Instance Run_refl c : Reflexive (Run c).
Proof. intros w. split; auto. Qed.
#[local] Instance Run_trans c : Transitive (Run c).
Proof. intros x y z [H1 P1] [H2 P2]. split; [auto|etransitivity; eassumption]. Qed.

Lemma running_same c ps w w' :
  controllers (store w') = controllers (store w) ->
  subops (store w') = subops (store w) ->
  log w' = log w ->
  Running c ps w -> Running c ps w'.
Proof.
  intros Hc Hs Hl (H1 & H2 & H3 & H4). unfold Running, log_ok, accounted, promises.
  rewrite Hc, Hs, Hl. auto.
Qed.

Lemma running_add_log c ps i w :
  by_environment i = false ->
  Running c ps w -> Running c ps (add_log i w).
Proof.
  intros Hi (H1 & H2 & H3 & H4). repeat split; auto.
  - intros c' p Hin. cbn in Hin. apply elem_of_app in Hin as [Hin|Hin]; [eauto|].
    apply list_elem_of_singleton in Hin as <-. discriminate.
  - intros p Hin. cbn in Hin. apply elem_of_app in Hin as [Hin|Hin].
    + destruct (H4 p Hin) as [H|[H|(qs & Hq & Hp)]]; auto.
      right. right. exists qs. split; [|exact Hp]. cbn. apply elem_of_app. auto.
    + apply list_elem_of_singleton in Hin as <-. discriminate.
Qed.

Lemma quiet_run c w w' : Quiet w w' -> Run c w w'.
Proof.
  intros [He Hs Hl]. split; [|rewrite Hl; reflexivity].
  intros ps (H1 & H2 & H3 & H4). unfold Running, log_ok, accounted, promises.
  rewrite Hs, Hl, (ext_controllers _ _ He). auto.
Qed.

Lemma registered_run c c' p w :
  (c' < length (controllers (store w)))%nat -> Run c w (registered c' p w).
Proof.
  intros Hc'. split; [|unfold registered; cbn; apply prefix_app_r; reflexivity].
  intros ps (H1 & H2 & H3 & H4).
  assert (Hprom : forall c0, promises c0 w `prefix_of` promises c0 (registered c' p w)).
  { intros c0. apply (ext_promises _ _ (registered_extends c' p w)). }
  repeat split.
  - unfold registered. cbn. exact H1.
  - unfold registered. cbn. rewrite length_insert. exact H2.
  - intros c0 p0 Hin. unfold registered in *. cbn in *.
    apply elem_of_app in Hin as [Hin|Hin]; [eauto|].
    apply list_elem_of_singleton in Hin. injection Hin as -> ->. exact Hc'.
  - intros p0 Hin. unfold registered in Hin. cbn in Hin.
    apply elem_of_app in Hin as [Hin|Hin].
    + destruct (H4 p0 Hin) as [H|[H|(qs & Hq & Hp)]].
      * left. destruct (Hprom c) as [k ->]. apply elem_of_app. auto.
      * auto.
      * right. right. exists qs. split; [|exact Hp].
        unfold registered. cbn. apply elem_of_app. auto.
    + apply list_elem_of_singleton in Hin. injection Hin as -> ->.
      left. unfold registered, promises, set_promises. cbn.
      rewrite list_lookup_insert_eq by lia. cbn. apply elem_of_app. right.
      apply list_elem_of_singleton. reflexivity.
Qed.

Lemma perform_run c a w : Run c w (perform a w).
Proof.
  destruct (perform_cases a w) as [H|(c' & p & Hc' & _ & ->)].
  - apply quiet_run, H.
  - apply registered_run, Hc'.
Qed.

Lemma during_run c (x : Wait) (rc : Reaction Ans Call x) w : Run c w (during perform rc w).
Proof. apply during_keeps; try apply _. intros a s0. apply perform_run. Qed.

(** The log grew from that of [w0] by a list in which [L] occurs, in
    order. *)
Definition Trace (w0 : World) (L : list LogItem) (w : World) : Prop :=
  exists N, log w = log w0 ++ N /\ L `sublist_of` N.

Lemma trace_mono w0 L w w' : Trace w0 L w -> log w `prefix_of` log w' -> Trace w0 L w'.
Proof.
  intros (N & HN & HL) [k Hk]. exists (N ++ k). split.
  - rewrite Hk, HN, app_assoc. reflexivity.
  - apply sublist_inserts_r, HL.
Qed.

Lemma trace_snoc w0 L i w w' :
  Trace w0 L w -> (log w ++ [i]) `prefix_of` log w' -> Trace w0 (L ++ [i]) w'.
Proof.
  intros (N & HN & HL) [k Hk]. exists ((N ++ [i]) ++ k). split.
  - rewrite Hk, HN, !app_assoc. reflexivity.
  - apply sublist_inserts_r, sublist_app; [exact HL|reflexivity].
Qed.

Definition At (c : nat) (w0 : World) (L : list LogItem) (ps : list SubOp) (w : World) : Prop :=
  Running c ps w /\ Trace w0 L w.

Lemma at_run c w0 L ps w w' : Run c w w' -> At c w0 L ps w -> At c w0 L ps w'.
Proof. intros [HR HP] [H1 H2]. split; [auto|eapply trace_mono; eassumption]. Qed.

Lemma at_logged c w0 L ps i w w' :
  by_environment i = false ->
  Run c (add_log i w) w' -> At c w0 L ps w -> At c w0 (L ++ [i]) ps w'.
Proof.
  intros Hi [HR HP] [H1 H2]. split.
  - apply HR, running_add_log; assumption.
  - eapply trace_snoc; [exact H2|exact HP].
Qed.

Abbreviation any := (fun (x : Wait) (_ : Reaction Ans Call x) => True).
Abbreviation wpa := (wp perform any).

(** A postcondition that asks nothing of a run that throws. *)
Definition on_success {A : Type} (F : A -> World -> Prop) (r : Error + A) (w : World) : Prop :=
  match r with inr a => F a w | inl _ => True end.

Lemma wp_seq c {A B : Type} (p : NavM A) (k : A -> NavM B) (F : B -> World -> Prop) w :
  Keeps (Run c) p ->
  (forall a w', Run c w w' -> wpa (k a) (on_success F) w') ->
  wpa (p ≫= k) (on_success F) w.
Proof.
  intros Hp Hk. apply wp_mbind.
  eapply wp_mono; [|apply (keeps_wp perform any (Run c)); try apply _; [|exact Hp]].
  - intros [e|a] w' HR; [exact I|]. apply Hk, HR.
  - intros a s0. apply perform_run.
Qed.


Lemma wp_modify_seq {B : Type} f (k : unit -> NavM B) (Q : Error + B -> World -> Prop) w :
  wpa (k tt) Q (f w) -> wpa (modify f ≫= k) Q w.
Proof. intros H. exact H. Qed.

Lemma wp_logged c {B : Type} tgt ev (k : unit -> NavM B) (F : B -> World -> Prop) w :
  (forall w', Run c (add_log (Dispatched tgt ev) w) w' -> wpa (k tt) (on_success F) w') ->
  wpa (dispatchEvent tgt ev ≫= k) (on_success F) w.
Proof.
  intros Hk. apply wp_mbind. unfold dispatchEvent. cbn. intros rc _.
  destruct (answer rc) as [e|[]]; cbn; [exact I|].
  apply Hk, during_run.
Qed.

Lemma running_collect c w :
  Running c [] w -> Running c (promises c w) (set_promises c [] w).
Proof.
  intros (H1 & H2 & H3 & H4). repeat split.
  - exact H1.
  - cbn. rewrite length_insert. exact H2.
  - exact H3.
  - intros p Hin. destruct (H4 p Hin) as [H|[H|H]]; auto. inversion H.
Qed.

Lemma running_awaited c ps w :
  Running c ps w -> Running c [] (add_log (AwaitedAll ps) w).
Proof.
  intros (H1 & H2 & H3 & H4). repeat split; auto.
  - intros c' p Hin. cbn in Hin. apply elem_of_app in Hin as [Hin|Hin]; [eauto|].
    apply list_elem_of_singleton in Hin. discriminate.
  - intros p Hin. cbn in Hin. apply elem_of_app in Hin as [Hin|Hin].
    + destruct (H4 p Hin) as [H|[H|(qs & Hq & Hp)]].
      * left. exact H.
      * right. right. exists ps. split; [|exact H].
        cbn. apply elem_of_app. right. apply list_elem_of_singleton. reflexivity.
      * right. right. exists qs. split; [|exact Hp]. cbn. apply elem_of_app. auto.
    + apply list_elem_of_singleton in Hin. discriminate.
Qed.

Lemma wp_await_captured c w0 L {B : Type} (k : unit -> NavM B) (F : B -> World -> Prop) w :
  At c w0 L [] w ->
  (forall w', At c w0 L [] w' -> wpa (k tt) (on_success F) w') ->
  wpa (await_captured c ≫= k) (on_success F) w.
Proof.
  intros [HR HT] Hk. apply wp_mbind. unfold await_captured. apply wp_mbind. cbn.
  destruct (promises c w) as [|p ps] eqn:E; cbn.
  - apply Hk. split; assumption.
  - intros rc _. destruct (answer rc) as [e|[]]; cbn; [exact I|].
    apply Hk.
    pose proof (running_collect c w HR) as H1. rewrite E in H1.
    destruct (during_run c _ rc (set_promises c [] w)) as [H2 HP].
    split.
    + apply running_awaited, H2, H1.
    + eapply trace_mono; [exact HT|]. etransitivity; [exact HP|].
      cbn. apply prefix_app_r. reflexivity.
Qed.

Ltac run_step :=
  let s := fresh "s" in
  intros s; split;
  [ intros ?; first [ apply running_same; reflexivity | apply running_add_log; reflexivity ]
  | cbn; first [ reflexivity | apply prefix_app_r; reflexivity ] ].

Ltac run_keeps := keeps_with ltac:(idtac; run_step).

Lemma run_keeps_dispose c : Keeps (Run c) dispose.
Proof.
  unfold dispose. apply keeps_mbind; [run_keeps|intros members].
  apply keeps_for_of. intros e. unfold dispose_body, dispatchEvent. run_keeps.
Qed.

Lemma run_keeps_finally_block c ct : Keeps (Run c) (finally_block ct).
Proof.
  unfold finally_block. apply keeps_mbind; [apply run_keeps_dispose|intros _]. run_keeps.
Qed.

Lemma run_keeps_check_aborted c c' : Keeps (Run c) (check_aborted c').
Proof. unfold check_aborted. run_keeps. Qed.

Lemma run_keeps_dispatchEvent c tgt ev : Keeps (Run c) (dispatchEvent tgt ev).
Proof. unfold dispatchEvent. run_keeps. Qed.

(** The [catch] block rethrows. *)
Lemma catch_block_throws ty (p : NavM AppHistoryResult) error w :
  wpa (catch_block ty p error) (fun r _ => match r with inl _ => True | inr _ => False end) w.
Proof.
  unfold catch_block. apply wp_mbind.
  eapply wp_mono; [|apply wp_true]. intros [e|[]] w' _; exact I.
Qed.

(** The steps the protocol logs when it returns, in their order. *)
Definition restores (ty : InternalAppHistoryNavigationType) (o : option Options) : bool :=
  match is_Unset ty, o ≫= opt_index, o ≫= opt_entries with
  | true, Some _, Some _ => true
  | _, _, _ => false
  end.



Ltac gstep c HAt :=
  apply (wp_seq c); [unfold assign_known, assign_entries; run_keeps|];
  let a := fresh "a" in let w' := fresh "w" in let HR := fresh "HR" in
  intros a w' HR; apply (at_run _ _ _ _ _ _ HR) in HAt; clear HR.

Lemma at_dispatched c w0 L ps tgt ev w w' :
  Run c (add_log (Dispatched tgt ev) w) w' -> At c w0 L ps w ->
  At c w0 (L ++ [Dispatched tgt ev]) ps w'.
Proof. apply at_logged. reflexivity. Qed.

Ltac lstep c HAt :=
  apply (wp_logged c);
  let w' := fresh "w" in let HR := fresh "HR" in
  intros w' HR; apply (at_dispatched _ _ _ _ _ _ _ _ HR) in HAt; clear HR.

Ltac cstep c HAt :=
  apply (wp_await_captured c _ _ _ _ _ HAt); clear HAt;
  let w' := fresh "w" in intros w' HAt.

#[local] Hint Resolve run_keeps_dispose run_keeps_check_aborted run_keeps_dispatchEvent : keeps.




(** Before a run has made its controller. *)
Definition Idle (w : World) : Prop :=
  length (subops (store w)) = length (controllers (store w)) /\ log_ok w.

Definition StaysIdle (w w' : World) : Prop := Idle w -> Idle w'.

#[local] Instance StaysIdle_refl : Reflexive StaysIdle.
Proof. intros w H. exact H. Qed.
#[local] Instance StaysIdle_trans : Transitive StaysIdle.
Proof. intros x y z H1 H2 H. auto. Qed.

Lemma perform_idle a w : StaysIdle w (perform a w).
Proof.
  intros [H1 H2].
  destruct (perform_cases a w) as [[He Hs Hl]|(c' & p & Hc' & _ & ->)].
  - split.
    + rewrite Hs, (ext_controllers _ _ He). exact H1.
    + intros c q. rewrite Hl, (ext_controllers _ _ He). apply H2.
  - split.
    + unfold registered. cbn. rewrite length_insert. exact H1.
    + intros c q Hin. unfold registered in *. cbn in *.
      apply elem_of_app in Hin as [Hin|Hin]; [eauto|].
      apply list_elem_of_singleton in Hin. injection Hin as -> ->. exact Hc'.
Qed.

Lemma wp_tick_seq {B : Type} x (k : unit -> NavM B) (Q : Error + B -> World -> Prop) w :
  (forall rc : Reaction Ans Call x, wpa (k tt) Q (during perform rc w)) ->
  wpa (await_tick x ≫= k) Q w.
Proof. intros H rc _. apply H. Qed.

Lemma wp_get_seq {A B : Type} (f : World -> A) (k : A -> NavM B)
    (Q : Error + B -> World -> Prop) w :
  wpa (k (f w)) Q w -> wpa (get f ≫= k) Q w.
Proof. intros H. exact H. Qed.

Lemma wp_new_AbortController_seq {B : Type} (k : nat -> NavM B)
    (Q : Error + B -> World -> Prop) w :
  wpa (k (length (controllers (store w)))) Q
    (set_store (set_subops (subops (store w) ++ [[]])
                 (set_controllers (controllers (store w) ++ [false]) (store w))) w) ->
  wpa (new_AbortController ≫= k) Q w.
Proof. intros H. exact H. Qed.

Ltac run_steps := steps_with ltac:(idtac; run_step).





(** ** Example runs *)

(** The callback chained for the promise [i] of the chain. *)
Definition callback_of (i : nat) (w : World) : NavM AppHistoryEntry :=
  match chain w !! i with
  | Some l => finished_callback l
  | None => Throw (OtherError "no such promise")
  end.

(** The environment fulfils the awaited promise after it made the calls
    [acts]. *)
Definition react (acts : list Call) (w : Wait) : Reaction Ans Call w :=
  {| acts := acts; answer := fulfil w sample_create |}.

(** The awaited promise is rejected with [e]. *)
Definition reject (e : Error) (w : Wait) : Reaction Ans Call w :=
  {| acts := []; answer := inl e |}.

(** A listener of [currentchange] throws. *)
Definition boom : NavOracle := fun _ w =>
  match w with
  | WDispatch OnNavigator currentchange => reject (OtherError "boom") w
  | _ => react [] w
  end.

(** A listener of [navigate] registers the promise 1; while the engine
    awaits it, the promise 2 is registered; while the engine awaits that
    one, the promise 3. *)
Definition nested : NavOracle := fun _ w =>
  match w with
  | WDispatch OnNavigator navigate_event => react [call_transitionWhile 0%nat 1%nat] w
  | WAll [1%nat] => react [call_transitionWhile 0%nat 2%nat] w
  | WAll [2%nat] => react [call_transitionWhile 0%nat 3%nat] w
  | _ => react [] w
  end.

(** The empty Navigator after [navigate("/a")] returned. *)
Definition requested : World := after (navigate "/a" None) initial.

Definition entry_a : AppHistoryEntry :=
  {| entry_id := 0; entry_key := 0; entry_url := Some "/a"; entry_sameDocument := true;
     entry_state := None |}.


(** The Navigator with the entry of [navigate("/a")] committed. *)
Definition visited : World :=
  fst (run (callback_of 0%nat requested) (fun _ w => react [] w) requested).

Lemma requested_returns :
  run_sync (navigate "/a" None) initial =
    Some (requested, inr {| committed := Fulfilled entry_a; finished := ChainPromise 0 |}).
Proof. vm_compute. reflexivity. Qed.




(** X6.  The rollback the [catch] block of [#transition] calls is made with
    [this.#createRollback(this.#transition)]: the closure holds no
    transition.  Whatever it captured, calling it changes neither the
    sequence, the index nor the known set, and the promise [finished] it
    returns is rejected by the nested [#transition]. *)
Lemma rollbackImmediately_restores_nothing d current previousEntries previousIndex known
    options w :
  exists w' e,
    run_sync (call_rollback (fun ty e tr o => inr <$> spawn (transition_ d ty e tr o))
                {| rb_fn := ViaTransition; rb_transition := None; rb_current := current;
                   rb_previousEntries := previousEntries; rb_previousIndex := previousIndex;
                   rb_known := known |} options) w
      = Some (w', inr {| committed := Fulfilled e;
                         finished := CallPromise
                           (Rejected (InvalidStateError "Expected transition")) |}) /\
    the_entries w' = the_entries w /\ currentIndex w' = currentIndex w /\
    the_known w' = the_known w.
Proof.
  unfold call_rollback. destruct current as [c|]; cbn -[spawn transition_];
    rewrite spawn_transition; cbn; eauto 10.
Qed.

(** C2.  A transition that fails after it assigned the new entries is not
    rolled back.  On an empty Navigator, [navigate("/a")] with a listener
    of [currentchange] that throws: the [catch] block calls the rollback
    and dispatches [navigateerror], [finished] is rejected with the error
    of the listener, and the sequence, the index and the known set stay
    those of the failed navigation, not the empty ones captured at its
    start. *)
Theorem C2_rollback_after_failure_restores_nothing :
  the_entries requested = [] /\ currentIndex requested = -1 /\ the_known requested = [] /\
  snd (run (callback_of 0%nat requested) boom requested) = inl (OtherError "boom") /\
  log (fst (run (callback_of 0%nat requested) boom requested)) =
    [Dispatched OnNavigator navigate_event; Mutated; Dispatched OnNavigator currentchange;
     RollbackInvoked; Dispatched OnNavigator (navigateerror (OtherError "boom"))] /\
  the_entries (fst (run (callback_of 0%nat requested) boom requested)) = [entry_a] /\
  currentIndex (fst (run (callback_of 0%nat requested) boom requested)) = 0 /\
  the_known (fst (run (callback_of 0%nat requested) boom requested)) = [entry_a].
Proof. vm_compute. repeat split; reflexivity. Qed.

(** C5.  The engine awaits the registered promises in two rounds, not
    until none is left.  A listener of [navigate] registers the promise 1;
    the promise 2 is registered while the engine awaits 1, the promise 3
    while it awaits 2.  [finish] is dispatched before 2 is awaited, and
    [#transition] returns the entry, fulfilling [finished], with 3 still in
    [promises], never awaited. *)
Theorem C5_two_rounds_of_awaiting :
  snd (run (callback_of 0%nat requested) nested requested) = inr entry_a /\
  promises 0%nat (fst (run (callback_of 0%nat requested) nested requested)) = [3%nat] /\
  log (fst (run (callback_of 0%nat requested) nested requested)) =
    [Dispatched OnNavigator navigate_event; Registered 0 1%nat; Mutated;
     Dispatched OnNavigator currentchange; Dispatched (OnEntry entry_a) navigateto;
     Registered 0 2%nat; AwaitedAll [1%nat];
     Dispatched (OnEntry entry_a) finish; Dispatched OnNavigator navigatesuccess;
     Registered 0 3%nat; AwaitedAll [2%nat]].
Proof. vm_compute. repeat split; reflexivity. Qed.



(** [transitionWhile] of a run whose controller was aborted throws and
    registers nothing; otherwise it pushes the promise. *)
Lemma transitionWhile_checks_the_signal c p w :
  run_sync (transitionWhile c p) w =
    if aborted c w
    then Some (w, inl (InvalidStateError "Event has already finished processing"))
    else Some (registered c p w, inr tt).
Proof.
  unfold transitionWhile. rewrite sync_bind. cbn. destruct (aborted c w); reflexivity.
Qed.

(** ** The [catch] block of [#transition] *)

(** The engine logged nothing between [w] and [w']. *)
Definition SameEngine (w w' : World) : Prop := engine_log (log w') = engine_log (log w).

#[global] Instance SameEngine_refl : Reflexive SameEngine.
Proof. intros w. reflexivity. Qed.
#[global] Instance SameEngine_trans : Transitive SameEngine.
Proof. intros a b c H1 H2. unfold SameEngine in *. congruence. Qed.







(** ** The event loop: one transition at a time *)

(** The callbacks of the [finished] promises that started and have not
    returned, each with what is left of it to run. *)
Record Loop : Type := mkLoop {
  world : World;
  jobs : list (nat * NavM AppHistoryEntry)
}.

Definition mark (i : nat) (st : LinkState) (w : World) : World :=
  set_chain (alter (set_l_state st) i (chain w)) w.

(** The promise a callback is chained on has settled:
    [Promise.resolve(entry)] has, a promise of the chain when its callback
    returned or threw. *)
Definition settled (w : World) (source : option nat) : Prop :=
  match source with
  | None => True
  | Some j => exists r, l_state <$> chain w !! j = Some (Returned r)
  end.

(** One step of a job: a read, a write, or an await that is answered. *)
Definition node {A : Type} (p : NavM A) (w : World) (p' : NavM A) (w' : World) : Prop :=
  match p with
  | Get k => p' = k w /\ w' = w
  | Modify f q => p' = q /\ w' = f w
  | Await x k => w' = w /\ exists r, p' = k r
  | Done _ | Throw _ => False
  end.

Definition outcome {A : Type} (p : NavM A) : option (Error + A) :=
  match p with
  | Done a => Some (inr a)
  | Throw e => Some (inl e)
  | _ => None
  end.

(** What the event loop does: other code calls the Navigator; the callback
    of a promise of the chain starts, once the promise it is chained on has
    settled; a job that started makes a step; a job returns or throws, which
    settles its promise.  Jobs are interleaved at every step, which is more
    than JavaScript allows. *)
Inductive step : Loop -> Loop -> Prop :=
| step_call c w js :
    step {| world := w; jobs := js |} {| world := perform c w; jobs := js |}
| step_start i l w js :
    chain w !! i = Some l -> l_state l = Queued -> settled w (l_source l) ->
    step {| world := w; jobs := js |}
         {| world := mark i Started w; jobs := js ++ [(i, finished_callback l)] |}
| step_node i p p' w w' js1 js2 :
    node p w p' w' ->
    step {| world := w; jobs := js1 ++ (i, p) :: js2 |}
         {| world := w'; jobs := js1 ++ (i, p') :: js2 |}
| step_return i p r w js1 js2 :
    outcome p = Some r ->
    step {| world := w; jobs := js1 ++ (i, p) :: js2 |}
         {| world := mark i (Returned r) w; jobs := js1 ++ js2 |}.

(** The states of the event loop of a new Navigator. *)
Inductive reachable : Loop -> Prop :=
| reachable_initial : reachable {| world := initial; jobs := [] |}
| reachable_step st st' : reachable st -> step st st' -> reachable st'.

(** What a run of [#transition] leaves alone: the counter, the chain and
    [#activePromise]; and it does not log [MultipleTransitions]. *)
Record Serial (w w' : World) : Prop := mkSerial {
  ser_count : transitionInProgressCount w' = transitionInProgressCount w;
  ser_chain : chain w' = chain w;
  ser_active : activePromise w' = activePromise w;
  ser_log : MultipleTransitions ∈ log w' -> MultipleTransitions ∈ log w
}.

#[global] Instance Serial_refl : Reflexive Serial.
Proof. intros w. constructor; auto. Qed.
#[global] Instance Serial_trans : Transitive Serial.
Proof. intros a b c [] []. constructor; try congruence; auto. Qed.

Ltac serial_step :=
  let s := fresh "s" in
  let H := fresh "H" in
  intros s; constructor; cbn;
  [ reflexivity | reflexivity | reflexivity
  | intros H;
    first [ exact H
          | apply elem_of_app in H as [H|H];
            [exact H|apply list_elem_of_singleton in H; discriminate] ] ].

Ltac serial_keeps := keeps_with ltac:(idtac; serial_step).

Lemma serial_dispose : Keeps Serial dispose.
Proof.
  unfold dispose. apply keeps_mbind; [serial_keeps|intros members].
  apply keeps_for_of. intros e. unfold dispose_body, dispatchEvent. serial_keeps.
Qed.

Lemma serial_dispatchEvent tgt ev : Keeps Serial (dispatchEvent tgt ev).
Proof. unfold dispatchEvent. serial_keeps. Qed.

Lemma serial_await_captured c : Keeps Serial (await_captured c).
Proof. unfold await_captured. serial_keeps. Qed.

Lemma serial_check_aborted c : Keeps Serial (check_aborted c).
Proof. unfold check_aborted. serial_keeps. Qed.

#[local] Hint Resolve serial_dispose serial_dispatchEvent serial_await_captured
  serial_check_aborted : keeps.

Lemma serial_completeTransition o ty e cur c ct :
  Keeps Serial (completeTransition ty e o cur c ct).
Proof.
  unfold completeTransition, restore_path, commit_path, assign_known, assign_entries.
  serial_keeps.
Qed.

Lemma serial_rollbackImmediately d rb :
  Keeps Serial
    (call_rollback (fun ty e tr o' => inr <$> spawn (transition_ d ty e tr o')) rb None).
Proof.
  unfold call_rollback.
  apply keeps_mbind;
    [unfold cloneAppHistoryEntry, createAppHistoryEntry; serial_keeps|intros entry].
  apply keeps_mbind; [unfold createAppHistoryEntry; serial_keeps|intros resolved].
  rewrite spawn_transition. serial_keeps.
Qed.

Lemma serial_transition ty e tr o : Keeps Serial (transition ty e tr o).
Proof.
  unfold transition, transition_. destruct tr as [t|]; [|constructor].
  do 8 (apply keeps_mbind;
        [unfold createRollback, new_array, new_AppHistoryTransition, new_AbortController;
         serial_keeps|intros ?]).
  apply keeps_try_finally.
  - apply keeps_try_catch; [apply serial_completeTransition|].
    intros error. unfold catch_block.
    apply keeps_mbind; [|intros ?; constructor].
    unfold when. destruct (_ && _); [|constructor].
    apply keeps_mbind; [|intros ?; apply serial_dispatchEvent].
    destruct (negb _); [|constructor].
    apply keeps_mbind; [serial_keeps|intros ?].
    apply keeps_mbind; [|intros ?; serial_keeps].
    match goal with
    | |- Keeps _ (call_rollback _ ?rb None) => exact (serial_rollbackImmediately 0 rb)
    end.
  - unfold finally_block. apply keeps_mbind; [apply serial_dispose|intros ?]. serial_keeps.
Qed.

(** The promise before the [n]-th of the chain. *)
Definition pred_opt (n : nat) : option nat :=
  match n with O => None | Datatypes.S j => Some j end.

(** Each promise of the chain is chained on the one before it, and
    [#activePromise] is the last. *)
Definition chained (w : World) : Prop :=
  activePromise w = pred_opt (length (chain w)) /\
  forall i l, chain w !! i = Some l -> l_source l = pred_opt i.

(** What a call of other code does to the chain: it may add promises,
    whose callbacks are queued. *)
Record Enqueues (w w' : World) : Prop := mkEnqueues {
  enq_count : transitionInProgressCount w' = transitionInProgressCount w;
  enq_log : MultipleTransitions ∈ log w' -> MultipleTransitions ∈ log w;
  enq_chained : chained w -> chained w';
  enq_states : exists n, l_state <$> chain w' = (l_state <$> chain w) ++ replicate n Queued
}.

#[global] Instance Enqueues_refl : Reflexive Enqueues.
Proof. intros w. constructor; auto. exists 0%nat. rewrite app_nil_r. reflexivity. Qed.
#[global] Instance Enqueues_trans : Transitive Enqueues.
Proof.
  intros a b c [H1 H2 H3 [n Hn]] [H1' H2' H3' [m Hm]].
  constructor; try congruence; auto.
  exists (n + m)%nat. rewrite Hm, Hn, replicate_add, app_assoc. reflexivity.
Qed.

Lemma serial_enqueues w w' : Serial w w' -> Enqueues w w'.
Proof.
  intros [H1 H2 H3 H4]. constructor; auto.
  - unfold chained. rewrite H2, H3. auto.
  - exists 0%nat. rewrite H2, app_nil_r. reflexivity.
Qed.

(** A synchronous call only enqueues. *)
Definition Sync {A : Type} (p : NavM A) : Prop :=
  forall w w' r, run_sync p w = Some (w', r) -> Enqueues w w'.

Lemma sync_mbind {A B : Type} (p : NavM A) (f : A -> NavM B) :
  Sync p -> (forall a, Sync (f a)) -> Sync (p ≫= f).
Proof.
  intros Hp Hf w w' r. rewrite sync_bind.
  destruct (run_sync p w) as [[w1 [e|a]]|] eqn:E; [| |discriminate].
  - intros [= <- _]. eapply Hp, E.
  - intros H. etransitivity; [eapply Hp, E|eapply Hf, H].
Qed.

Lemma sync_keeps {A : Type} (p : NavM A) : Keeps Serial p -> Sync p.
Proof.
  intros Hp w w' r H. apply serial_enqueues.
  eapply keeps_run_sync; [apply _|apply _|exact Hp|exact H].
Qed.

Lemma states_alter_nextTransition v i (l : list Link) :
  l_state <$> alter (set_l_nextTransition v) i l = l_state <$> l.
Proof.
  apply list_eq. intros j. rewrite !list_lookup_fmap.
  destruct (decide (i = j)) as [->|Hne].
  - rewrite list_lookup_alter_eq. destruct (l !! j); reflexivity.
  - rewrite list_lookup_alter_ne by exact Hne. reflexivity.
Qed.

Lemma sync_commitTransition ty e tr o : Sync (commitTransition ty e tr o).
Proof.
  intros w w' r. rewrite commitTransition_returns. intros [= <- _].
  constructor; cbn; auto.
  - intros [Ha Hs]. split; cbn.
    + rewrite length_alter, length_app. cbn. rewrite Nat.add_1_r. reflexivity.
    + intros i l. destruct (decide (length (chain w) = i)) as [<-|Hne].
      * rewrite list_lookup_alter_eq, lookup_app_r by lia. rewrite Nat.sub_diag. cbn.
        intros [= <-]. cbn. exact Ha.
      * rewrite list_lookup_alter_ne by exact Hne. intros Hl.
        apply lookup_app_Some in Hl as [Hl|[Hge Hl]]; [eauto|].
        destruct (i - length (chain w))%nat as [|k] eqn:Ek; [lia|discriminate].
  - exists 1%nat. rewrite states_alter_nextTransition, fmap_app. reflexivity.
Qed.

Ltac sync :=
  repeat first
    [ apply sync_commitTransition
    | apply sync_keeps; solve [serial_keeps]
    | apply sync_mbind; [|intros ?]
    | match goal with
      | |- Sync (if ?b then _ else _) => destruct b
      | |- Sync (match ?x with _ => _ end) => destruct x
      end ].

Lemma sync_pushEntry ty e tr o : Sync (pushEntry ty e tr o).
Proof. unfold pushEntry. sync. Qed.

Lemma sync_clone_push ty e o tr o' :
  Sync (clone ← cloneAppHistoryEntry e o; pushEntry ty clone tr o').
Proof.
  apply sync_mbind; [|intros ?; apply sync_pushEntry].
  apply sync_keeps. unfold cloneAppHistoryEntry, createAppHistoryEntry. serial_keeps.
Qed.

Lemma after_enqueues {A : Type} (p : NavM A) w : Sync p -> Enqueues w (after p w).
Proof.
  intros Hp. unfold after. destruct (run_sync p w) as [[w' r]|] eqn:E; [|reflexivity].
  eapply Hp, E.
Qed.

Lemma sync_call_rollback_pushEntry rb o :
  Sync (call_rollback (fun ty e tr o' => inl <$> pushEntry ty e tr o') rb o).
Proof.
  unfold call_rollback. sync.
  all: try (apply sync_keeps; unfold cloneAppHistoryEntry, createAppHistoryEntry; serial_keeps).
  all: intros w w' r; rewrite sync_fmap;
    destruct (run_sync (pushEntry _ _ _ _) w) as [[w1 [e|x]]|] eqn:E; intros [= <- _];
    eapply sync_pushEntry, E.
Qed.

Lemma sync_call_rollback_transition rb o :
  Sync (call_rollback (fun ty e tr o' => inr <$> spawn (transition ty e tr o')) rb o).
Proof.
  apply sync_keeps. unfold call_rollback, transition.
  apply keeps_mbind;
    [unfold cloneAppHistoryEntry, createAppHistoryEntry; serial_keeps|intros entry].
  apply keeps_mbind; [unfold createAppHistoryEntry; serial_keeps|intros resolved].
  rewrite spawn_transition. serial_keeps.
Qed.

Lemma perform_enqueues c w : Enqueues w (perform c w).
Proof.
  destruct c; unfold perform; try apply after_enqueues.
  - unfold navigate. sync.
  - unfold back. sync.
  - unfold forward. sync.
  - unfold goTo. sync.
  - unfold reload. sync.
  - unfold updateCurrent. sync.
  - unfold entries. sync.
  - unfold transition_rollback.
    apply sync_mbind; [apply sync_keeps; serial_keeps|intros [tr|]];
      [|apply sync_keeps; constructor].
    unfold call_closure. destruct (rb_fn (t_rollback tr)).
    + apply sync_call_rollback_pushEntry.
    + apply sync_call_rollback_transition.
  - case_bool_decide; [|reflexivity]. apply after_enqueues, sync_keeps.
    unfold transitionWhile. serial_keeps.
Qed.

(** [leaves R p]: every write of [p] takes a state to one related to it
    by [R]; the same as [Keeps], by recursion on [p]. *)
Fixpoint leaves {A : Type} (R : World -> World -> Prop) (p : NavM A) : Prop :=
  match p with
  | Done _ | Throw _ => True
  | Get k => forall s, leaves R (k s)
  | Modify g q => (forall s, R s (g s)) /\ leaves R q
  | Await x k => forall r, leaves R (k r)
  end.

Lemma keeps_leaves {A : Type} R (p : NavM A) : Keeps R p -> leaves R p.
Proof. induction 1; cbn; auto. Qed.

(** The [finally] block of [#immediateTransition]. *)
Definition decrement : NavM unit :=
  modify (fun w => set_transitionInProgressCount (transitionInProgressCount w - 1) w).

(** The branch of [#immediateTransition] for a counter above 1. *)
Definition tripped : NavM AppHistoryEntry :=
  modify (add_log MultipleTransitions);;
  Throw (InvalidStateError "Unexpected multiple transitions").

Lemma immediateTransition_unfold ty e t o :
  immediateTransition ty e t o =
  Modify (fun w => set_transitionInProgressCount (transitionInProgressCount w + 1) w)
    (Get (fun w => try_finally
                     (if 1 <? transitionInProgressCount w then tripped
                      else transition ty e (Some t) o)
                     decrement)).
Proof. reflexivity. Qed.

(** Where a job is, and what it adds to the counter: not yet at the
    increment; at the test of the counter; in the [try] block; past the
    [finally] block. *)
Inductive Phase : NavM AppHistoryEntry -> Z -> Prop :=
| phase_fresh l : Phase (finished_callback l) 0
| phase_entered q :
    leaves Serial q ->
    Phase (Get (fun w => try_finally
                           (if 1 <? transitionInProgressCount w then tripped else q)
                           decrement)) 1
| phase_held q : leaves Serial q -> Phase (try_finally q decrement) 1
| phase_done r : Phase (match r with inr a => Done a | inl e => Throw e end) 0.

Definition states (w : World) : list LinkState := l_state <$> chain w.

(** The callbacks before the [k]-th have returned, those after it are
    queued. *)
Definition front (k : nat) (w : World) : Prop :=
  (forall i s, states w !! i = Some s -> (i < k)%nat -> exists r, s = Returned r) /\
  (forall i s, states w !! i = Some s -> (k < i)%nat -> s = Queued).

Definition Static (k : nat) (w : World) : Prop :=
  chained w /\ (MultipleTransitions ∉ log w) /\ (k <= length (chain w))%nat /\ front k w.

(** The invariant of the event loop: at most one job, the one of the first
    callback that has not returned; the counter is what the job adds. *)
Definition Inv (st : Loop) : Prop :=
  exists k, Static k (world st) /\
    ((jobs st = [] /\ transitionInProgressCount (world st) = 0 /\
      (forall s, states (world st) !! k = Some s -> s = Queued)) \/
     (exists p, jobs st = [(k, p)] /\ states (world st) !! k = Some Started /\
                Phase p (transitionInProgressCount (world st)))).

(** [Enqueues] but for the counter. *)
Definition Grows (w w' : World) : Prop :=
  (MultipleTransitions ∈ log w' -> MultipleTransitions ∈ log w) /\
  (chained w -> chained w') /\
  exists n, states w' = states w ++ replicate n Queued.

Lemma enqueues_grows w w' : Enqueues w w' -> Grows w w'.
Proof. intros [H1 H2 H3 H4]. split; [exact H2|]. split; [exact H3|exact H4]. Qed.

Lemma same_chain_grows w w' :
  chain w' = chain w -> activePromise w' = activePromise w -> log w' = log w -> Grows w w'.
Proof.
  intros H1 H2 H3. unfold Grows, chained, states. rewrite H1, H2, H3.
  repeat split; try tauto. exists 0%nat. rewrite app_nil_r. reflexivity.
Qed.

Lemma serial_grows w w' : Serial w w' -> Grows w w'.
Proof. intros H. apply enqueues_grows, serial_enqueues, H. Qed.

Lemma states_length w : length (states w) = length (chain w).
Proof. unfold states. apply length_fmap. Qed.

Lemma static_grows k w w' :
  Grows w w' -> Static k w ->
  Static k w' /\
  (forall s, states w !! k = Some s -> states w' !! k = Some s) /\
  ((forall s, states w !! k = Some s -> s = Queued) ->
   forall s, states w' !! k = Some s -> s = Queued).
Proof.
  intros (Hlog & Hch & n & Hn) (Hc & Hmt & Hk & Hlow & Hhigh).
  assert (Hlen : length (chain w') = (length (chain w) + n)%nat).
  { rewrite <- !states_length, Hn, length_app, length_replicate. reflexivity. }
  assert (Hnew : forall i s, states w' !! i = Some s ->
                   states w !! i = Some s \/ ((length (chain w) <= i)%nat /\ s = Queued)).
  { intros i s. rewrite Hn. intros H. apply lookup_app_Some in H as [H|[Hge H]]; [auto|].
    right. rewrite states_length in Hge. split; [exact Hge|].
    apply lookup_replicate in H as [-> _]. reflexivity. }
  refine (conj (conj _ (conj _ (conj _ (conj _ _)))) (conj _ _)).
  - auto.
  - intros H. apply Hmt, Hlog, H.
  - lia.
  - intros i s H Hlt. destruct (Hnew i s H) as [Hold|[Hge ->]]; [eauto|lia].
  - intros i s H Hlt. destruct (Hnew i s H) as [Hold|[Hge ->]]; [eauto|reflexivity].
  - intros s H. rewrite Hn. apply lookup_app_l_Some, H.
  - intros Hq s H. destruct (Hnew k s H) as [Hold|[Hge ->]]; [eauto|reflexivity].
Qed.

Lemma states_mark i st w : states (mark i st w) = alter (fun _ => st) i (states w).
Proof.
  unfold states, mark. cbn. apply list_eq. intros j.
  destruct (decide (i = j)) as [->|Hne].
  - rewrite list_lookup_fmap, !list_lookup_alter_eq, list_lookup_fmap.
    destruct (chain w !! j); reflexivity.
  - rewrite list_lookup_fmap, !list_lookup_alter_ne, list_lookup_fmap by exact Hne.
    reflexivity.
Qed.

Lemma chained_mark i st w : chained w -> chained (mark i st w).
Proof.
  intros [Ha Hs]. split; cbn.
  - rewrite length_alter. exact Ha.
  - intros j l. destruct (decide (i = j)) as [->|Hne].
    + rewrite list_lookup_alter_eq. destruct (chain w !! j) as [l0|] eqn:E; [|discriminate].
      intros [= <-]. cbn. eauto.
    + rewrite list_lookup_alter_ne by exact Hne. eauto.
Qed.

Lemma single_job {A : Type} (js1 js2 : list A) x y :
  js1 ++ x :: js2 = [y] -> js1 = [] /\ js2 = [] /\ x = y.
Proof.
  destruct js1 as [|a js1]; cbn.
  - intros [= -> ->]. auto.
  - intros [= _ H]. destruct js1; discriminate.
Qed.

Lemma outcome_try_finally (q : NavM AppHistoryEntry) : outcome (try_finally q decrement) = None.
Proof. destruct q; reflexivity. Qed.

(** A callback that may start is the first that has not returned, and no
    job is running. *)
Lemma start_is_front k st i l :
  Inv st -> Static k (world st) ->
  (jobs st = [] /\ (forall s, states (world st) !! k = Some s -> s = Queued)) \/
  (exists p, jobs st = [(k, p)] /\ states (world st) !! k = Some Started) ->
  chain (world st) !! i = Some l -> l_state l = Queued -> settled (world st) (l_source l) ->
  i = k /\ jobs st = [].
Proof.
  intros _ ((Ha & Hs) & _ & _ & Hlow & Hhigh) Hjobs Hl Hq Hset.
  assert (Hi : states (world st) !! i = Some Queued).
  { unfold states. rewrite list_lookup_fmap, Hl. cbn. rewrite Hq. reflexivity. }
  assert (Hge : ~ (i < k)%nat).
  { intros Hlt. destruct (Hlow i _ Hi Hlt) as [r Hr]. discriminate. }
  assert (Hsrc : forall j, i = Datatypes.S j -> exists r, states (world st) !! j = Some (Returned r)).
  { intros j ->. rewrite (Hs _ _ Hl) in Hset. cbn in Hset. destruct Hset as [r Hr].
    exists r. unfold states. rewrite list_lookup_fmap. exact Hr. }
  destruct Hjobs as [[Hj Hk]|(p & Hj & Hk)].
  - split; [|exact Hj].
    destruct (decide (i = k)) as [|Hne]; [assumption|exfalso].
    destruct i as [|j]; [lia|]. destruct (Hsrc j eq_refl) as [r Hr].
    destruct (decide (j = k)) as [->|Hne'].
    + specialize (Hk _ Hr). discriminate.
    + assert (Hlt : (k < j)%nat) by lia. specialize (Hhigh _ _ Hr Hlt). discriminate.
  - exfalso.
    destruct (decide (i = k)) as [->|Hne]; [congruence|].
    destruct i as [|j]; [lia|]. destruct (Hsrc j eq_refl) as [r Hr].
    destruct (decide (j = k)) as [->|Hne'].
    + congruence.
    + assert (Hlt : (k < j)%nat) by lia. specialize (Hhigh _ _ Hr Hlt). discriminate.
Qed.

Lemma static_mark_front k st w :
  states w !! k = Some Queued \/ states w !! k = Some Started ->
  Static k w -> Static k (mark k st w).
Proof.
  intros _ (Hc & Hmt & Hk & Hlow & Hhigh).
  refine (conj _ (conj _ (conj _ (conj _ _)))).
  - apply chained_mark, Hc.
  - exact Hmt.
  - cbn. rewrite length_alter. exact Hk.
  - intros i s. rewrite states_mark. intros H Hlt.
    rewrite list_lookup_alter_ne in H by lia. eauto.
  - intros i s. rewrite states_mark. intros H Hlt.
    rewrite list_lookup_alter_ne in H by lia. eauto.
Qed.

Lemma static_returned k r w :
  states w !! k = Some Started -> Static k w ->
  Static (Datatypes.S k) (mark k (Returned r) w) /\
  forall s, states (mark k (Returned r) w) !! Datatypes.S k = Some s -> s = Queued.
Proof.
  intros Hst (Hc & Hmt & Hk & Hlow & Hhigh).
  assert (Hlt : (k < length (chain w))%nat).
  { rewrite <- states_length. eapply lookup_lt_Some, Hst. }
  refine (conj (conj _ (conj _ (conj _ (conj _ _)))) _).
  - apply chained_mark, Hc.
  - exact Hmt.
  - cbn. rewrite length_alter. lia.
  - intros i s. rewrite states_mark. intros H Hi.
    destruct (decide (k = i)) as [<-|Hne].
    + rewrite list_lookup_alter_eq, Hst in H. cbn in H. injection H as <-. eauto.
    + rewrite list_lookup_alter_ne in H by exact Hne. apply (Hlow i s H). lia.
  - intros i s. rewrite states_mark. intros H Hi.
    rewrite list_lookup_alter_ne in H by lia. apply (Hhigh i s H). lia.
  - intros s. rewrite states_mark, list_lookup_alter_ne by lia. intros H.
    apply (Hhigh _ _ H). lia.
Qed.

(** A step of the job keeps the invariant. *)
Lemma phase_node k p p' w w' :
  Static k w -> states w !! k = Some Started ->
  Phase p (transitionInProgressCount w) -> node p w p' w' ->
  Static k w' /\ states w' !! k = Some Started /\ Phase p' (transitionInProgressCount w').
Proof.
  intros Hstatic Hk Hphase Hnode.
  assert (Hsame : forall w1, Grows w w1 ->
            Static k w1 /\ states w1 !! k = Some Started).
  { intros w1 Hg. destruct (static_grows k w w1 Hg Hstatic) as (H1 & H2 & _). auto. }
  remember (transitionInProgressCount w) as c eqn:Hc.
  destruct Hphase as [l|q Hq|q Hq|r].
  - unfold finished_callback in Hnode.
    destruct (l_nextTransition l) as [t|]; [|destruct Hnode].
    rewrite immediateTransition_unfold in Hnode. destruct Hnode as [-> ->].
    destruct (Hsame (set_transitionInProgressCount (transitionInProgressCount w + 1) w))
      as [H1 H2]; [apply same_chain_grows; reflexivity|].
    split; [exact H1|]. split; [exact H2|].
    replace (transitionInProgressCount
               (set_transitionInProgressCount (transitionInProgressCount w + 1) w))
      with 1 by (cbn; lia).
    apply phase_entered, keeps_leaves, serial_transition.
  - destruct Hnode as [-> ->]. split; [exact Hstatic|]. split; [exact Hk|].
    rewrite <- Hc. change (1 <? 1) with false. cbv iota. apply phase_held, Hq.
  - destruct q as [a|e|k0|g q|x k0]; cbn in Hnode.
    + destruct Hnode as [-> ->].
      destruct (Hsame (set_transitionInProgressCount (transitionInProgressCount w - 1) w))
        as [H1 H2]; [apply same_chain_grows; reflexivity|].
      split; [exact H1|]. split; [exact H2|].
      replace (transitionInProgressCount
                 (set_transitionInProgressCount (transitionInProgressCount w - 1) w))
        with 0 by (cbn; lia).
      exact (phase_done (inr a)).
    + destruct Hnode as [-> ->].
      destruct (Hsame (set_transitionInProgressCount (transitionInProgressCount w - 1) w))
        as [H1 H2]; [apply same_chain_grows; reflexivity|].
      split; [exact H1|]. split; [exact H2|].
      replace (transitionInProgressCount
                 (set_transitionInProgressCount (transitionInProgressCount w - 1) w))
        with 0 by (cbn; lia).
      exact (phase_done (inl e)).
    + destruct Hnode as [-> ->]. split; [exact Hstatic|]. split; [exact Hk|].
      rewrite <- Hc. apply phase_held, Hq.
    + destruct Hnode as [-> ->]. destruct Hq as [Hg Hq].
      destruct (Hsame (g w)) as [H1 H2]; [apply serial_grows, Hg|].
      split; [exact H1|]. split; [exact H2|].
      rewrite (ser_count _ _ (Hg w)), <- Hc. apply phase_held, Hq.
    + destruct Hnode as [-> [r ->]]. split; [exact Hstatic|]. split; [exact Hk|].
      rewrite <- Hc. apply phase_held, Hq.
  - destruct r; destruct Hnode.
Qed.

Lemma phase_outcome p c r : Phase p c -> outcome p = Some r -> c = 0.
Proof.
  intros Hphase. destruct Hphase as [l|q Hq|q Hq|r']; try reflexivity.
  - discriminate.
  - rewrite outcome_try_finally. discriminate.
Qed.

Lemma inv_step st st' : Inv st -> step st st' -> Inv st'.
Proof.
  intros HInv Hstep. pose proof HInv as (k & Hstatic & Hjobs).
  destruct Hstep as [c w js|i l w js Hl Hq Hset|i p p' w w' js1 js2 Hnode|i p r w js1 js2 Hout];
    cbn [world jobs] in *.
  - destruct (static_grows k w (perform c w) (enqueues_grows _ _ (perform_enqueues c w)) Hstatic)
      as (H1 & H2 & H3).
    exists k. split; [exact H1|]. cbn [world jobs].
    rewrite (enq_count _ _ (perform_enqueues c w)).
    destruct Hjobs as [(Hj & Hc & Hk)|(p & Hj & Hk & Hp)]; [left|right]; eauto.
  - assert (Hfront : i = k /\ js = []).
    { apply (start_is_front k {| world := w; jobs := js |} i l HInv Hstatic); cbn; auto.
      destruct Hjobs as [(Hj & Hc & Hk)|(p & Hj & Hk & Hp)]; [left|right]; eauto. }
    destruct Hfront as [-> ->].
    destruct Hjobs as [(_ & Hc & Hk)|(p & Hj & _)]; [|discriminate].
    assert (Hi : states w !! k = Some Queued).
    { unfold states. rewrite list_lookup_fmap, Hl. cbn. rewrite Hq. reflexivity. }
    exists k. split; [apply static_mark_front; auto|]. right.
    exists (finished_callback l). cbn [world jobs]. split; [reflexivity|]. split.
    + rewrite states_mark, list_lookup_alter_eq, Hi. reflexivity.
    + change (transitionInProgressCount (mark k Started w))
        with (transitionInProgressCount w).
      rewrite Hc. apply phase_fresh.
  - destruct Hjobs as [(Hj & _)|(p0 & Hj & Hk & Hp)].
    { destruct js1; discriminate. }
    apply single_job in Hj as (-> & -> & [= -> ->]).
    destruct (phase_node k p0 p' w w' Hstatic Hk Hp Hnode) as (H1 & H2 & H3).
    exists k. split; [exact H1|]. right. exists p'. cbn [world jobs]. auto.
  - destruct Hjobs as [(Hj & _)|(p0 & Hj & Hk & Hp)].
    { destruct js1; discriminate. }
    apply single_job in Hj as (-> & -> & [= -> ->]).
    pose proof (phase_outcome _ _ _ Hp Hout) as Hc.
    destruct (static_returned k r w Hk Hstatic) as [H1 H2].
    exists (Datatypes.S k). split; [exact H1|]. left. cbn [world jobs]. auto.
Qed.

Lemma inv_initial : Inv {| world := initial; jobs := [] |}.
Proof.
  exists 0%nat. split.
  - refine (conj (conj _ _) (conj _ (conj _ (conj _ _)))); cbn; try lia; try reflexivity;
      try (intros i ? H; destruct i; discriminate).
    intros H. inversion H.
  - left. split; [reflexivity|]. split; [reflexivity|]. intros s H. discriminate.
Qed.

Lemma inv_reachable st : reachable st -> Inv st.
Proof. induction 1; [apply inv_initial|eapply inv_step; eassumption]. Qed.

Lemma phase_count p c : Phase p c -> 0 <= c <= 1.
Proof. destruct 1; lia. Qed.

(** C1.  In every state the event loop of a new Navigator reaches, whatever
    the public operations, rollbacks and [transitionWhile] calls other code
    makes and however the awaited promises settle, the counter
    [#transitionInProgressCount] is 0 or 1, and [#immediateTransition] has
    never taken the branch that throws "Unexpected multiple
    transitions". *)
Theorem C1_one_transition_in_progress (st : Loop) :
  reachable st ->
  0 <= transitionInProgressCount (world st) <= 1 /\
  (MultipleTransitions ∉ log (world st)).
Proof.
  intros H. apply inv_reachable in H as (k & (_ & Hmt & _) & Hjobs). split; [|exact Hmt].
  destruct Hjobs as [(_ & -> & _)|(p & _ & _ & Hp)]; [lia|].
  eapply phase_count, Hp.
Qed.

(** The first callback of the Navigator that was asked [navigate("/a")],
    one step after it started: the counter is 1. *)
Definition first_link : Link :=
  {| l_source := None; l_navigationType := Str KPush; l_entry := entry_a;
     l_nextTransition := Some 0%nat; l_options := None; l_state := Queued |}.

Definition running : Loop :=
  {| world := set_transitionInProgressCount 1 (mark 0 Started requested);
     jobs := [(0%nat,
               Get (fun w => try_finally
                               (if 1 <? transitionInProgressCount w then tripped
                                else transition (Str KPush) entry_a (Some 0%nat) None)
                               decrement))] |}.

Lemma reachable_running : reachable running.
Proof.
  eapply reachable_step.
  - eapply reachable_step.
    + eapply reachable_step; [apply reachable_initial|].
      apply (step_call (call_navigate "/a" None)).
    + apply (step_start 0 first_link); [reflexivity|reflexivity|exact I].
  - apply (step_node 0 (finished_callback first_link) _ _ _ [] []).
    split; reflexivity.
Qed.

Lemma C1_one_transition_in_progress_witness :
  reachable running /\
  transitionInProgressCount (world running) = 1 /\
  0 <= transitionInProgressCount (world running) <= 1 /\
  (MultipleTransitions ∉ log (world running)).
Proof.
  split; [exact reachable_running|]. split; [reflexivity|].
  exact (C1_one_transition_in_progress running reachable_running).
Defined.

(** ** The theorems at work on example Navigators *)

Definition entry_b : AppHistoryEntry :=
  {| entry_id := 1; entry_key := 1; entry_url := Some "/b"; entry_sameDocument := true;
     entry_state := None |}.



Lemma C8_witness :
  (ids_below (nextId visited) (the_entries visited) /\ index_ok visited) /\
  threw (back None) visited /\ threw (forward None) visited /\
  threw (goTo 5 None) visited /\ accepted (goTo 0 None) visited /\
  accepted (reload None) visited.
Proof.
  assert (Hids : ids_below (nextId visited) (the_entries visited)).
  { vm_compute. repeat constructor. }
  assert (Hok : index_ok visited).
  { right.
    replace (currentIndex visited) with 0 by (vm_compute; reflexivity).
    replace (length (the_entries visited)) with 1%nat by (vm_compute; reflexivity).
    lia. }
  split; [split; assumption|].
  split; [exact (proj1 (proj1 (C8_synchronous_validation visited None 5%nat Hids Hok)) eq_refl)|].
  split; [exact (proj1 (proj1 (proj2 (C8_synchronous_validation visited None 5%nat Hids Hok)))
                   eq_refl)|].
  split; [exact (proj1 (proj1 (proj2 (proj2 (C8_synchronous_validation visited None 5%nat
                                               Hids Hok)))) eq_refl)|].
  split; [exact (proj2 (proj1 (proj2 (proj2 (C8_synchronous_validation visited None 0%nat
                                               Hids Hok)))) eq_refl)|].
  exact (proj2 (proj1 (proj2 (proj2 (proj2 (C8_synchronous_validation visited None 0%nat
                                               Hids Hok)))))
           (ex_intro _ entry_a eq_refl)).
Defined.

Lemma store_ok_visited : store_ok visited.
Proof. split; vm_compute; lia. Qed.

Lemma C10_witness :
  store_ok visited /\
  exists l w',
    run_sync entries visited = Some (w', inr l) /\
    the_array l w' = [entry_a] /\
    the_entries (write_array l [] w') = [entry_a].
Proof.
  split; [exact store_ok_visited|].
  destruct (C10_entries_returns_a_copy visited [] store_ok_visited)
    as (l & w' & H1 & H2 & _ & _ & _ & H3 & _).
  exists l, w'. split; [exact H1|]. split; [exact H2|exact H3].
Defined.

(** A Navigator that knows an entry whose key has left the sequence. *)
Definition crowded : World :=
  set_store
    {| arrays := [[entry_b]]; sets := [[entry_a; entry_b]]; controllers := [];
       subops := []; transitions := [] |}
    (set_currentIndex 0 (set_nextId 2 initial)).


(** ** More about the Navigator *)

(** One job at most; the callbacks before it have returned and those after
    it are queued; with no job the counter is 0. *)
Definition serialized (st : Loop) : Prop :=
  (length (jobs st) <= 1)%nat /\
  (jobs st = [] -> transitionInProgressCount (world st) = 0) /\
  forall i p, (i, p) ∈ jobs st ->
    states (world st) !! i = Some Started /\
    (forall j s, states (world st) !! j = Some s -> (j < i)%nat -> exists r, s = Returned r) /\
    (forall j s, states (world st) !! j = Some s -> (i < j)%nat -> s = Queued).

(** X1.  The transitions of a Navigator run one at a time and in the order
    their requests were accepted: in every state the event loop reaches at
    most one callback of a [finished] promise has started and not returned;
    every callback chained before it has returned, every one after it is
    still queued. *)
Theorem transitions_run_in_request_order (st : Loop) :
  reachable st -> serialized st.
Proof.
  intros H. apply inv_reachable in H as (k & (_ & _ & _ & Hlow & Hhigh) & Hjobs).
  destruct Hjobs as [(Hj & Hc & _)|(p & Hj & Hk & _)]; unfold serialized; rewrite Hj.
  - split; [cbn; lia|]. split; [auto|]. intros i p H. inversion H.
  - split; [cbn; lia|]. split; [discriminate|].
    intros i q H. apply list_elem_of_singleton in H. injection H as -> ->. auto.
Qed.

Lemma transitions_run_in_request_order_witness :
  reachable running /\ serialized running.
Proof.
  split; [exact reachable_running|].
  exact (transitions_run_in_request_order running reachable_running).
Defined.

(** X2.  Every [finished] promise is chained on the one of the request
    accepted before it (the first on [Promise.resolve(entry)]), and
    [#activePromise] is the last of them: in every state the event loop
    reaches. *)
Theorem finished_promises_form_a_chain (st : Loop) :
  reachable st -> chained (world st).
Proof. intros H. apply inv_reachable in H as (k & (Hc & _) & _). exact Hc. Qed.

Lemma finished_promises_form_a_chain_witness :
  reachable running /\ chained (world running).
Proof.
  split; [exact reachable_running|].
  exact (finished_promises_form_a_chain running reachable_running).
Defined.

(** X3.  The getters: [canGoBack] is true exactly when there is an entry
    before the current index, [canGoForward] (the index being that of an
    entry, or [-1] with no entries) exactly when there is one after it, and
    [current] is the entry at the index; on a Navigator with no entries the
    first two are false and [current] is [undefined]. *)
Theorem getters_follow_the_index (w : World) :
  index_ok w ->
  (canGoBack w = true <-> is_Some (at_index (the_entries w) (currentIndex w - 1))) /\
  (canGoForward w = true <-> is_Some (at_index (the_entries w) (currentIndex w + 1))) /\
  current w = at_index (the_entries w) (currentIndex w) /\
  (the_entries w = [] -> canGoBack w = false /\ canGoForward w = false /\ current w = None).
Proof.
  intros Hok. split; [|split; [|split]].
  - rewrite canGoBack_spec. apply bool_decide_eq_true.
  - rewrite canGoForward_spec by exact Hok. apply bool_decide_eq_true.
  - unfold current. destruct (currentIndex w =? -1) eqn:E; [|reflexivity].
    apply Z.eqb_eq in E. rewrite E. reflexivity.
  - intros Hnil. rewrite canGoBack_spec, canGoForward_spec by exact Hok.
    unfold current. rewrite Hnil.
    assert (Hnone : forall i, at_index ([] : list AppHistoryEntry) i = None).
    { intros i. unfold at_index. destruct (i <? 0); reflexivity. }
    rewrite !Hnone. destruct (currentIndex w =? -1); repeat split.
Qed.

Lemma index_ok_visited : index_ok visited.
Proof.
  right.
  replace (currentIndex visited) with 0 by (vm_compute; reflexivity).
  replace (length (the_entries visited)) with 1%nat by (vm_compute; reflexivity).
  lia.
Qed.

Lemma getters_follow_the_index_witness :
  index_ok visited /\
  canGoBack visited = false /\ canGoForward visited = false /\ current visited = Some entry_a.
Proof.
  split; [exact index_ok_visited|].
  pose proof (getters_follow_the_index visited index_ok_visited) as (_ & _ & H & _).
  split; [reflexivity|]. split; [reflexivity|]. rewrite H. reflexivity.
Defined.

(** X4.  [navigate] and [updateCurrent] have no precondition: the entry
    they make is new, so [#pushEntry] accepts it and they return their pair
    of promises; [updateCurrent] also when there is no current entry. *)
Theorem navigate_and_updateCurrent_are_accepted (w : World) (url : string)
    (options : option Options) (update : Options) :
  ids_below (nextId w) (the_entries w) ->
  accepted (navigate url options) w /\ accepted (updateCurrent update) w.
Proof.
  intros Hids. split.
  - unfold accepted, navigate. rewrite sync_bind, createAppHistoryEntry_sync.
    apply accepted_push. simpl. apply ids_below_fresh, Hids.
  - unfold accepted, updateCurrent. rewrite sync_bind. cbn -[cloneAppHistoryEntry pushEntry].
    apply (accepted_clone _ _ _ _ _ _ Hids).
Qed.

Lemma navigate_and_updateCurrent_are_accepted_witness :
  ids_below (nextId initial) (the_entries initial) /\
  current initial = None /\
  accepted (navigate "/a" None) initial /\ accepted (updateCurrent no_options) initial.
Proof.
  assert (H : ids_below (nextId initial) (the_entries initial)) by constructor.
  split; [exact H|]. split; [reflexivity|].
  exact (navigate_and_updateCurrent_are_accepted initial "/a" None no_options H).
Defined.

Lemma filter_filter_same {A : Type} (f : A -> bool) (l : list A) :
  List.filter f (List.filter f l) = List.filter f l.
Proof.
  induction l as [|x l IH]; simpl; [reflexivity|].
  destruct (f x) eqn:E; simpl; rewrite ?E, IH; reflexivity.
Qed.

Lemma filter_filter_negb {A : Type} (f : A -> bool) (l : list A) :
  List.filter (fun x => negb (f x)) (List.filter f l) = [].
Proof.
  induction l as [|x l IH]; simpl; [reflexivity|].
  destruct (f x) eqn:E; simpl; rewrite ?E; simpl; exact IH.
Qed.

(** X5.  A second sweep does nothing: when [#dispose] has run (its
    notifications delivered), running it again removes no entry from the
    known set and dispatches no [dispose] notification. *)
Theorem dispose_after_dispose (o : NavOracle) (n m : nat) (w : World) :
  (forall k x, quiet_dispose x (o k x)) ->
  store_ok w -> unique_ids (the_known w) ->
  snd (exec perform dispose o m (fst (exec perform dispose o n w))) = inr tt /\
  the_known (fst (exec perform dispose o m (fst (exec perform dispose o n w))))
    = the_known (fst (exec perform dispose o n w)) /\
  engine_log (log (fst (exec perform dispose o m (fst (exec perform dispose o n w)))))
    = engine_log (log (fst (exec perform dispose o n w))).
Proof.
  intros Hq Hok Hu.
  pose proof (wp_sound perform quiet_dispose dispose _ o n w Hq (dispose_spec w Hok Hu)) as H.
  cbn beta in H. destruct H as (_ & Hok1 & He1 & _ & Hk1 & _).
  set (w1 := fst (exec perform dispose o n w)) in *.
  assert (Hu1 : unique_ids (the_known w1)) by (rewrite Hk1; apply filter_unique, Hu).
  pose proof (wp_sound perform quiet_dispose dispose _ o m w1 Hq (dispose_spec w1 Hok1 Hu1)) as H.
  cbn beta in H. destruct H as (Hr & _ & _ & _ & Hk2 & Hl2).
  assert (Hkeep : forall e, keep w1 e = keep w e).
  { intros e. unfold keep. rewrite He1. reflexivity. }
  split; [exact Hr|]. split.
  - rewrite Hk2, Hk1. rewrite (List.filter_ext _ _ Hkeep). apply filter_filter_same.
  - rewrite Hl2, Hk1.
    rewrite (List.filter_ext (fun e => negb (keep w1 e)) (fun e => negb (keep w e)))
      by (intros e; rewrite Hkeep; reflexivity).
    rewrite filter_filter_negb. cbn. apply app_nil_r.
Qed.

Lemma dispose_after_dispose_witness :
  ((forall (k : nat) x, quiet_dispose x (react [] x)) /\ store_ok crowded /\
   unique_ids (the_known crowded)) /\
  the_known (fst (exec perform dispose (fun _ w => react [] w) 0 crowded)) = [entry_b] /\
  the_known (fst (exec perform dispose (fun _ w => react [] w) 0
                    (fst (exec perform dispose (fun _ w => react [] w) 0 crowded))))
    = the_known (fst (exec perform dispose (fun _ w => react [] w) 0 crowded)).
Proof.
  assert (Hq : forall (m : nat) x, quiet_dispose x (react [] x)).
  { intros _ [| |tgt ev| | |]; cbn; auto. destruct ev; exact I. }
  assert (Hok : store_ok crowded) by (split; vm_compute; lia).
  assert (Hu : unique_ids (the_known crowded)).
  { vm_compute. repeat constructor; rewrite list_elem_of_In; cbn; lia. }
  split; [auto|]. split; [vm_compute; reflexivity|].
  exact (proj1 (proj2 (dispose_after_dispose (fun _ w => react [] w) 0 0 crowded Hq Hok Hu))).
Defined.

(** The argument [completeTransition] gives to
    [createAppHistoryTransition]. *)
Definition create_input (ty : InternalAppHistoryNavigationType) (e : AppHistoryEntry)
    (o : option Options) (cur : option AppHistoryEntry) (c ct : nat) (w : World)
  : CreateInput :=
  {| ci_current := cur; ci_currentIndex := currentIndex w;
     ci_abortController := c; ci_entries := the_entries w;
     ci_entry := e; ci_options := o;
     ci_navigationType := ty; ci_transition := ct;
     ci_known := the_known w |}.

(** X7.  A transition whose controller is aborted while it awaits
    [createAppHistoryTransition] (a request was accepted in the meantime)
    stops at the first check of the signal: it throws, the
    [InvalidStateError] "Aborted" when the awaited promise was fulfilled;
    it has dispatched no event, and the entries, the index and the known
    set are what they were. *)
Theorem aborted_before_the_commit (o : NavOracle) (n : nat) (w : World)
    (ty : InternalAppHistoryNavigationType) (e : AppHistoryEntry) (opts : option Options)
    (cur : option AppHistoryEntry) (c ct : nat) :
  store_ok w ->
  aborted c (during perform (o n (WCreate (create_input ty e opts cur c ct w))) w) = true ->
  (exists err, snd (exec perform (commit_path ty e opts cur c ct) o n w) = inl err) /\
  (is_fulfilled (answer (o n (WCreate (create_input ty e opts cur c ct w)))) ->
   snd (exec perform (commit_path ty e opts cur c ct) o n w)
     = inl (InvalidStateError "Aborted")) /\
  the_entries (fst (exec perform (commit_path ty e opts cur c ct) o n w)) = the_entries w /\
  currentIndex (fst (exec perform (commit_path ty e opts cur c ct) o n w)) = currentIndex w /\
  the_known (fst (exec perform (commit_path ty e opts cur c ct) o n w)) = the_known w /\
  engine_log (log (fst (exec perform (commit_path ty e opts cur c ct) o n w)))
    = engine_log (log w).
Proof.
  intros Hok Hab.
  set (rc := o n (WCreate (create_input ty e opts cur c ct w))) in *.
  assert (Hrun : exec perform (commit_path ty e opts cur c ct) o n w =
                 (during perform rc w,
                  match answer rc with
                  | inl err => inl err
                  | inr _ => inl (InvalidStateError "Aborted")
                  end)).
  { unfold commit_path. rewrite !exec_mbind. cbn -[during].
    fold (create_input ty e opts cur c ct w). fold rc.
    destruct (answer rc) as [err|res]; cbn -[during]; [reflexivity|].
    rewrite Hab. reflexivity. }
  rewrite Hrun. cbn [fst snd].
  pose proof (during_extends _ rc w) as Hext.
  split; [destruct (answer rc); eauto|].
  split; [destruct (answer rc) as [err|res]; [intros []|reflexivity]|].
  split; [apply extends_the_entries; assumption|].
  split; [apply Hext|]. split; [apply extends_the_known, Hext|apply Hext].
Qed.

(** The events of a transition that commits, in their order: [navigatefrom]
    on the entry that was current, [navigate], the assignment of the three
    fields, [currentchange], [navigateto], [finish], [navigatesuccess]. *)
Definition lifecycle (ty : InternalAppHistoryNavigationType) (e : AppHistoryEntry)
    (cur : option AppHistoryEntry) : list LogItem :=
  (if is_string ty || is_Rollback ty
   then match cur with
        | Some c => [Dispatched (OnEntry c) navigatefrom]
        | None => []
        end
   else [])
  ++ (if is_string ty then [Dispatched OnNavigator navigate_event] else [])
  ++ [Mutated]
  ++ (if entry_sameDocument e then [Dispatched OnNavigator currentchange] else [])
  ++ (if is_string ty
      then [Dispatched (OnEntry e) navigateto; Dispatched (OnEntry e) finish;
            Dispatched OnNavigator navigatesuccess]
      else []).

Lemma wp_mutated c w0 L {B : Type} (k : unit -> NavM B) (F : B -> World -> Prop) w :
  At c w0 L [] w ->
  (forall w', At c w0 (L ++ [Mutated]) [] w' -> wpa (k tt) (on_success F) w') ->
  wpa (modify (add_log Mutated) ≫= k) (on_success F) w.
Proof.
  intros HAt Hk. apply wp_modify_seq, Hk.
  apply (at_logged c w0 L [] Mutated _ _ eq_refl (reflexivity _) HAt).
Qed.

Ltac mstep c HAt :=
  apply (wp_mutated c _ _ _ _ _ HAt); clear HAt;
  let w' := fresh "w" in intros w' HAt.

Ltac pstep c HAt :=
  first [ lstep c HAt | cstep c HAt | mstep c HAt | gstep c HAt ].

Lemma commit_path_lifecycle c w0 ty e o cur ct w :
  At c w0 [] [] w ->
  wpa (commit_path ty e o cur c ct)
    (on_success (fun x w' => x = e /\ At c w0 (lifecycle ty e cur) [] w')) w.
Proof.
  intros HAt. unfold commit_path, lifecycle.
  destruct ty as [k| | |], cur as [c0|], (entry_sameDocument e);
    cbv beta iota delta [when is_string is_Rollback orb];
    repeat pstep c HAt; cbn; (split; [reflexivity|exact HAt]).
Qed.

Lemma extends_current w w' : store_ok w -> Extends w w' -> current w' = current w.
Proof.
  intros Hok H. unfold current.
  rewrite (ext_currentIndex _ _ H), (extends_the_entries _ _ Hok H). reflexivity.
Qed.

Lemma transition_lifecycle ty e t o w0 :
  Idle w0 -> store_ok w0 -> restores ty o = false ->
  wpa (transition ty e (Some t) o)
    (on_success (fun x w' => x = e /\ Trace w0 (lifecycle ty e (current w0)) w')) w0.
Proof.
  intros Hidle Hok Hres. unfold transition, transition_.
  apply wp_tick_seq. intros rc.
  pose proof (during_extends _ rc w0) as Hext.
  assert (Hidle1 : Idle (during perform rc w0)).
  { revert Hidle. apply (during_keeps perform StaysIdle); try apply _. apply perform_idle. }
  pose proof (extends_current _ _ Hok Hext) as Hcur.
  set (w1 := during perform rc w0) in *.
  apply wp_get_seq. rewrite Hcur. apply wp_new_AbortController_seq.
  set (c := length (controllers (store w1))).
  match goal with |- wpa _ _ ?s => set (w3 := s) end.
  assert (HAt : At c w0 [] [] w3).
  { destruct Hidle1 as [H1 H2]. split.
    - repeat split.
      + unfold w3. cbn. rewrite length_app. cbn. unfold c. lia.
      + unfold w3. cbn. rewrite !length_app. cbn. lia.
      + intros c' p Hin. unfold w3 in *. cbn in *. rewrite length_app.
        specialize (H2 c' p Hin). lia.
      + intros p Hin. unfold w3 in Hin. cbn in Hin. specialize (H2 c p Hin).
        unfold c in H2. lia.
    - destruct (ext_log _ _ Hext) as [k Hk]. exists k. split; [exact Hk|].
      apply sublist_nil_l. }
  clearbody w3. clear Hidle Hidle1 Hext Hcur.
  do 5 (apply (wp_steps_mbind _ _ (Run c));
        [apply _|apply _|intros; apply perform_run
        |unfold createRollback, new_array, new_AppHistoryTransition; run_steps|];
        let a := fresh "a" in let w' := fresh "w" in let HR := fresh "HR" in
        intros a w' HR; apply (at_run _ _ _ _ _ _ HR) in HAt; clear HR).
  apply wp_try_finally, wp_try_catch.
  assert (Hcomplete : forall cur ct,
            completeTransition ty e o cur c ct = commit_path ty e o cur c ct).
  { intros cur ct. unfold completeTransition. unfold restores in Hres.
    destruct (is_Unset ty); [|reflexivity].
    destruct (o ≫= opt_index); [|reflexivity].
    destruct (o ≫= opt_entries); [discriminate|reflexivity]. }
  rewrite Hcomplete.
  eapply wp_mono; [|apply (commit_path_lifecycle c w0 _ _ _ _ _ _ HAt)].
  intros [err|x] w' H.
  - eapply wp_mono; [|apply catch_block_throws].
    intros [e'|x] w'' Hf; [|destruct Hf].
    eapply wp_mono; [|apply wp_true]. intros [?|?] ? _; exact I.
  - destruct H as [-> HAt'].
    eapply wp_mono; [|apply (keeps_wp perform any (Run c)); try apply _;
                      [intros; apply perform_run|apply run_keeps_finally_block]].
    intros [?|[]] w'' HR; [exact I|].
    apply (at_run _ _ _ _ _ _ HR) in HAt'. destruct HAt' as [_ HT].
    split; [reflexivity|exact HT].
Qed.

(** X8.  The events of a transition come in one order.  When
    [#transition] returns its entry (the kind being no [Unset] with a
    snapshot), it has, in this order: dispatched [navigatefrom] on the entry
    that was current (string kinds and [Rollback], when there was one),
    dispatched [navigate] (string kinds), assigned the known set, the
    entries and the index, dispatched [currentchange] (same-document entry),
    and, for a string kind, [navigateto], [finish] and [navigatesuccess]. *)
Theorem events_of_a_transition_in_order (o : NavOracle) (n : nat) (w : World)
    (ty : InternalAppHistoryNavigationType) (e : AppHistoryEntry) (t : nat)
    (opts : option Options) (x : AppHistoryEntry) :
  Idle w -> store_ok w -> restores ty opts = false ->
  snd (exec perform (transition ty e (Some t) opts) o n w) = inr x ->
  x = e /\
  Trace w (lifecycle ty e (current w))
    (fst (exec perform (transition ty e (Some t) opts) o n w)).
Proof.
  intros Hidle Hok Hres Hx.
  pose proof (wp_sound perform any _ _ o n w (fun _ _ => I)
                (transition_lifecycle ty e t opts w Hidle Hok Hres)) as H.
  rewrite Hx in H. exact H.
Qed.

(** ** [get transition()] *)

Lemma wp_and {A : Type} allowed (p : NavM A) (Q1 Q2 : Error + A -> World -> Prop) w :
  wp perform allowed p Q1 w -> wp perform allowed p Q2 w ->
  wp perform allowed p (fun r w' => Q1 r w' /\ Q2 r w') w.
Proof.
  revert w. induction p as [a|e|k IH|g p IH|x k IH]; intros w; cbn; auto.
Qed.

(** [#activeTransition] is [undefined] or the transition [ct], once it
    was. *)
Definition ActiveIs (ct : nat) (w w' : World) : Prop :=
  activeTransition w = None \/ activeTransition w = Some ct ->
  activeTransition w' = None \/ activeTransition w' = Some ct.

#[local] Instance ActiveIs_refl ct : Reflexive (ActiveIs ct).
Proof. intros w H. exact H. Qed.
#[local] Instance ActiveIs_trans ct : Transitive (ActiveIs ct).
Proof. intros a b c H1 H2 H. auto. Qed.

Definition SameActive (w w' : World) : Prop := activeTransition w' = activeTransition w.

#[local] Instance SameActive_refl : Reflexive SameActive.
Proof. intros w. reflexivity. Qed.
#[local] Instance SameActive_trans : Transitive SameActive.
Proof. intros a b c H1 H2. unfold SameActive in *. congruence. Qed.

Lemma perform_same_active a w : SameActive w (perform a w).
Proof. apply (ext_activeTransition _ _ (perform_extends a w)). Qed.

Lemma perform_active_is ct a w : ActiveIs ct w (perform a w).
Proof. intros H. rewrite (perform_same_active a w). exact H. Qed.

Ltac active_step :=
  let s := fresh "s" in
  let H := fresh "H" in
  intros s H; cbn; first [exact H | right; reflexivity].

Ltac active_keeps := keeps_with ltac:(idtac; active_step).

Lemma active_dispose ct : Keeps (ActiveIs ct) dispose.
Proof.
  unfold dispose. apply keeps_mbind; [active_keeps|intros members].
  apply keeps_for_of. intros e. unfold dispose_body, dispatchEvent. active_keeps.
Qed.

Lemma same_active_dispose : Keeps SameActive dispose.
Proof.
  unfold dispose. apply keeps_mbind; [keeps_with ltac:(idtac; intros ?; reflexivity)|].
  intros members. apply keeps_for_of. intros e. unfold dispose_body, dispatchEvent.
  keeps_with ltac:(idtac; intros ?; reflexivity).
Qed.

Lemma active_body o ty e cur c ct rb :
  Keeps (ActiveIs ct)
    (try_catch (completeTransition ty e o cur c ct)
       (catch_block ty
          (call_rollback (fun ty e tr o => inr <$> spawn (transition_ 0 ty e tr o)) rb None))).
Proof.
  apply keeps_try_catch.
  - unfold completeTransition, restore_path, commit_path, assign_known, assign_entries,
      check_aborted, await_captured, dispatchEvent.
    destruct (is_Unset ty); [destruct (o ≫= opt_index)|];
      [destruct (o ≫= opt_entries)| |].
    all: repeat first
      [ apply active_dispose
      | solve [active_keeps]
      | apply keeps_mbind; [|intros ?] ].
  - intros error. unfold catch_block.
    apply keeps_mbind; [|intros ?; constructor].
    unfold when. destruct (_ && _); [|constructor].
    apply keeps_mbind; [|intros ?; unfold dispatchEvent; active_keeps].
    destruct (negb _); [|constructor].
    apply keeps_mbind; [active_keeps|intros ?].
    apply keeps_mbind; [|intros ?; active_keeps].
    unfold call_rollback.
    apply keeps_mbind;
      [unfold cloneAppHistoryEntry, createAppHistoryEntry; active_keeps|intros entry].
    apply keeps_mbind; [unfold createAppHistoryEntry; active_keeps|intros resolved].
    rewrite spawn_transition. active_keeps.
Qed.

Definition Start (o : option Options) (w w' : World) : Prop :=
  Eng o w w' /\ SameActive w w'.

#[local] Instance Start_refl o : Reflexive (Start o).
Proof. intros w. split; reflexivity. Qed.
#[local] Instance Start_trans o : Transitive (Start o).
Proof. intros a b c [H1 H2] [H3 H4]. split; etransitivity; eassumption. Qed.

Lemma perform_start o a w : Start o w (perform a w).
Proof. split; [apply perform_good|apply perform_same_active]. Qed.

Ltac start_steps :=
  steps_with ltac:(idtac; let s := fresh "s" in
                   intros s; split; [revert s; good_step|reflexivity]).

Lemma transition_clears_active o ty e t w :
  Good o w -> activeTransition w = None ->
  wp perform quiet_dispose (transition ty e (Some t) o)
    (fun _ w' => activeTransition w' = None) w.
Proof.
  intros Hgood Hact. unfold transition, transition_.
  repeat (apply (wp_steps_mbind _ _ (Start o));
          [apply _|apply _|apply perform_start|start_steps|];
          let a := fresh "a" in let s' := fresh "s" in let H := fresh "H" in
          intros a s' [H H']; apply H in Hgood; rewrite <- H' in Hact; clear H H').
  apply wp_try_finally.
  match goal with
  | |- wp _ _ (try_catch (completeTransition _ _ _ ?cur ?c ?ct) (catch_block _ (call_rollback _ ?rb None))) _ ?s =>
      eapply wp_mono;
        [|apply wp_and;
          [apply (keeps_wp perform quiet_dispose (Eng o)); try apply _;
           [apply perform_good
           |apply keeps_try_catch; [apply keeps_completeTransition|];
            intros error; apply keeps_catch_block;
            exact (keeps_rollbackImmediately o 0 rb)]
          |apply (keeps_wp perform quiet_dispose (ActiveIs ct)); try apply _;
           [apply perform_active_is|exact (active_body o ty e cur c ct rb)]]];
      intros r z1 [HG HA]; apply HG in Hgood; specialize (HA (or_introl Hact));
      destruct Hgood as (Hok & Hu & _); cbn beta; unfold finally_block; apply wp_mbind;
      eapply wp_mono;
        [|apply wp_and;
          [apply (dispose_spec z1 Hok Hu)
          |apply (keeps_wp perform quiet_dispose SameActive); try apply _;
           [apply perform_same_active|apply same_active_dispose]]];
      intros r' z2 [(-> & _) HS]; unfold SameActive in HS; cbn; rewrite HS;
      case_bool_decide as Hd; cbn
  end.
  - destruct r; reflexivity.
  - destruct HA as [HA|HA]; [|contradiction]. rewrite HS. destruct r; exact HA.
Qed.

(** X9.  [get transition()] is [undefined] again when a transition is
    over: a run of [#transition] that starts with no active transition
    ends with none, whether it returns or throws (the environment being
    one that delivers the [dispose] notifications). *)
Theorem no_active_transition_after_the_run (o : NavOracle) (n : nat) (w : World)
    (navigationType : InternalAppHistoryNavigationType) (entry : AppHistoryEntry)
    (t : nat) (options : option Options) :
  (forall m x, quiet_dispose x (o m x)) ->
  store_ok w -> unique_ids (the_known w) -> opts_ok options w ->
  get_transition w = None ->
  get_transition
    (fst (exec perform (transition navigationType entry (Some t) options) o n w)) = None.
Proof.
  intros Hq Hok Hu Ho Hact.
  apply (wp_sound perform quiet_dispose _ (fun _ w' => activeTransition w' = None) o n w Hq).
  apply transition_clears_active; [repeat split; try apply Hok; assumption|exact Hact].
Qed.

(** ** The theorems above at work *)

(** While the transition awaits [createAppHistoryTransition], other code
    calls [navigate("/b")]. *)
Definition superseding : NavOracle := fun _ w =>
  match w with
  | WCreate _ => react [call_navigate "/b" None] w
  | _ => react [] w
  end.

Lemma aborted_before_the_commit_witness :
  (store_ok visited /\
   aborted 0
     (during perform
        (superseding 0%nat
           (WCreate (create_input (Str KPush) entry_b None (Some entry_a) 0 1 visited)))
        visited) = true) /\
  snd (exec perform (commit_path (Str KPush) entry_b None (Some entry_a) 0 1)
         superseding 0 visited) = inl (InvalidStateError "Aborted") /\
  the_entries (fst (exec perform (commit_path (Str KPush) entry_b None (Some entry_a) 0 1)
                      superseding 0 visited)) = the_entries visited.
Proof.
  assert (Hab : aborted 0
     (during perform
        (superseding 0%nat
           (WCreate (create_input (Str KPush) entry_b None (Some entry_a) 0 1 visited)))
        visited) = true) by (vm_compute; reflexivity).
  split; [split; [exact store_ok_visited|exact Hab]|].
  pose proof (aborted_before_the_commit superseding 0 visited (Str KPush) entry_b None
                (Some entry_a) 0%nat 1%nat store_ok_visited Hab) as (_ & H1 & H2 & _).
  split; [apply H1; exact I|exact H2].
Defined.

Lemma idle_visited : Idle visited.
Proof.
  split; [reflexivity|]. intros c p Hin. vm_compute in Hin.
  repeat (apply elem_of_cons in Hin as [Hin|Hin]; [discriminate|]). inversion Hin.
Qed.

Lemma events_of_a_transition_in_order_witness :
  (Idle visited /\ store_ok visited /\ restores (Str KPush) None = false /\
   snd (exec perform (transition (Str KPush) entry_b (Some 1%nat) None)
          (fun _ w => react [] w) 0 visited) = inr entry_b) /\
  Trace visited
    [Dispatched (OnEntry entry_a) navigatefrom; Dispatched OnNavigator navigate_event;
     Mutated; Dispatched OnNavigator currentchange; Dispatched (OnEntry entry_b) navigateto;
     Dispatched (OnEntry entry_b) finish; Dispatched OnNavigator navigatesuccess]
    (fst (exec perform (transition (Str KPush) entry_b (Some 1%nat) None)
            (fun _ w => react [] w) 0 visited)).
Proof.
  assert (Hx : snd (exec perform (transition (Str KPush) entry_b (Some 1%nat) None)
                      (fun _ w => react [] w) 0 visited) = inr entry_b)
    by (vm_compute; reflexivity).
  split; [split; [apply idle_visited|split; [apply store_ok_visited|split;
    [reflexivity|exact Hx]]]|].
  exact (proj2 (events_of_a_transition_in_order (fun _ w => react [] w) 0 visited (Str KPush)
                  entry_b 1%nat None entry_b idle_visited store_ok_visited eq_refl Hx)).
Defined.

Lemma no_active_transition_after_the_run_witness :
  ((forall (m : nat) x, quiet_dispose x (react [] x)) /\ store_ok visited /\
   unique_ids (the_known visited) /\ opts_ok None visited /\ get_transition visited = None) /\
  get_transition
    (fst (exec perform (transition (Str KPush) entry_b (Some 1%nat) None)
            (fun _ w => react [] w) 0 visited)) = None.
Proof.
  assert (Hq : forall (m : nat) x, quiet_dispose x (react [] x)).
  { intros _ [| |tgt ev| | |]; cbn; auto. destruct ev; exact I. }
  assert (Hu : unique_ids (the_known visited)).
  { vm_compute. repeat constructor. rewrite list_elem_of_In. cbn. tauto. }
  assert (Ho : opts_ok None visited) by (intros l H; discriminate).
  split; [split; [exact Hq|split; [apply store_ok_visited|split; [exact Hu|split;
    [exact Ho|reflexivity]]]]|].
  exact (no_active_transition_after_the_run (fun _ w => react [] w) 0 visited (Str KPush)
           entry_b 1%nat None Hq store_ok_visited Hu Ho eq_refl).
Defined.

(** ** The transition of a rollback that carries a snapshot *)

(** The invariant of the protocol, and the arrays made so far stay. *)
Definition Snap (o : option Options) (w w' : World) : Prop :=
  Eng o w w' /\ arrays (store w) `prefix_of` arrays (store w').

#[local] Instance Snap_refl o : Reflexive (Snap o).
Proof. intros w. split; reflexivity. Qed.
#[local] Instance Snap_trans o : Transitive (Snap o).
Proof. intros a b c [H1 H2] [H3 H4]. split; etransitivity; eassumption. Qed.

Lemma perform_snap o a w : Snap o w (perform a w).
Proof. split; [apply perform_good|apply (ext_arrays _ _ (perform_extends a w))]. Qed.

Ltac snap_steps :=
  steps_with ltac:(idtac; let s := fresh "s" in
                   intros s; split;
                   [revert s; good_step
                   |cbn; first [reflexivity|apply prefix_app_r; reflexivity]]).

Lemma transition_restores o e t index l w :
  Good o w -> o ≫= opt_index = Some index -> o ≫= opt_entries = Some l ->
  wp perform quiet_dispose (transition Unset e (Some t) o)
    (fun r w' => r = inr e /\ the_entries w' = the_array l w /\ currentIndex w' = index) w.
Proof.
  intros Hgood Hindex Hentries.
  assert (Hl : (l < length (arrays (store w)))%nat).
  { destruct Hgood as (_ & _ & Ho). apply Ho, Hentries. }
  enough (Hgen : forall s, Good o s -> arrays (store w) `prefix_of` arrays (store s) ->
            wp perform quiet_dispose (transition Unset e (Some t) o)
              (fun r w' => r = inr e /\ the_entries w' = the_array l w /\
                           currentIndex w' = index) s)
    by (apply Hgen; [exact Hgood|reflexivity]).
  clear Hgood. intros s Hgood Hpre. unfold transition, transition_.
  repeat (apply (wp_steps_mbind _ _ (Snap o));
          [apply _|apply _|apply perform_snap|snap_steps|];
          let a := fresh "a" in let s' := fresh "s" in let H := fresh "H" in
          let H' := fresh "HP" in
          intros a s' [H H']; apply H in Hgood;
          assert (arrays (store w) `prefix_of` arrays (store s')) as Hpre'
            by (etransitivity; eassumption);
          clear H H' Hpre; rename Hpre' into Hpre).
  apply wp_try_finally, wp_try_catch.
  unfold completeTransition. cbn [is_Unset]. rewrite Hindex, Hentries.
  unfold restore_path, assign_known.
  match goal with
  | |- wp _ _ _ _ ?s0 =>
      assert (Hsnap : the_array l s0 = the_array l w) by (apply the_array_prefix; assumption);
      assert (Hl0 : (l < length (arrays (store s0)))%nat)
        by (destruct Hpre as [k ->]; rewrite length_app; lia)
  end.
  destruct Hgood as ((Ha & Hk) & Hu & Ho).
  destruct (o ≫= opt_known) as [known|]; cbn -[dispose].
  all: unfold finally_block; apply wp_mbind.
  all: match goal with
       | |- wp _ _ dispose _ ?s1 =>
           assert (Hok1 : store_ok s1)
             by (split; cbn; rewrite ?length_app; cbn; lia);
           assert (Hu1 : unique_ids (the_known s1))
             by (unfold the_known, the_set; cbn;
                 first [ rewrite lookup_app_r by lia; rewrite Nat.sub_diag; cbn;
                         apply set_union_unique
                       | exact Hu ]);
           assert (He1 : the_entries s1 = the_array l w)
             by (rewrite <- Hsnap; unfold the_entries, the_array; cbn;
                 rewrite ?lookup_app_l by lia; reflexivity);
           assert (Hi1 : currentIndex s1 = index) by reflexivity;
           eapply wp_mono; [|apply (dispose_spec s1 Hok1 Hu1)]
       end.
  all: intros r z2 (-> & _ & He2 & Hi2 & _); cbn -[the_entries currentIndex];
    destruct (bool_decide _); cbn -[the_entries currentIndex];
    (split; [reflexivity|]);
    (split; [transitivity (the_entries z2); [reflexivity|rewrite He2; exact He1]
            |transitivity (currentIndex z2); [reflexivity|rewrite Hi2; exact Hi1]]).
Qed.

(** X10.  The rollback that works.  A transition of the kind [Unset] whose
    options carry a snapshot (what the [rollback] of a transition requested
    on a Navigator with no current entry asks for) makes the snapshot
    current: when it returns, and it does return (the environment delivering
    the [dispose] notifications), the entries are those of the array of the
    snapshot and the index is the one of the snapshot. *)
Theorem snapshot_is_restored (o : NavOracle) (n : nat) (w : World) (entry : AppHistoryEntry)
    (t : nat) (options : option Options) (index : Z) (l : loc) :
  (forall m x, quiet_dispose x (o m x)) ->
  store_ok w -> unique_ids (the_known w) -> opts_ok options w ->
  options ≫= opt_index = Some index -> options ≫= opt_entries = Some l ->
  snd (exec perform (transition Unset entry (Some t) options) o n w) = inr entry /\
  the_entries (fst (exec perform (transition Unset entry (Some t) options) o n w))
    = the_array l w /\
  currentIndex (fst (exec perform (transition Unset entry (Some t) options) o n w)) = index.
Proof.
  intros Hq Hok Hu Ho Hindex Hentries.
  apply (wp_sound perform quiet_dispose _
           (fun r w' => r = inr entry /\ the_entries w' = the_array l w /\
                        currentIndex w' = index) o n w Hq).
  apply transition_restores; [repeat split; try apply Hok; assumption|assumption|assumption].
Qed.

(** The snapshot the first transition of [visited] was made with: no
    entries, the index [-1]. *)
Definition first_snapshot : option Options :=
  Some {| opt_state := None; opt_replace := false; opt_index := Some (-1);
          opt_known := Some 0%nat; opt_entries := Some 1%nat |}.

Lemma snapshot_is_restored_witness :
  ((forall (m : nat) x, quiet_dispose x (react [] x)) /\ store_ok visited /\
   unique_ids (the_known visited) /\ opts_ok first_snapshot visited /\
   first_snapshot ≫= opt_index = Some (-1) /\ first_snapshot ≫= opt_entries = Some 1%nat) /\
  the_entries visited = [entry_a] /\
  snd (exec perform (transition Unset entry_b (Some 1%nat) first_snapshot)
         (fun _ w => react [] w) 0 visited) = inr entry_b /\
  the_entries (fst (exec perform (transition Unset entry_b (Some 1%nat) first_snapshot)
                      (fun _ w => react [] w) 0 visited)) = [] /\
  currentIndex (fst (exec perform (transition Unset entry_b (Some 1%nat) first_snapshot)
                       (fun _ w => react [] w) 0 visited)) = -1.
Proof.
  assert (Hq : forall (m : nat) x, quiet_dispose x (react [] x)).
  { intros _ [| |tgt ev| | |]; cbn; auto. destruct ev; exact I. }
  assert (Hu : unique_ids (the_known visited)).
  { vm_compute. repeat constructor. rewrite list_elem_of_In. cbn. tauto. }
  assert (Ho : opts_ok first_snapshot visited).
  { intros l H. injection H as <-. vm_compute. lia. }
  split; [split; [exact Hq|split; [apply store_ok_visited|split; [exact Hu|split;
    [exact Ho|split; reflexivity]]]]|].
  split; [vm_compute; reflexivity|].
  exact (snapshot_is_restored (fun _ w => react [] w) 0 visited entry_b 1%nat first_snapshot
           (-1) 1%nat Hq store_ok_visited Hu Ho eq_refl eq_refl).
Defined.

End AppHistory.

(** * The transition object of [navigation-transition.ts] *)

Module NavigationTransition.

(** [NavigationNavigationType] of [./spec/navigation]. *)
Inductive NavigationNavigationType : Type := NPush | NReplace | NTraverse | NReload.

(** [InternalNavigationNavigationType]: a navigation type, or one of the
    symbols [Rollback] and [Unset]. *)
Inductive InternalNavigationNavigationType : Type :=
| Str (navigationType : NavigationNavigationType)
| Rollback
| Unset.

(** [typeof navigationType === "string"] *)
Definition is_string (t : InternalNavigationNavigationType) : bool :=
  match t with Str _ => true | _ => false end.

(** [navigationType === Rollback] *)
Definition is_Rollback (t : InternalNavigationNavigationType) : bool :=
  match t with Rollback => true | _ => false end.

(** The events the transition dispatches on itself. *)
Inductive Event : Type :=
| navigateerror (error : Error)
| AbortEvent       (* type: NavigationTransitionAbort *)
| FinishEvent.     (* type: NavigationTransitionFinish *)

(** What a run leaves in the log: the events dispatched, and the calls of
    the [rollback] the transition was made with. *)
Inductive LogItem : Type :=
| Dispatched (event : Event)
| RollbackCalled.

(** The fields of a [NavigationTransition] object the methods below read or
    write.  [aborted] is [this.#abortController.signal.aborted]; the two
    deferreds are given by the state of their promises; a promise of
    [#promises] is given by the number of the promise [transitionWhile]
    took. *)
Record NavigationTransition : Type := mkNavigationTransition {
  navigationType : InternalNavigationNavigationType;
  entry : nat;
  isCommitted : bool;
  isFinished : bool;
  isRejected : bool;
  isOngoing : bool;
  promises : list nat;
  rolledBack : bool;
  aborted : bool;
  committedDeferred : Settled nat;
  finishedDeferred : Settled nat;
  log : list LogItem
}.

Definition set_isFinished (v : bool) (t : NavigationTransition) : NavigationTransition :=
  {| navigationType := navigationType t; entry := entry t; isCommitted := isCommitted t; isFinished := v; isRejected := isRejected t; isOngoing := isOngoing t; promises := promises t; rolledBack := rolledBack t; aborted := aborted t; committedDeferred := committedDeferred t; finishedDeferred := finishedDeferred t; log := log t |}.
Definition set_isRejected (v : bool) (t : NavigationTransition) : NavigationTransition :=
  {| navigationType := navigationType t; entry := entry t; isCommitted := isCommitted t; isFinished := isFinished t; isRejected := v; isOngoing := isOngoing t; promises := promises t; rolledBack := rolledBack t; aborted := aborted t; committedDeferred := committedDeferred t; finishedDeferred := finishedDeferred t; log := log t |}.
Definition set_isOngoing (v : bool) (t : NavigationTransition) : NavigationTransition :=
  {| navigationType := navigationType t; entry := entry t; isCommitted := isCommitted t; isFinished := isFinished t; isRejected := isRejected t; isOngoing := v; promises := promises t; rolledBack := rolledBack t; aborted := aborted t; committedDeferred := committedDeferred t; finishedDeferred := finishedDeferred t; log := log t |}.
Definition set_promises (v : list nat) (t : NavigationTransition) : NavigationTransition :=
  {| navigationType := navigationType t; entry := entry t; isCommitted := isCommitted t; isFinished := isFinished t; isRejected := isRejected t; isOngoing := isOngoing t; promises := v; rolledBack := rolledBack t; aborted := aborted t; committedDeferred := committedDeferred t; finishedDeferred := finishedDeferred t; log := log t |}.
Definition set_rolledBack (v : bool) (t : NavigationTransition) : NavigationTransition :=
  {| navigationType := navigationType t; entry := entry t; isCommitted := isCommitted t; isFinished := isFinished t; isRejected := isRejected t; isOngoing := isOngoing t; promises := promises t; rolledBack := v; aborted := aborted t; committedDeferred := committedDeferred t; finishedDeferred := finishedDeferred t; log := log t |}.
Definition set_aborted (v : bool) (t : NavigationTransition) : NavigationTransition :=
  {| navigationType := navigationType t; entry := entry t; isCommitted := isCommitted t; isFinished := isFinished t; isRejected := isRejected t; isOngoing := isOngoing t; promises := promises t; rolledBack := rolledBack t; aborted := v; committedDeferred := committedDeferred t; finishedDeferred := finishedDeferred t; log := log t |}.
Definition set_committedDeferred (v : Settled nat) (t : NavigationTransition) : NavigationTransition :=
  {| navigationType := navigationType t; entry := entry t; isCommitted := isCommitted t; isFinished := isFinished t; isRejected := isRejected t; isOngoing := isOngoing t; promises := promises t; rolledBack := rolledBack t; aborted := aborted t; committedDeferred := v; finishedDeferred := finishedDeferred t; log := log t |}.
Definition set_finishedDeferred (v : Settled nat) (t : NavigationTransition) : NavigationTransition :=
  {| navigationType := navigationType t; entry := entry t; isCommitted := isCommitted t; isFinished := isFinished t; isRejected := isRejected t; isOngoing := isOngoing t; promises := promises t; rolledBack := rolledBack t; aborted := aborted t; committedDeferred := committedDeferred t; finishedDeferred := v; log := log t |}.
Definition set_log (v : list LogItem) (t : NavigationTransition) : NavigationTransition :=
  {| navigationType := navigationType t; entry := entry t; isCommitted := isCommitted t; isFinished := isFinished t; isRejected := isRejected t; isOngoing := isOngoing t; promises := promises t; rolledBack := rolledBack t; aborted := aborted t; committedDeferred := committedDeferred t; finishedDeferred := finishedDeferred t; log := v |}.

Definition add_log (i : LogItem) (t : NavigationTransition) : NavigationTransition :=
  set_log (log t ++ [i]) t.

(** What the methods await, or call outside the class.  [WOptionsRollback]
    is the call [this.#options.rollback(options)], which is not awaited: its
    answer is what the call returns or throws. *)
Inductive Wait : Type :=
| WDispatch (event : Event)       (* await this.dispatchEvent(event) *)
| WOptionsRollback                (* this.#options.rollback(options) *)
| WRollbackFinished.              (* await ....finished *)

Definition Ans (w : Wait) : Type := unit.

Abbreviation M := (Async NavigationTransition Ans).

(** A deferred settles once.  Modelled from the spec: [deferred] is
    [./util/deferred], a promise with its [resolve] and [reject]. *)
Definition settle (outcome : Settled nat) (d : Settled nat) : Settled nat :=
  match d with Pending => outcome | _ => d end.

(** [await this.dispatchEvent(event)]: the listeners that are not the
    transition's own are the environment's. *)
Definition dispatchEvent (event : Event) : M unit :=
  Modify (add_log (Dispatched event))
    (Await (WDispatch event)
       (fun r => match r with inl e => Throw e | inr _ => Done tt end)).

(** [NavigationTransitionAbort]().  The event is dispatched without
    [await]; [listener] is the listener the constructor adds for it. *)
Definition NavigationTransitionAbort (listener : M unit) : M unit :=
  signalled ← Get (fun t => Done (aborted t));
  if (signalled : bool) then Done tt
  else
    Modify (set_aborted true)
      (Modify (add_log (Dispatched AbortEvent))
         (_ ← spawn listener; Done tt)).

Definition rollback_invoked_multiple_times : string :=
  "Rollback invoked multiple times: Please raise an issue at https://github.com/virtualstate/app-history with the use case where you want to use a rollback multiple times, this may have been unexpected behaviour".

Definition failed_to_rollback : string :=
  "Failed to rollback, please raise an issue at https://github.com/virtualstate/app-history/issues".

(** [rollback]: once only; then the [rollback] of the options is called. *)
Definition rollback : M unit :=
  rolledBack ← Get (fun t => Done (rolledBack t));
  if (rolledBack : bool) then Throw (InvalidStateError rollback_invoked_multiple_times)
  else
    Modify (set_rolledBack true)
      (Modify (add_log RollbackCalled)
         (Await WOptionsRollback
            (fun r => match r with inl e => Throw e | inr _ => Done tt end))).

(** [NavigationTransitionRejected].  [depth] bounds the calls through the
    listener of the abort event: [NavigationTransitionAbort] dispatches the event, and its
    listener calls [NavigationTransitionRejected] again. *)
Fixpoint NavigationTransitionRejected_ (depth : nat) (reason : Error) : M unit :=
  match depth with
  | O => Throw (OtherError "out of fuel")
  | Datatypes.S depth =>
      isRejected ← Get (fun t => Done (isRejected t));
      if (isRejected : bool) then Done tt
      else
        Modify (set_isRejected true) (Done tt);;
        NavigationTransitionAbort (isFinished ← Get (fun t => Done (isFinished t));
               if (isFinished : bool) then Done tt else NavigationTransitionRejected_ depth AbortError);;
        navigationType ← Get (fun t => Done (navigationType t));
        (if is_string navigationType || is_Rollback navigationType
         then
           dispatchEvent (navigateerror reason);;
           if negb (is_Rollback navigationType)
              && negb (isInvalidStateError reason || isAbortError reason)
           then
             try_catch
               (rollback;;
                Await WRollbackFinished
                  (fun r => match r with inl e => Throw e | inr _ => Done tt end))
               (fun _ => Throw (InvalidStateError failed_to_rollback))
           else Done tt
         else Done tt);;
        Modify (fun t => set_committedDeferred (settle (Rejected reason) (committedDeferred t)) t)
          (Modify (fun t => set_finishedDeferred (settle (Rejected reason) (finishedDeferred t)) t)
             (Done tt))
  end.

(** Two levels are all a call uses: the inner call finds the transition
    rejected and returns. *)
Definition NavigationTransitionRejected (reason : Error) : M unit :=
  NavigationTransitionRejected_ 2 reason.

(** [NavigationTransitionWhile]: no check of the signal. *)
Definition NavigationTransitionWhile (promise : nat) : M unit :=
  Modify (set_isOngoing true)
    (Modify (fun t => set_promises (promises t ++ [promise]) t) (Done tt)).

(** What other code does while a method is suspended: it calls
    [transitionWhile], which the events carry. *)
Inductive Call : Type :=
| call_While (promise : nat).

Definition perform (c : Call) (t : NavigationTransition) : NavigationTransition :=
  match c with
  | call_While promise =>
      match run_sync (NavigationTransitionWhile promise) t with
      | Some (t', _) => t'
      | None => t
      end
  end.

Abbreviation TOracle := (Oracle (W := Wait) Ans Call).

(** A new transition of the kind [navigationType] for [entry]. *)
Definition new (navigationType : InternalNavigationNavigationType) (entry : nat)
  : NavigationTransition :=
  {| navigationType := navigationType; entry := entry;
     isCommitted := false; isFinished := false; isRejected := false; isOngoing := false;
     promises := []; rolledBack := false; aborted := false;
     committedDeferred := Pending; finishedDeferred := Pending; log := [] |}.

(** Every awaited promise is fulfilled, and no other code runs. *)
Definition calm : TOracle := fun _ w => {| acts := []; answer := inr tt |}.


(** ** What [NavigationTransitionRejected] does *)

(** Other code changes [#promises] and [NavigationTransitionIsOngoing]
    only. *)
Lemma during_only (w : Wait) (rc : Reaction Ans Call w) (t : NavigationTransition) :
  exists ps b, during perform rc t = set_promises ps (set_isOngoing b t).
Proof.
  unfold during. generalize (acts rc). intros l. revert t.
  induction l as [|[p] l IH]; intros t; cbn [fold_left].
  - exists (promises t), (isOngoing t). destruct t; reflexivity.
  - destruct (IH (perform (call_While p) t)) as (ps & b & ->). exists ps, b. reflexivity.
Qed.

(** A transition that was rejected before: the call returns at once. *)
Lemma Rejected_again depth reason (o : TOracle) n t :
  isRejected t = true ->
  exec perform (NavigationTransitionRejected_ (Datatypes.S depth) reason) o n t = (t, inr tt).
Proof. intros H. cbn. rewrite H. reflexivity. Qed.

(** More fuel changes nothing. *)
Lemma Rejected_depth depth reason (o : TOracle) n t :
  exec perform (NavigationTransitionRejected_ (Datatypes.S (Datatypes.S depth)) reason) o n t =
  exec perform (NavigationTransitionRejected reason) o n t.
Proof.
  unfold NavigationTransitionRejected. destruct t as [ty e c f r og ps rb a cd fd lg].
  destruct r, a, f; reflexivity.
Qed.

(** The kinds for which [navigateerror] is dispatched. *)
Definition announces (t : NavigationTransition) : bool :=
  is_string (navigationType t) || is_Rollback (navigationType t).

(** The kinds and reasons for which the rollback is called after it. *)
Definition rolls_back (t : NavigationTransition) (reason : Error) : bool :=
  negb (is_Rollback (navigationType t))
  && negb (isInvalidStateError reason || isAbortError reason).

Definition deferreds_rejected (reason : Error) (t t' : NavigationTransition) : Prop :=
  committedDeferred t' = settle (Rejected reason) (committedDeferred t) /\
  finishedDeferred t' = settle (Rejected reason) (finishedDeferred t).

Definition deferreds_kept (t t' : NavigationTransition) : Prop :=
  committedDeferred t' = committedDeferred t /\ finishedDeferred t' = finishedDeferred t.

(** What a call on a transition not yet rejected has done when it settles
    with [r]: it logged [said], after the abort event if the signal had not
    fired. *)
Definition logged (said : list LogItem) (t t' : NavigationTransition) : Prop :=
  log t' = log t ++ (if aborted t then [] else [Dispatched AbortEvent]) ++ said.

Definition rejection (reason : Error) (t : NavigationTransition) (r : Error + unit)
    (t' : NavigationTransition) : Prop :=
  isRejected t' = true /\ aborted t' = true /\
  if announces t
  then
    (* the listeners of navigateerror failed: nothing more is done *)
    (logged [Dispatched (navigateerror reason)] t t' /\ (exists e, r = inl e) /\
     deferreds_kept t t')
    \/
    (* no rollback for this kind or reason *)
    (logged [Dispatched (navigateerror reason)] t t' /\ rolls_back t reason = false /\
     r = inr tt /\ deferreds_rejected reason t t')
    \/
    (* the rollback was used before: the call throws *)
    (logged [Dispatched (navigateerror reason)] t t' /\ rolls_back t reason = true /\
     rolledBack t = true /\
     r = inl (InvalidStateError failed_to_rollback) /\ deferreds_kept t t')
    \/
    (* the rollback is called, after the event *)
    (logged [Dispatched (navigateerror reason); RollbackCalled] t t' /\
     rolls_back t reason = true /\ rolledBack t = false /\
     ((r = inl (InvalidStateError failed_to_rollback) /\ deferreds_kept t t') \/
      (r = inr tt /\ deferreds_rejected reason t t')))
  else logged [] t t' /\ r = inr tt /\ deferreds_rejected reason t t'.

Abbreviation any := (fun (x : Wait) (_ : Reaction Ans Call x) => True).

(** One step of a symbolic run: an await answered by the environment, or a
    test of the state. *)
Ltac run_step :=
  first
    [ match goal with
      | |- forall rc : Reaction _ _ _, _ -> _ =>
          let rc := fresh "rc" in
          let H := fresh "H" in
          intros rc H; cbn in H;
          match goal with
          | |- wp _ _ _ _ (during perform rc ?s) =>
              destruct (during_only _ rc s) as (? & ? & ->)
          end;
          lazymatch type of H with
          | True => destruct (answer rc) as [?|[]]
          | _ => destruct H as [? ->]
          end; cbn
      end
    | match goal with
      | |- wp _ _ ?p _ _ =>
          match p with
          | context [if ?b then _ else _] => destruct b eqn:?; cbn
          end
      end ].

(** Choose the case of a disjunction that holds. *)
Ltac pick :=
  first [ solve [repeat split;
                 first [reflexivity | assumption | eexists; reflexivity
                       | left; pick | right; pick]]
        | left; pick
        | right; pick ].

Lemma Rejected_policy reason t :
  isRejected t = false ->
  wp perform any (NavigationTransitionRejected reason) (rejection reason t) t.
Proof.
  intros Hr. unfold NavigationTransitionRejected, rejection, logged, announces, rolls_back,
    deferreds_kept, deferreds_rejected.
  destruct t as [ty e c f r og ps rb a cd fd lg]. cbn in Hr. subst r.
  destruct a, f, (is_string ty || is_Rollback ty) eqn:Ean; cbn; rewrite ?Ean; cbn.
  all: repeat run_step.
  all: rewrite <- ?app_assoc, ?app_nil_r; cbn [app].
  all: split; [reflexivity|split; [reflexivity|]].
  all: pick.
Qed.



(** [NavigationTransitionWhile] takes the promise whatever the state of the
    signal. *)
Lemma While_registers promise t :
  run_sync (NavigationTransitionWhile promise) t =
    Some (set_promises (promises t ++ [promise]) (set_isOngoing true t), inr tt).
Proof. reflexivity. Qed.

(** ** More about the transition object *)

Lemma rollback_marks (o : TOracle) n t :
  rolledBack (fst (exec perform rollback o n t)) = true.
Proof.
  unfold rollback. cbn -[during]. destruct (rolledBack t) eqn:E; cbn -[during]; [exact E|].
  match goal with
  | |- context [during perform ?rc ?s] => destruct (during_only _ rc s) as (ps & b & ->)
  end.
  destruct (answer (o n WOptionsRollback)) as [e|[]]; reflexivity.
Qed.

(** X11.  [rollback] works once.  Whatever the first call did (it returned
    what the [rollback] of the options returned, or that one threw), a
    second call throws the [InvalidStateError] "Rollback invoked multiple
    times" and changes nothing: the [rollback] of the options is not called
    again. *)
Theorem rollback_a_second_time (o : TOracle) (n m : nat) (t : NavigationTransition) :
  exec perform rollback o m (fst (exec perform rollback o n t)) =
    (fst (exec perform rollback o n t),
     inl (InvalidStateError rollback_invoked_multiple_times)).
Proof.
  pose proof (rollback_marks o n t) as H.
  set (t1 := fst (exec perform rollback o n t)) in *.
  unfold rollback. cbn. rewrite H. reflexivity.
Qed.

Lemma Rejected_marks reason (o : TOracle) n t :
  isRejected (fst (exec perform (NavigationTransitionRejected reason) o n t)) = true.
Proof.
  destruct (isRejected t) eqn:E.
  - unfold NavigationTransitionRejected. rewrite Rejected_again by exact E. exact E.
  - exact (proj1 (wp_sound perform any _ _ o n t (fun _ _ => I) (Rejected_policy reason t E))).
Qed.

(** X12.  A transition is rejected once.  After a call of
    [NavigationTransitionRejected], whether it returned or threw, every
    later call returns at once and changes nothing: no second
    [navigateerror], no second rollback, and the deferreds keep what the
    first call gave them. *)
Theorem NavigationTransitionRejected_a_second_time (reason reason' : Error) (depth : nat)
    (o : TOracle) (n m : nat) (t : NavigationTransition) :
  exec perform (NavigationTransitionRejected_ (Datatypes.S depth) reason') o m
    (fst (exec perform (NavigationTransitionRejected reason) o n t))
  = (fst (exec perform (NavigationTransitionRejected reason) o n t), inr tt).
Proof. apply Rejected_again, Rejected_marks. Qed.

End NavigationTransition.

(** * The rejection policy and the registration after an abort *)

(** The closure [rollbackImmediately] of a run of [#transition]. *)
Definition rollbackImmediately (depth : nat) (rb : AppHistory.RollbackClosure)
  : AppHistory.NavM AppHistory.AppHistoryResult :=
  AppHistory.call_rollback
    (fun ty e tr o => inr <$> spawn (AppHistory.transition_ depth ty e tr o)) rb None.





(** C9.  The [transitionWhile] of a run of the Navigator checks the signal:
    aborted, it throws and registers nothing.  [NavigationTransitionWhile]
    does not: it takes the promise whatever the state of the signal; so on
    a transition that [NavigationTransitionRejected] has aborted. *)
Theorem C9_registration_after_abort :
  (forall c p w,
     run_sync (AppHistory.transitionWhile c p) w =
       if AppHistory.aborted c w
       then Some (w, inl (InvalidStateError "Event has already finished processing"))
       else Some (AppHistory.registered c p w, inr tt)) /\
  (forall promise t,
     run_sync (NavigationTransition.NavigationTransitionWhile promise) t =
       Some (NavigationTransition.set_promises (NavigationTransition.promises t ++ [promise])
               (NavigationTransition.set_isOngoing true t), inr tt)) /\
  NavigationTransition.aborted
    (fst (exec NavigationTransition.perform
            (NavigationTransition.NavigationTransitionRejected AbortError)
            NavigationTransition.calm 0
            (NavigationTransition.new (NavigationTransition.Str NavigationTransition.NPush) 0)))
    = true /\
  (NavigationTransition.promises <$>
     (fst <$> run_sync (NavigationTransition.NavigationTransitionWhile 7)
        (fst (exec NavigationTransition.perform
                (NavigationTransition.NavigationTransitionRejected AbortError)
                NavigationTransition.calm 0
                (NavigationTransition.new (NavigationTransition.Str NavigationTransition.NPush)
                   0)))))
    = Some [7%nat].
Proof.
  split; [exact AppHistory.transitionWhile_checks_the_signal|].
  split; [exact NavigationTransition.While_registers|].
  vm_compute. split; reflexivity.
Qed.

(** * [apply-polyfill.ts] *)

Module ApplyPolyfill.

(** [shouldApplyPolyfill(navigation = getNavigation())].  [navigation] is
    an object, the argument or what [getNavigation()] returns;
    [globalNavigation] is the object of the platform or [undefined];
    [window] is [typeof window !== "undefined"]. *)
Definition shouldApplyPolyfill (navigation : nat) (globalNavigation : option nat)
    (window : bool) : bool :=
  negb (bool_decide (Some navigation = globalNavigation))
  && negb (bool_decide (is_Some globalNavigation))
  && window.

(** X13.  The polyfill is to be applied exactly when the platform has no
    navigation object and there is a window; which object is given as
    [navigation] never decides, the comparison with the global one being
    true whenever the global one is [undefined]. *)
Theorem shouldApplyPolyfill_iff (navigation : nat) (globalNavigation : option nat)
    (window : bool) :
  shouldApplyPolyfill navigation globalNavigation window = true <->
  globalNavigation = None /\ window = true.
Proof.
  unfold shouldApplyPolyfill. split.
  - intros H. apply andb_prop in H as [H Hw]. apply andb_prop in H as [_ Hg].
    apply negb_true_iff, bool_decide_eq_false in Hg. split; [|exact Hw].
    destruct globalNavigation; [exfalso; apply Hg; eauto|reflexivity].
  - intros [-> ->]. reflexivity.
Qed.

End ApplyPolyfill.
